(** * GCS source: resumable cache, progress accounting and the object loop

    A shallow embedding of [pkg/sources/gcs/gcs.go].  Sequential helpers
    ([persistableCache.Set], [shouldPersist], [setupCache], [setProgress],
    [completeProgress], [readObjectData], [processObject]) are Rocq
    functions over explicit state; the goroutines started by [Chunks], the
    mutex [s.mu], the wait group and the [select] on the output channel are
    a small-step relation over a global state in which every collaborator
    answer (reader, handler, channel readiness, cancellation, map iteration
    order) is chosen by the environment. *)

From Stdlib Require Import ZArith String Ascii List Lia Permutation.
From Stdlib Require Import Floats.SpecFloat.
From stdpp Require Import base strings pretty gmap list fin_maps.

Local Open Scope string_scope.
Local Open Scope Z_scope.

(** ** Go's [strings] helpers, for a one-byte separator *)

Module strings.

(** [strings.Split(s, sep)]: the substrings between the separators; a
    string without separator (the empty one too) is returned whole. *)
Fixpoint Split (s : string) (sep : ascii) : list string :=
  match s with
  | EmptyString => [EmptyString]
  | String ch rest =>
      if Ascii.eqb ch sep then EmptyString :: Split rest sep
      else match Split rest sep with
           | hd :: tl => String ch hd :: tl
           | [] => [String ch EmptyString]
           end
  end.

(** [strings.Join(elems, sep)]. *)
Fixpoint Join (elems : list string) (sep : ascii) : string :=
  match elems with
  | [] => EmptyString
  | e :: rest =>
      match rest with
      | [] => e
      | _ :: _ => String.append e (String sep (Join rest sep))
      end
  end.

(** The separator does not occur in [s]. *)
Fixpoint free_of (sep : ascii) (s : string) : bool :=
  match s with
  | EmptyString => true
  | String ch rest => negb (Ascii.eqb ch sep) && free_of sep rest
  end.

End strings.

Definition comma : ascii := ","%char.

(** ** The cache behind [cache.Cache] *)

(** Go ranges over a map in an order of its own choosing; the order is an
    argument of every function that renders the keys. *)
Definition range_order := list string -> list string.

Definition is_range_order (ord : range_order) : Prop :=
  forall l, Permutation (ord l) l.

Module memory.

(** Modelled from the spec: the in-memory cache of [pkg/cache/memory]
    ([memory.New], [memory.NewWithData] and the [cache.Cache] methods
    [Set] (here [Set_]), [Exists], [Count], [Contents]) is not part of the
    sources at hand.  Following the spec it is a mapping from object name
    to an unused value, without deletion. *)
Definition Cache := gmap string string.

(** Modelled from the spec: [memory.New], the empty cache. *)
Definition New : Cache := ∅.

(** Modelled from the spec: [Set(key, val)], an idempotent insertion. *)
Definition Set_ (c : Cache) (key val : string) : Cache := <[key := val]> c.

(** Modelled from the spec: [memory.NewWithData], the cache re-populated
    with the given keys. *)
Definition NewWithData (data : list string) : Cache :=
  foldl (fun c d => Set_ c d d) New data.

(** Modelled from the spec: [Exists(key)], presence of the key. *)
Definition Exists (c : Cache) (key : string) : bool :=
  match c !! key with Some _ => true | None => false end.

(** Modelled from the spec: [Count()], the number of keys. *)
Definition Count (c : Cache) : Z := Z.of_nat (size c).

(** The keys, in the order the map stores them. *)
Definition Keys (c : Cache) : list string := (map_to_list c).*1.

(** Modelled from the spec: [Contents()], the key set rendered as a
    comma-delimited string, the keys ranged over in the order [ord]. *)
Definition Contents (ord : range_order) (c : Cache) : string :=
  strings.Join (ord (Keys c)) comma.

End memory.

(** ** [sources.Progress] and [persistableCache] *)

(** Modelled from the spec: [sources.Progress] (ProgressState) is
    declared outside the sources at hand; these are the fields the source
    reads and writes, with the widths its conversions name. *)
Record Progress := mkProgress {
  PercentComplete : Z;          (* int64 *)
  Message : string;
  EncodedResumeInfo : string;
  SectionsCompleted : Z;        (* int32 *)
  SectionsRemaining : Z         (* int32 *)
}.

Definition set_EncodedResumeInfo (p : Progress) (v : string) : Progress :=
  mkProgress (PercentComplete p) (Message p) v
             (SectionsCompleted p) (SectionsRemaining p).

Definition set_Message (p : Progress) (v : string) : Progress :=
  mkProgress (PercentComplete p) v (EncodedResumeInfo p)
             (SectionsCompleted p) (SectionsRemaining p).

Definition set_SectionsCompleted (p : Progress) (v : Z) : Progress :=
  mkProgress (PercentComplete p) (Message p) (EncodedResumeInfo p)
             v (SectionsRemaining p).

Definition set_SectionsRemaining (p : Progress) (v : Z) : Progress :=
  mkProgress (PercentComplete p) (Message p) (EncodedResumeInfo p)
             (SectionsCompleted p) v.

Definition set_PercentComplete (p : Progress) (v : Z) : Progress :=
  mkProgress v (Message p) (EncodedResumeInfo p)
             (SectionsCompleted p) (SectionsRemaining p).

Definition defaultCachePersistIncrement : Z := 2500.

(** The wrapper's [*sources.Progress] field points at the [Progress]
    embedded in the [Source]; the pointee is passed to and returned from
    the functions that write through it. *)
Record persistableCache := mkPersistableCache {
  persistIncrement : Z;
  Cache : memory.Cache
}.

Definition newPersistableCache (increment : Z) (cache : memory.Cache)
  : persistableCache :=
  mkPersistableCache increment cache.

(** [shouldPersist]; [None] is the run-time panic of [%] by zero. *)
Definition shouldPersist (ord : range_order) (c : persistableCache)
  : option (bool * string) :=
  if Z.eqb (persistIncrement c) 0 then None
  else if negb (Z.eqb (Z.rem (memory.Count (Cache c)) (persistIncrement c)) 0)
       then Some (false, EmptyString)
       else Some (true, memory.Contents ord (Cache c)).

(** [persistableCache.Set]. *)
Definition persistableCache_Set (ord : range_order) (c : persistableCache)
    (p : Progress) (key val : string) : option (persistableCache * Progress) :=
  let c1 := mkPersistableCache (persistIncrement c)
                               (memory.Set_ (Cache c) key val) in
  match shouldPersist ord c1 with
  | None => None
  | Some (ok, contents) =>
      Some (c1, if ok then set_EncodedResumeInfo p contents else p)
  end.

(** [Source.setupCache], on the [Progress] of the source. *)
Definition setupCache (p : Progress) : persistableCache :=
  let c :=
    if negb (String.eqb (EncodedResumeInfo p) EmptyString)
    then memory.NewWithData (strings.Split (EncodedResumeInfo p) comma)
    else memory.New in
  newPersistableCache defaultCachePersistIncrement c.

(** ** Numeric conversions of [setProgress] *)

(** [int32(x)]: the low 32 bits of [x], read as a signed number. *)
Definition wrap32 (x : Z) : Z := (x + 2 ^ 31) mod 2 ^ 32 - 2 ^ 31.

Definition int32_min : Z := - 2 ^ 31.
Definition int32_max : Z := 2 ^ 31 - 1.

Definition in_int64 (v : Z) : bool := (- 2 ^ 63 <=? v) && (v <? 2 ^ 63).

(** IEEE 754 binary64, through the executable specification of the
    Standard Library (53 bits of precision, exponents below 1024). *)
Definition float64 := spec_float.

(** [float64(n)] of an integer: rounded to nearest, ties to even. *)
Definition float64_of_Z (n : Z) : float64 := binary_normalize 53 1024 n 0 false.

Definition float64_div (x y : float64) : float64 := SFdiv 53 1024 x y.
Definition float64_mul (x y : float64) : float64 := SFmul 53 1024 x y.

(** [int64(f)]: truncation toward zero.  Go leaves the result of a value
    that does not fit (infinities and NaN included) to the implementation;
    those give [None]. *)
Definition int64_of_float64 (f : float64) : option Z :=
  match f with
  | S754_zero _ => Some 0
  | S754_finite sign m e =>
      let mag := Z.shiftl (Z.pos m) e in
      let v := if sign then - mag else mag in
      if in_int64 v then Some v else None
  | S754_infinity _ => None
  | S754_nan => None
  end.

(** [int64(float64(completed) / float64(total) * 100)]. *)
Definition percent_of (completed total : Z) : option Z :=
  int64_of_float64
    (float64_mul (float64_div (float64_of_Z completed) (float64_of_Z total))
                 (float64_of_Z 100)).

(** ** Objects, chunks and the source *)

(** Modelled from the spec: [attributes] (EnumerationStats) is declared
    outside the sources at hand; only its total object count is used, an
    unsigned number. *)
Record attributes := mkAttributes {
  numObjects : N
}.

(** Modelled from the spec: the [object] descriptor is declared outside
    the sources at hand; these are the fields [processObject] reads.  The
    creation time is kept as its Unix seconds and the update time as its
    textual rendering; the byte stream is answered by the environment
    (see [ObjectIO]). *)
Record object := mkObject {
  name : string;
  bucket : string;
  contentType : string;
  owner : string;
  link : string;
  acl : list string;
  createdAt : Z;
  updatedAt : string
}.

(** The one value of [sourcespb.SourceType] the source uses. *)
Inductive SourceType := SOURCE_TYPE_GCS.

(** [source_metadatapb.GCS], with the fields [processObject] fills. *)
Record GCS := mkGCS {
  Bucket : string;
  Filename : string;
  Link : string;
  Email : string;
  ContentType : string;
  Acls : list string;
  CreatedAt : string;
  UpdatedAt : string
}.

(** [sources.Chunk], with the fields [processObject] fills; [Data] is
    [None] for a nil slice. *)
Record Chunk := mkChunk {
  SourceName : string;
  SourceType_ : SourceType;
  SourceID : Z;
  Verify : bool;
  SourceMetadata : GCS;
  Data : option (list Byte.byte)
}.

Definition set_Data (c : Chunk) (d : option (list Byte.byte)) : Chunk :=
  mkChunk (SourceName c) (SourceType_ c) (SourceID c) (Verify c)
          (SourceMetadata c) d.

(** The configuration fields of [Source]; its [Progress], mutex and
    channel live in the run state below. *)
Record Source := mkSource {
  s_name : string;
  jobId : Z;
  sourceId : Z;
  concurrency : Z;
  verify : bool;
  stats : attributes
}.

Definition Type_ (s : Source) : SourceType := SOURCE_TYPE_GCS.

(** Errors are their messages; [fmt.Errorf("prefix: %w", err)]. *)
Definition wrap_error (prefix err : string) : string :=
  prefix +:+ ": " +:+ err.

(** ** [readObjectData] and [processObject] *)

(** What the collaborators answer while one object is processed: the
    error of [diskbufferreader.New], the chunks [handlers.HandleFile] puts
    on the output channel together with its verdict, the error of
    [reader.Reset] and the result of [io.ReadAll].  Nothing is assumed of
    these answers: the handler may emit any chunks with either verdict,
    and any of the three reader operations may fail. *)
Record ObjectIO := mkObjectIO {
  io_New : option string;
  io_HandleFile : list Chunk * bool;
  io_Reset : option string;
  io_ReadAll : list Byte.byte * option string
}.

(** [readObjectData]: the chunks the handler emitted, then the pair
    [(data, err)] the function returns. *)
Definition readObjectData (io : ObjectIO)
  : list Chunk * (option (list Byte.byte) * option string) :=
  match io_New io with
  | Some err =>
      ([], (None, Some (wrap_error "error creating disk buffer reader" err)))
  | None =>
      let (emitted, handled) := io_HandleFile io in
      if handled then (emitted, (None, None))
      else
        match io_Reset io with
        | Some err =>
            (emitted, (None, Some (wrap_error "error resetting reader" err)))
        | None =>
            let (data, rerr) := io_ReadAll io in
            match rerr with
            | Some err =>
                (emitted, (None, Some (wrap_error "error reading object" err)))
            | None => (emitted, (Some data, None))
            end
        end
  end.

Definition chunkSkel (s : Source) (o : object) : Chunk :=
  mkChunk (s_name s) (Type_ s) (sourceId s) (verify s)
          (mkGCS (bucket o) (name o) (link o) (owner o) (contentType o)
                 (acl o) (pretty (createdAt o)) (updatedAt o))
          None.

(** Where [processObject] stands when it stops running on its own: it
    has returned, or it waits in the [select] with the chunk to send. *)
Inductive Pending :=
| Returned (err : option string)
| Selecting (chunk : Chunk).

(** [processObject] up to the [select]. *)
Definition processObject_begin (s : Source) (o : object) (io : ObjectIO)
  : list Chunk * Pending :=
  let '(emitted, (data, err)) := readObjectData io in
  match err with
  | Some e => (emitted, Returned (Some (wrap_error "error reading object data" e)))
  | None =>
      match data with
      | None => (emitted, Returned None)
      | Some d => (emitted, Selecting (set_Data (chunkSkel s o) (Some d)))
      end
  end.

(** The case of the [select] that proceeds. *)
Inductive Selected :=
| CtxDone (err : string)
| ChunkSent.

(** The [select] of [processObject] and what follows it: the chunks put
    on the output channel and the error returned. *)
Definition processObject_select (chunk : Chunk) (sel : Selected)
  : list Chunk * option string :=
  match sel with
  | CtxDone err => ([], Some err)
  | ChunkSent => ([chunk], None)
  end.

(** [processObject] as a whole: the chunks put on the output channel, in
    order, and the error returned. *)
Definition processObject (s : Source) (o : object) (io : ObjectIO)
    (sel : Selected) : list Chunk * option string :=
  let (emitted, p) := processObject_begin s o io in
  match p with
  | Returned err => (emitted, err)
  | Selecting chunk =>
      let (sent, err) := processObject_select chunk sel in
      ((emitted ++ sent)%list, err)
  end.

(** The case a [select] between [<-ctx.Done()] and the send takes:
    [send] is the runtime's pick ([true]: the send); a case that cannot
    proceed is not taken. *)
Definition select_case (ctx : option string) (ready send : bool)
  : option Selected :=
  if send then (if ready then Some ChunkSent else None)
  else match ctx with
       | Some err => Some (CtxDone err)
       | None => None
       end.

(** ** [setProgress] and [completeProgress] *)

(** The statements of [setProgress] between [Lock] and [Unlock]. *)
Definition sp_increment (p : Progress) : Progress :=
  set_SectionsCompleted p (wrap32 (SectionsCompleted p + 1)).

Definition sp_remaining (s : Source) (p : Progress) : Progress :=
  set_SectionsRemaining p (wrap32 (Z.of_N (numObjects (stats s)))).

(** [undef] is the implementation's result for a conversion Go leaves
    open. *)
Definition sp_percent (undef : Z) (s : Source) (p : Progress) : Progress :=
  set_PercentComplete p
    (match percent_of (SectionsCompleted p) (Z.of_N (numObjects (stats s))) with
     | Some v => v
     | None => undef
     end).

Definition setProgress (ord : range_order) (undef : Z) (s : Source)
    (objName : string) (p : Progress) (cache : persistableCache)
  : option (Progress * persistableCache) :=
  let p1 := sp_increment p in
  match persistableCache_Set ord cache p1 objName objName with
  | None => None
  | Some (cache2, p2) => Some (sp_percent undef s (sp_remaining s p2), cache2)
  end.

Definition completion_message (s : Source) : string :=
  "GCS source finished processing " +:+ pretty (numObjects (stats s))
  +:+ " objects".

Definition completeProgress (s : Source) (p : Progress) : Progress :=
  set_Message p (completion_message s).

(** ** The run of [Chunks]: control loop, goroutines, mutex, channels *)

(** An element received from [objectCh]: an [object], or a value of
    another dynamic type (its type name is kept for the log). *)
Inductive item :=
| ItemObject (o : object)
| ItemOther (ty : string).

(** Where a goroutine started by the loop stands. *)
Inductive TaskPC :=
| TProcess                        (* started; [processObject] to run *)
| TSelect (chunk : Chunk)         (* waiting in the [select] *)
| TLock                           (* [processObject] gave nil; [s.mu.Lock()] next *)
| TIncrement                      (* holding [s.mu]: [s.SectionsCompleted++] next *)
| TCacheSet                       (* holding [s.mu]: [cache.Set] next *)
| TRemaining                      (* holding [s.mu]: [SectionsRemaining = ...] next *)
| TPercent                        (* holding [s.mu]: [PercentComplete = ...] next *)
| TUnlock                         (* holding [s.mu]: deferred [Unlock] next *)
| TDeferred (err : option string) (* body left; deferred [wg.Done()] next *)
| TExited (err : option string).  (* goroutine gone *)

Record Task := mkTask {
  t_obj : object;
  t_pc : TaskPC
}.

(** Where the body of [Chunks] stands. *)
Inductive ControlPC :=
| CRange      (* in [for obj := range objectCh] *)
| CWait       (* at [wg.Wait()] *)
| CReturned.  (* returned nil *)

Record State := mkState {
  s_src : Source;
  s_progress : Progress;          (* [s.Progress], shared with the cache wrapper *)
  s_cache : persistableCache;
  s_mu : bool;                    (* [s.mu] is held *)
  s_wg : Z;                       (* counter of the wait group *)
  s_ctx : option string;          (* [ctx.Err()]; [None] while [ctx.Done()] is open *)
  s_ready : bool;                 (* a send on [chunksCh] can proceed *)
  s_objectCh : list item;         (* elements [objectCh] still yields *)
  s_chunksCh : list Chunk;        (* chunks put on [chunksCh] so far *)
  s_tasks : list Task;            (* goroutines, in spawn order *)
  s_control : ControlPC
}.

Definition with_progress (st : State) (p : Progress) : State :=
  mkState (s_src st) p (s_cache st) (s_mu st) (s_wg st) (s_ctx st)
          (s_ready st) (s_objectCh st) (s_chunksCh st) (s_tasks st)
          (s_control st).

Definition with_cache (st : State) (c : persistableCache) : State :=
  mkState (s_src st) (s_progress st) c (s_mu st) (s_wg st) (s_ctx st)
          (s_ready st) (s_objectCh st) (s_chunksCh st) (s_tasks st)
          (s_control st).

Definition with_mu (st : State) (b : bool) : State :=
  mkState (s_src st) (s_progress st) (s_cache st) b (s_wg st) (s_ctx st)
          (s_ready st) (s_objectCh st) (s_chunksCh st) (s_tasks st)
          (s_control st).

Definition with_wg (st : State) (n : Z) : State :=
  mkState (s_src st) (s_progress st) (s_cache st) (s_mu st) n (s_ctx st)
          (s_ready st) (s_objectCh st) (s_chunksCh st) (s_tasks st)
          (s_control st).

Definition with_ctx (st : State) (e : option string) : State :=
  mkState (s_src st) (s_progress st) (s_cache st) (s_mu st) (s_wg st) e
          (s_ready st) (s_objectCh st) (s_chunksCh st) (s_tasks st)
          (s_control st).

Definition with_ready (st : State) (b : bool) : State :=
  mkState (s_src st) (s_progress st) (s_cache st) (s_mu st) (s_wg st)
          (s_ctx st) b (s_objectCh st) (s_chunksCh st) (s_tasks st)
          (s_control st).

Definition with_objectCh (st : State) (l : list item) : State :=
  mkState (s_src st) (s_progress st) (s_cache st) (s_mu st) (s_wg st)
          (s_ctx st) (s_ready st) l (s_chunksCh st) (s_tasks st)
          (s_control st).

Definition with_chunksCh (st : State) (l : list Chunk) : State :=
  mkState (s_src st) (s_progress st) (s_cache st) (s_mu st) (s_wg st)
          (s_ctx st) (s_ready st) (s_objectCh st) l (s_tasks st)
          (s_control st).

Definition with_tasks (st : State) (l : list Task) : State :=
  mkState (s_src st) (s_progress st) (s_cache st) (s_mu st) (s_wg st)
          (s_ctx st) (s_ready st) (s_objectCh st) (s_chunksCh st) l
          (s_control st).

Definition with_control (st : State) (c : ControlPC) : State :=
  mkState (s_src st) (s_progress st) (s_cache st) (s_mu st) (s_wg st)
          (s_ctx st) (s_ready st) (s_objectCh st) (s_chunksCh st)
          (s_tasks st) c.

Definition set_pc (st : State) (i : nat) (o : object) (pc : TaskPC) : State :=
  with_tasks st (<[i := mkTask o pc]> (s_tasks st)).

(** What the environment answers when a goroutine takes a step: the
    collaborators of [processObject], the case the [select] picks when it
    can ([true]: the send), the order in which the cache's keys are
    ranged over, and the result of an open numeric conversion. *)
Record Env := mkEnv {
  e_io : ObjectIO;
  e_send : bool;
  e_ord : range_order;
  e_undef : Z
}.

(** One scheduling decision: who moves next. *)
Inductive Choice :=
| RunControl                     (* the body of [Chunks] *)
| RunTask (i : nat) (env : Env)  (* the [i]-th goroutine *)
| Cancel (err : string)          (* [ctx] is cancelled, [ctx.Err()] becomes [err] *)
| Ready (b : bool).              (* the consumer of [chunksCh] is, or is not, receiving *)

Definition valid_choice (ch : Choice) : Prop :=
  match ch with
  | RunTask _ env => is_range_order (e_ord env) /\ in_int64 (e_undef env) = true
  | _ => True
  end.

(** What a step did. *)
Inductive Event :=
| EvUnexpectedType (ty : string)  (* logged, element dropped *)
| EvSkip (o : object)             (* already in the cache *)
| EvSpawn (o : object)            (* [wg.Add(1)] and [go func] *)
| EvClosed                        (* [objectCh] exhausted *)
| EvComplete                      (* [wg.Wait()] passed, [completeProgress] *)
| EvProcessed (i : nat) (o : object) (emitted : list Chunk) (p : Pending)
| EvSelect (i : nat) (o : object) (chunk : Chunk) (sel : Selected)
| EvLock (i : nat) (o : object)
| EvIncrement (i : nat) (o : object)
| EvCacheSet (i : nat) (o : object)
| EvRemaining (i : nat) (o : object)
| EvPercent (i : nat) (o : object)
| EvUnlock (i : nat) (o : object)
| EvWgDone (i : nat) (o : object) (err : option string)
| EvCancel (err : string)
| EvReady (b : bool).

(** The loop body of [Chunks], [wg.Wait()] and [completeProgress]. *)
Definition fire_control (st : State) : option (Event * State) :=
  match s_control st with
  | CRange =>
      match s_objectCh st with
      | [] => Some (EvClosed, with_control st CWait)
      | ItemOther ty :: rest =>
          Some (EvUnexpectedType ty, with_objectCh st rest)
      | ItemObject o :: rest =>
          if memory.Exists (Cache (s_cache st)) (name o)
          then Some (EvSkip o, with_objectCh st rest)
          else Some (EvSpawn o,
                     with_tasks (with_wg (with_objectCh st rest) (s_wg st + 1))
                                (s_tasks st ++ [mkTask o TProcess]))
      end
  | CWait =>
      if Z.eqb (s_wg st) 0
      then Some (EvComplete,
                 with_control
                   (with_progress st (completeProgress (s_src st) (s_progress st)))
                   CReturned)
      else None
  | CReturned => None
  end.

Definition pc_after (p : Pending) : TaskPC :=
  match p with
  | Returned None => TLock
  | Returned (Some err) => TDeferred (Some err)
  | Selecting chunk => TSelect chunk
  end.

(** Modelled from the spec: [handlers.HandleFile] is handed
    [s.chunksCh], the shared output queue, and emits its chunks on it.
    Its sends proceed when there is none, or when a send on the channel
    can proceed. *)
Definition handler_sends (ready : bool) (emitted : list Chunk) : bool :=
  match emitted with
  | [] => true
  | _ :: _ => ready
  end.

(** The body of a goroutine: [processObject], then [setProgress], one
    statement of the latter at a time.  The chunks of the handler reach
    the channel within the step that runs [processObject] up to its
    [select]: the step waits, the goroutine inside [HandleFile], as long
    as the handler has chunks to send and no send on the channel can
    proceed.  The send of the goroutine's own chunk is a step of its
    own. *)
Definition fire_task (st : State) (i : nat) (env : Env)
  : option (Event * State) :=
  match s_tasks st !! i with
  | None => None
  | Some (mkTask o pc) =>
      match pc with
      | TProcess =>
          let (emitted, p) := processObject_begin (s_src st) o (e_io env) in
          if handler_sends (s_ready st) emitted
          then Some (EvProcessed i o emitted p,
                     set_pc (with_chunksCh st (s_chunksCh st ++ emitted)) i o
                            (pc_after p))
          else None
      | TSelect chunk =>
          match select_case (s_ctx st) (s_ready st) (e_send env) with
          | Some sel =>
              let (sent, err) := processObject_select chunk sel in
              Some (EvSelect i o chunk sel,
                    set_pc (with_chunksCh st (s_chunksCh st ++ sent)) i o
                           (pc_after (Returned err)))
          | None => None
          end
      | TLock =>
          if s_mu st then None
          else Some (EvLock i o, set_pc (with_mu st true) i o TIncrement)
      | TIncrement =>
          Some (EvIncrement i o,
                set_pc (with_progress st (sp_increment (s_progress st))) i o
                       TCacheSet)
      | TCacheSet =>
          match persistableCache_Set (e_ord env) (s_cache st) (s_progress st)
                                     (name o) (name o) with
          | Some (c, p) =>
              Some (EvCacheSet i o,
                    set_pc (with_progress (with_cache st c) p) i o TRemaining)
          | None => None
          end
      | TRemaining =>
          Some (EvRemaining i o,
                set_pc (with_progress st (sp_remaining (s_src st) (s_progress st)))
                       i o TPercent)
      | TPercent =>
          Some (EvPercent i o,
                set_pc (with_progress st
                          (sp_percent (e_undef env) (s_src st) (s_progress st)))
                       i o TUnlock)
      | TUnlock =>
          Some (EvUnlock i o, set_pc (with_mu st false) i o (TDeferred None))
      | TDeferred err =>
          Some (EvWgDone i o err,
                set_pc (with_wg st (s_wg st - 1)) i o (TExited err))
      | TExited _ => None
      end
  end.

Definition fire (st : State) (ch : Choice) : option (Event * State) :=
  match ch with
  | RunControl => fire_control st
  | RunTask i env => fire_task st i env
  | Cancel err =>
      match s_ctx st with
      | None => Some (EvCancel err, with_ctx st (Some err))
      | Some _ => None
      end
  | Ready b => Some (EvReady b, with_ready st b)
  end.

Definition step (st : State) (ev : Event) (st' : State) : Prop :=
  exists ch, valid_choice ch /\ fire st ch = Some (ev, st').

Inductive exec : State -> list Event -> State -> Prop :=
| exec_nil st : exec st [] st
| exec_cons st ev st1 tr st2 :
    step st ev st1 -> exec st1 tr st2 -> exec st (ev :: tr) st2.

(** A schedule played from a state. *)
Fixpoint run (st : State) (chs : list Choice) : option (list Event * State) :=
  match chs with
  | [] => Some ([], st)
  | ch :: rest =>
      match fire st ch with
      | None => None
      | Some (ev, st1) =>
          match run st1 rest with
          | None => None
          | Some (tr, st2) => Some (ev :: tr, st2)
          end
      end
  end.

(** [Chunks] up to the loop, once [listObjects] has answered with the
    elements of [objectCh]. *)
Definition Chunks_begin (s : Source) (p : Progress) (ctx : option string)
    (ready : bool) (objs : list item) : State :=
  let persistableCache := setupCache p in
  mkState s (set_Message p "starting to process objects...")
          persistableCache false 0 ctx ready objs [] [] CRange.

(** [Chunks] up to the loop: the error returned when [listObjects]
    fails, else the state the loop starts from. *)
Definition Chunks_start (s : Source) (p : Progress) (ctx : option string)
    (ready : bool) (listing : string + list item) : string + State :=
  match listing with
  | inl err => inl (wrap_error "error listing objects" err)
  | inr objs => inr (Chunks_begin s p ctx ready objs)
  end.

(** ** Configuration: [oauth2Client], [configureGCSManager], [Init] *)

(** Modelled from the spec: [credentialspb.Oauth2] is declared outside
    the sources at hand; these are the getters [oauth2Client] calls. *)
Record Oauth2 := mkOauth2 {
  GetClientId : string;
  GetRefreshToken : string;
  GetAccessToken : string
}.

(** [storage.ScopeReadOnly] and the two URLs of [endpoints.Google] are
    constants of the client libraries; they are kept by name. *)
Inductive Scope := ScopeReadOnly.

Inductive EndpointURL := Google_AuthURL | Google_TokenURL.

(** [oauth2.Endpoint], [oauth2.Config] and [oauth2.Token], with the
    fields [oauth2Client] fills. *)
Record oauth2_Endpoint := mkEndpoint {
  AuthURL : EndpointURL;
  TokenURL : EndpointURL
}.

Record oauth2_Config := mkConfig {
  ClientID : string;
  Scopes : list Scope;
  Endpoint : oauth2_Endpoint
}.

Record oauth2_Token := mkToken {
  AccessToken : string;
  RefreshToken : string
}.

(** The client [conf.Client(ctx, tok)] returns, kept as the
    configuration and the token it is made from. *)
Record http_Client := mkClient {
  client_conf : oauth2_Config;
  client_tok : oauth2_Token
}.

(** [oauth2Client]; [creds] is [None] for a nil pointer, [inl] carries
    the error. *)
Definition oauth2Client (creds : option Oauth2) : string + http_Client :=
  match creds with
  | None => inl "oauth2 credentials are required"
  | Some creds =>
      if String.eqb (GetClientId creds) ""
         || String.eqb (GetRefreshToken creds) ""
         || String.eqb (GetAccessToken creds) ""
      then inl "oauth2 credentials are incomplete, client_id, refresh_token, and access_token are required"
      else
        let conf := mkConfig (GetClientId creds) [ScopeReadOnly]
                             (mkEndpoint Google_AuthURL Google_TokenURL) in
        let tok := mkToken (GetAccessToken creds) (GetRefreshToken creds) in
        inr (mkClient conf tok)
  end.

(** Modelled from the spec: the credential of a connection, the oneof
    [conn.Credential] of [sourcespb.GCS], declared outside the sources at
    hand: the six variants the switch of [configureGCSManager] names, each
    with what its getter returns, and any other dynamic type, kept as its
    name. *)
Inductive GCS_Credential :=
| GCS_ApiKey (GetApiKey : string)
| GCS_ServiceAccountFile (GetServiceAccountFile : string)
| GCS_JsonServiceAccount (GetJsonServiceAccount : string)
| GCS_Adc
| GCS_Unauthenticated
| GCS_Oauth (GetOauth : option Oauth2)
| GCS_OtherCredential (ty : string).

(** Modelled from the spec: [sourcespb.GCS], declared outside the
    sources at hand, with the fields [configureGCSManager] reads;
    [Credential] is [None] for a nil interface. *)
Record sourcespb_GCS := mkConn {
  Credential : option GCS_Credential;
  ProjectId : string;
  MaxObjectSize : Z;
  GetIncludeBuckets : list string;
  GetExcludeBuckets : list string;
  GetIncludeObjects : list string;
  GetExcludeObjects : list string
}.

(** Modelled from the spec: a [gcsManagerOption] is built by functions
    declared outside the sources at hand; an option is kept as the call
    that builds it. *)
Inductive gcsManagerOption :=
| withAPIKey (apiKey : string)
| withJSONServiceAccount (b : list Byte.byte)
| withDefaultADC
| withoutAuthentication
| withHTTPClient (client : http_Client)
| withConcurrency (concurrency : Z)
| withMaxObjectSize (size : Z)
| withIncludeBuckets (buckets : list string)
| withExcludeBuckets (buckets : list string)
| withIncludeObjects (objects : list string)
| withExcludeObjects (objects : list string).

(** [setGCSManagerOptions]; [None] is the nil option. *)
Definition setGCSManagerOptions (include exclude : list string)
    (includeFn excludeFn : list string -> gcsManagerOption)
  : option gcsManagerOption :=
  if (0 <? length include)%nat then Some (includeFn include)
  else if (0 <? length exclude)%nat then Some (excludeFn exclude)
  else None.

Definition setGCSManagerBucketOptions (conn : sourcespb_GCS)
  : option gcsManagerOption :=
  setGCSManagerOptions (GetIncludeBuckets conn) (GetExcludeBuckets conn)
                       withIncludeBuckets withExcludeBuckets.

Definition setGCSManagerObjectOptions (conn : sourcespb_GCS)
  : option gcsManagerOption :=
  setGCSManagerOptions (GetIncludeObjects conn) (GetExcludeObjects conn)
                       withIncludeObjects withExcludeObjects.

(** What the collaborators of the configuration answer: [os.ReadFile],
    [newGCSManager] and the manager's [attributes]; [inl] carries an
    error.  The manager itself is opaque. *)
Record Collaborators (gcsManager : Type) := mkCollaborators {
  os_ReadFile : string -> string + list Byte.byte;
  newGCSManager : string -> list gcsManagerOption -> string + gcsManager;
  m_attributes : gcsManager -> string + attributes
}.

Arguments os_ReadFile {gcsManager} _ _.
Arguments newGCSManager {gcsManager} _ _ _.
Arguments m_attributes {gcsManager} _ _.

(** The switch of [configureGCSManager] on the type of the credential:
    the authentication option, or the error the function returns. *)
Definition gcsManagerAuthOption {gcsManager : Type}
    (co : Collaborators gcsManager) (conn : sourcespb_GCS)
  : string + gcsManagerOption :=
  match Credential conn with
  | Some (GCS_ApiKey apiKey) => inr (withAPIKey apiKey)
  | Some (GCS_ServiceAccountFile file) =>
      match os_ReadFile co file with
      | inl err =>
          inl (wrap_error "error reading GCS JSON Service Account file" err)
      | inr b => inr (withJSONServiceAccount b)
      end
  | Some (GCS_JsonServiceAccount json) =>
      inr (withJSONServiceAccount (list_byte_of_string json))
  | Some GCS_Adc => inr withDefaultADC
  | Some GCS_Unauthenticated => inr withoutAuthentication
  | Some (GCS_Oauth creds) =>
      match oauth2Client creds with
      | inl err => inl (wrap_error "error creating oauth2 client" err)
      | inr client => inr (withHTTPClient client)
      end
  | Some (GCS_OtherCredential ty) =>
      inl ("unknown GCS authentication type: " +:+ ty)
  | None => inl "unknown GCS authentication type: <nil>"
  end.

(** The slice of options [configureGCSManager] hands to
    [newGCSManager]. *)
Definition gcsManagerOpts (conn : sourcespb_GCS) (concurrency : Z)
    (auth : gcsManagerOption) : list gcsManagerOption :=
  let opts :=
    [withConcurrency concurrency; withMaxObjectSize (MaxObjectSize conn); auth] in
  let opts :=
    match setGCSManagerBucketOptions conn with
    | Some o => (opts ++ [o])%list
    | None => opts
    end in
  match setGCSManagerObjectOptions conn with
  | Some o => (opts ++ [o])%list
  | None => opts
  end.

(** [configureGCSManager]; [conn] is [None] for a nil pointer. *)
Definition configureGCSManager {gcsManager : Type}
    (co : Collaborators gcsManager) (conn : option sourcespb_GCS)
    (concurrency : Z) : string + gcsManager :=
  match conn with
  | None => inl "GCS connection is nil, cannot configure GCS manager"
  | Some conn =>
      match gcsManagerAuthOption co conn with
      | inl err => inl err
      | inr auth =>
          match newGCSManager co (ProjectId conn)
                              (gcsManagerOpts conn concurrency auth) with
          | inl err => inl (wrap_error "error creating GCS manager" err)
          | inr m => inr m
          end
      end
  end.

(** The fields of [Source] that [Init] and [enumerate] write, as they
    find them: the manager and the statistics are [None] while nil. *)
Record Fields (gcsManager : Type) := mkFields {
  f_name : string;
  f_jobId : Z;
  f_sourceId : Z;
  f_concurrency : Z;
  f_verify : bool;
  f_gcsManager : option gcsManager;
  f_stats : option attributes
}.

Arguments mkFields {gcsManager} _ _ _ _ _ _ _.
Arguments f_name {gcsManager} _.
Arguments f_jobId {gcsManager} _.
Arguments f_sourceId {gcsManager} _.
Arguments f_concurrency {gcsManager} _.
Arguments f_verify {gcsManager} _.
Arguments f_gcsManager {gcsManager} _.
Arguments f_stats {gcsManager} _.

(** [SourceID] and [JobID]. *)
Definition SourceID_ {gcsManager : Type} (s : Fields gcsManager) : Z :=
  f_sourceId s.

Definition JobID {gcsManager : Type} (s : Fields gcsManager) : Z := f_jobId s.

(** The source as [Chunks] reads it; nothing while the statistics are
    nil, which [setProgress] and [completeProgress] dereference. *)
Definition Source_of {gcsManager : Type} (s : Fields gcsManager)
  : option Source :=
  match f_stats s with
  | Some st =>
      Some (mkSource (f_name s) (f_jobId s) (f_sourceId s) (f_concurrency s)
                     (f_verify s) st)
  | None => None
  end.

(** [enumerate]: the fields after the call and the error returned;
    [None] is the run-time panic of a call on a nil manager. *)
Definition enumerate {gcsManager : Type} (co : Collaborators gcsManager)
    (s : Fields gcsManager) : option (Fields gcsManager * option string) :=
  match f_gcsManager s with
  | None => None
  | Some m =>
      match m_attributes co m with
      | inl err =>
          Some (s, Some (wrap_error "error getting attributes during enumeration"
                                    err))
      | inr stats =>
          Some (mkFields (f_name s) (f_jobId s) (f_sourceId s) (f_concurrency s)
                         (f_verify s) (f_gcsManager s) (Some stats),
                None)
      end
  end.

(** [Init]: the fields after the call and the error returned.
    [connection] is what [anypb.UnmarshalTo] makes of the connection
    message: the decoded [sourcespb.GCS], or its error. *)
Definition Init {gcsManager : Type} (co : Collaborators gcsManager)
    (s : Fields gcsManager) (name : string) (id sourceID : Z) (verify : bool)
    (connection : string + sourcespb_GCS) (concurrency : Z)
  : option (Fields gcsManager * option string) :=
  let s := mkFields name id sourceID concurrency verify
                    (f_gcsManager s) (f_stats s) in
  match connection with
  | inl err => Some (s, Some (wrap_error "error unmarshalling connection" err))
  | inr conn =>
      match configureGCSManager co (Some conn) concurrency with
      | inl err => Some (s, Some err)
      | inr gcsManager_ =>
          let s := mkFields (f_name s) (f_jobId s) (f_sourceId s)
                            (f_concurrency s) (f_verify s)
                            (Some gcsManager_) (f_stats s) in
          match enumerate co s with
          | None => None
          | Some (s, Some err) =>
              Some (s, Some (wrap_error "error enumerating buckets and objects"
                                        err))
          | Some (s, None) => Some (s, None)
          end
      end
  end.

(** ** Notions used in the statements about runs *)

(** The goroutine is between [s.mu.Lock()] and the deferred [Unlock]. *)
Definition holds_mu (pc : TaskPC) : bool :=
  match pc with
  | TIncrement | TCacheSet | TRemaining | TPercent | TUnlock => true
  | _ => false
  end.

(** The goroutine has not yet called [wg.Done()]. *)
Definition live (pc : TaskPC) : bool :=
  match pc with
  | TExited _ => false
  | _ => true
  end.

(** The goroutine has executed [s.SectionsCompleted++]. *)
Definition counted (pc : TaskPC) : bool :=
  match pc with
  | TCacheSet | TRemaining | TPercent | TUnlock
  | TDeferred None | TExited None => true
  | _ => false
  end.

(** The goroutine has executed [cache.Set(objName, objName)]. *)
Definition marked (pc : TaskPC) : bool :=
  match pc with
  | TRemaining | TPercent | TUnlock | TDeferred None | TExited None => true
  | _ => false
  end.

(** [processObject] returned an error to the goroutine. *)
Definition failed (pc : TaskPC) : bool :=
  match pc with
  | TDeferred (Some _) | TExited (Some _) => true
  | _ => false
  end.

Fixpoint count_pc (f : TaskPC -> bool) (ts : list Task) : nat :=
  match ts with
  | [] => 0%nat
  | t :: rest => ((if f (t_pc t) then 1 else 0) + count_pc f rest)%nat
  end.

(** Shape of the states of a run: the mutex is held by exactly the
    goroutines inside [setProgress] (so by at most one), the wait group
    counts the goroutines that have not finished, the loop is left only
    once [objectCh] is exhausted, [Chunks] returns only at counter zero,
    and the persist increment is not zero. *)
Definition wf (st : State) : Prop :=
  count_pc holds_mu (s_tasks st) = (if s_mu st then 1 else 0)%nat
  /\ s_wg st = Z.of_nat (count_pc live (s_tasks st))
  /\ (s_control st <> CRange -> s_objectCh st = [])
  /\ (s_control st = CReturned -> s_wg st = 0)
  /\ persistIncrement (s_cache st) <> 0.

(** The event is a step of the [i]-th goroutine inside [setProgress]. *)
Definition progress_event (i : nat) (ev : Event) : Prop :=
  match ev with
  | EvLock j _ | EvIncrement j _ | EvCacheSet j _
  | EvRemaining j _ | EvPercent j _ | EvUnlock j _ => j = i
  | _ => False
  end.

(** The event starts or continues the processing of an object named
    [k]: its goroutine is started or takes a step. *)
Definition works_on (k : string) (ev : Event) : Prop :=
  match ev with
  | EvSpawn o
  | EvProcessed _ o _ _ | EvSelect _ o _ _
  | EvLock _ o | EvIncrement _ o | EvCacheSet _ o
  | EvRemaining _ o | EvPercent _ o | EvUnlock _ o | EvWgDone _ o _ =>
      name o = k
  | _ => False
  end.

(** The chunks a step puts on the output channel. *)
Definition chunks_of (ev : Event) : list Chunk :=
  match ev with
  | EvProcessed _ _ emitted _ => emitted
  | EvSelect _ _ chunk sel => fst (processObject_select chunk sel)
  | _ => []
  end.

(** The element was taken from [objectCh]. *)
Definition dequeues (ev : Event) : bool :=
  match ev with
  | EvUnexpectedType _ | EvSkip _ | EvSpawn _ => true
  | _ => false
  end.

Definition spawns (ev : Event) : bool :=
  match ev with
  | EvSpawn _ => true
  | _ => false
  end.

(** The counters agree with what [setProgress] computes from the
    current [SectionsCompleted] and the enumerated total. *)
Definition consistent (s : Source) (p : Progress) : Prop :=
  SectionsRemaining p = wrap32 (Z.of_N (numObjects (stats s)))
  /\ match percent_of (SectionsCompleted p) (Z.of_N (numObjects (stats s))) with
     | Some v => PercentComplete p = v
     | None => in_int64 (PercentComplete p) = true
     end.

(** The counters of [p] are those of [q]. *)
Definition same_counters (p q : Progress) : Prop :=
  SectionsCompleted p = SectionsCompleted q
  /\ SectionsRemaining p = SectionsRemaining q
  /\ PercentComplete p = PercentComplete q.

(** The statements of [setProgress] from one program point to a later
    one, on the shared progress and cache. *)
Inductive crit_path (s : Source) (objName : string)
  : TaskPC -> Progress -> persistableCache
    -> TaskPC -> Progress -> persistableCache -> Prop :=
| crit_here pc p c : crit_path s objName pc p c pc p c
| crit_increment p c pc' p' c' :
    crit_path s objName TCacheSet (sp_increment p) c pc' p' c' ->
    crit_path s objName TIncrement p c pc' p' c'
| crit_cacheSet ord p c p1 c1 pc' p' c' :
    is_range_order ord ->
    persistableCache_Set ord c p objName objName = Some (c1, p1) ->
    crit_path s objName TRemaining p1 c1 pc' p' c' ->
    crit_path s objName TCacheSet p c pc' p' c'
| crit_remaining p c pc' p' c' :
    crit_path s objName TPercent (sp_remaining s p) c pc' p' c' ->
    crit_path s objName TRemaining p c pc' p' c'
| crit_percent undef p c pc' p' c' :
    in_int64 undef = true ->
    crit_path s objName TUnlock (sp_percent undef s p) c pc' p' c' ->
    crit_path s objName TPercent p c pc' p' c'.

(** The goroutine has left its body: only [wg.Done()] is left, or
    nothing. *)
Definition left_body (pc : TaskPC) : bool :=
  match pc with
  | TDeferred _ | TExited _ => true
  | _ => false
  end.

(** What is known of the counters along a run started with the progress
    [p0]: while the mutex is free they are those of [p0] or agree with
    each other; a goroutine that has stored [SectionsRemaining] or
    [PercentComplete] finds them as stored until it unlocks. *)
Definition counters_inv (p0 : Progress) (st : State) : Prop :=
  (s_mu st = false ->
   same_counters (s_progress st) p0 \/ consistent (s_src st) (s_progress st))
  /\ (forall i o, s_tasks st !! i = Some (mkTask o TPercent) ->
        SectionsRemaining (s_progress st)
        = wrap32 (Z.of_N (numObjects (stats (s_src st)))))
  /\ (forall i o, s_tasks st !! i = Some (mkTask o TUnlock) ->
        consistent (s_src st) (s_progress st)).

Definition count_events (f : Event -> bool) (tr : list Event) : nat :=
  length (List.filter f tr).

Definition skips (ev : Event) : bool :=
  match ev with
  | EvSkip _ => true
  | _ => false
  end.

(** The goroutine has not entered [setProgress] and, if it has left its
    body, has left it with an error. *)
Definition untouched (pc : TaskPC) : bool :=
  match pc with
  | TProcess | TSelect _ | TLock | TDeferred (Some _) | TExited (Some _) => true
  | _ => false
  end.

Definition untouched_at (st : State) (i : nat) : bool :=
  match s_tasks st !! i with
  | Some t => untouched (t_pc t)
  | None => true
  end.

(** The event is the failure of the [i]-th goroutine: [processObject]
    returns an error to it, or it exits with that error. *)
Definition failure_event (i : nat) (ev : Event) : Prop :=
  match ev with
  | EvProcessed j _ _ (Returned (Some _)) => j = i
  | EvSelect j _ _ (CtxDone _) => j = i
  | EvWgDone j _ (Some _) => j = i
  | _ => False
  end.

(** The error [processObject] returns to the [i]-th goroutine in the
    step it takes with the answers [env], when it returns one: from
    [readObjectData], or from the [select] that takes the cancellation. *)
Definition processObject_error (st : State) (i : nat) (env : Env)
  : option string :=
  match s_tasks st !! i with
  | Some (mkTask o TProcess) =>
      match snd (processObject_begin (s_src st) o (e_io env)) with
      | Returned err => err
      | Selecting _ => None
      end
  | Some (mkTask _ (TSelect chunk)) =>
      match select_case (s_ctx st) (s_ready st) (e_send env) with
      | Some sel => snd (processObject_select chunk sel)
      | None => None
      end
  | _ => None
  end.

(** A collaborator of [readObjectData] fails: the reader cannot be
    created, or the handler declines and the rewind or the full read
    fails. *)
Definition read_fails (io : ObjectIO) : Prop :=
  io_New io <> None
  \/ (io_New io = None /\ snd (io_HandleFile io) = false
      /\ (io_Reset io <> None \/ snd (io_ReadAll io) <> None)).

(** The names of the listed objects are free of the delimiter. *)
Definition delimiter_free (it : item) : Prop :=
  match it with
  | ItemObject o => strings.free_of comma (name o) = true
  | ItemOther _ => True
  end.

(** What a run keeps of the delimiter-free names: the names still to
    come, those of the goroutines and the keys of the cache are free of
    the delimiter, and a key of the cache rebuilt from the resume
    information is a key of the cache. *)
Definition resume_inv (st : State) : Prop :=
  Forall delimiter_free (s_objectCh st)
  /\ Forall (fun t => strings.free_of comma (name (t_obj t)) = true) (s_tasks st)
  /\ (forall k, memory.Exists (Cache (s_cache st)) k = true ->
                strings.free_of comma k = true)
  /\ (forall k, memory.Exists (Cache (setupCache (s_progress st))) k = true ->
                memory.Exists (Cache (s_cache st)) k = true).

(** The keys of the cache are those it started with and the names of
    the goroutines that have called [cache.Set]. *)
Definition marked_inv (p0 : Progress) (st : State) : Prop :=
  forall k,
    memory.Exists (Cache (s_cache st)) k = true ->
    memory.Exists (Cache (setupCache p0)) k = true
    \/ exists i o pc,
         s_tasks st !! i = Some (mkTask o pc) /\ name o = k /\ marked pc = true.

(** The names in the cache a run starts with stay in its cache, and no
    goroutine is started for an object of such a name. *)
Definition unseen_inv (p0 : Progress) (st : State) : Prop :=
  (forall k, memory.Exists (Cache (setupCache p0)) k = true ->
             memory.Exists (Cache (s_cache st)) k = true)
  /\ forall i o pc, s_tasks st !! i = Some (mkTask o pc) ->
                    memory.Exists (Cache (setupCache p0)) (name o) = false.

(** The reader is created, the handler declines, and the rewind and
    the full read succeed. *)
Definition raw_read_ok (io : ObjectIO) : Prop :=
  io_New io = None /\ snd (io_HandleFile io) = false
  /\ io_Reset io = None /\ snd (io_ReadAll io) = None.

(** The chunk [processObject] builds from the content read back. *)
Definition raw_chunk (s : Source) (o : object) (io : ObjectIO) : Chunk :=
  set_Data (chunkSkel s o) (Some (fst (io_ReadAll io))).

(** [processObject] puts its raw chunk on the channel, after whatever
    the handler has put there. *)
Definition sends_raw (s : Source) (o : object) (io : ObjectIO) (sel : Selected)
  : Prop :=
  fst (processObject s o io sel)
  = (fst (io_HandleFile io) ++ [raw_chunk s o io])%list.

Definition cancels (ev : Event) : bool :=
  match ev with
  | EvCancel _ => true
  | _ => false
  end.

Definition completes_send (ev : Event) : bool :=
  match ev with
  | EvSelect _ _ _ ChunkSent => true
  | _ => false
  end.

(** The least integer not below the value a shifted mantissa stands
    for: the mantissa, plus one when bits have been shifted out. *)
Definition ceil_m (mrs : shr_record) : Z :=
  shr_m mrs + (if shr_r mrs || shr_s mrs then 1 else 0).

(** The value of the mantissa [mrs] at exponent [e] is at most
    [b * 2 ^ eb], a number that can be written at exponent [e]. *)
Definition under (b eb : Z) (mrs : shr_record) (e : Z) : Prop :=
  0 <= shr_m mrs /\ e <= eb /\ ceil_m mrs <= b * 2 ^ (eb - e).

(** The exact value [N / D * 2 ^ E] lies strictly between the mantissa
    below the represented one and the mantissa above it, at exponent
    [e]. *)
Definition near (N D E : Z) (mrs : shr_record) (e : Z) : Prop :=
  E <= e
  /\ N < D * (shr_m mrs + 1) * 2 ^ (e - E)
  /\ D * (ceil_m mrs - 1) * 2 ^ (e - E) < N.

(** ** Sample inputs and schedules *)

Definition progress0 : Progress := mkProgress 0 "" "" 0 0.

Definition sample_object (n : string) : object :=
  mkObject n "bucket" "text/plain" "owner@example.com"
           ("https://storage.example/bucket/" +:+ n) []
           1700000000 "2023-11-14 22:13:20 +0000 UTC".

Definition sample_source (total : N) : Source :=
  mkSource "gcs" 1 2 8 true (mkAttributes total).

(** The handler declines and the content is read back in full. *)
Definition io_raw (data : list Byte.byte) : ObjectIO :=
  mkObjectIO None ([], false) None (data, None).

(** The handler takes the object and emits [emitted]. *)
Definition io_handled (emitted : list Chunk) : ObjectIO :=
  mkObjectIO None (emitted, true) None ([], None).

(** [diskbufferreader.New] fails. *)
Definition io_no_reader : ObjectIO :=
  mkObjectIO (Some "no space left on device") ([], false) None ([], None).

(** The [i]-th goroutine takes a step; maps are ranged over in their
    stored order. *)
Definition task (i : nat) (io : ObjectIO) (send : bool) : Choice :=
  RunTask i (mkEnv io send id 0).

(** The [i]-th goroutine runs from start to end without cancellation. *)
Definition whole_task (i : nat) (io : ObjectIO) : list Choice :=
  repeat (task i io true) 9.

(** Events and final state of a schedule (nothing if it cannot be
    played). *)
Definition outcome (st : State) (chs : list Choice) : list Event * State :=
  match run st chs with
  | Some r => r
  | None => ([], st)
  end.

Definition playable (st : State) (chs : list Choice) : bool :=
  match run st chs with
  | Some _ => true
  | None => false
  end.

(** Two objects, the first goroutine stopped inside [setProgress]. *)
Definition run_inside : State * list Choice :=
  (Chunks_begin (sample_source 2) progress0 None true
                [ItemObject (sample_object "a"); ItemObject (sample_object "b")],
   [RunControl; RunControl;
    task 0 (io_raw [Byte.x68; Byte.x69]) true;
    task 0 (io_raw []) true;
    task 0 (io_raw []) true;
    task 0 (io_raw []) true]).

(** The enumeration reported one object, the listing yields two; both
    are processed to the end. *)
Definition run_over_total : State * list Choice :=
  (Chunks_begin (sample_source 1) progress0 None true
                [ItemObject (sample_object "a"); ItemObject (sample_object "b")],
   ([RunControl; RunControl; RunControl]
    ++ whole_task 0 (io_raw [Byte.x68; Byte.x69])
    ++ whole_task 1 (io_raw [])
    ++ [RunControl])%list).

(** Twenty-eight of a hundred objects done, the next one completes. *)
Definition progress28 : Progress := mkProgress 28 "" "" 28 100.

(** A listing with an element of another type between two objects, the
    first of them already in the resumed cache. *)
Definition run_resumed : State * list Choice :=
  (Chunks_begin (sample_source 3) (set_EncodedResumeInfo progress0 "a,c") None true
                [ItemObject (sample_object "a"); ItemOther "int";
                 ItemObject (sample_object "b")],
   [RunControl; RunControl; RunControl]).

(** A resumed run over two enumerated objects, the first of them done
    in the earlier run; the second is processed and [Chunks] returns. *)
Definition run_resumed_to_end : State * list Choice :=
  (Chunks_begin (sample_source 2) (set_EncodedResumeInfo progress0 "a") None true
                [ItemObject (sample_object "a"); ItemObject (sample_object "b")],
   ([RunControl; RunControl; RunControl]
    ++ whole_task 0 (io_raw [Byte.x68; Byte.x69])
    ++ [RunControl])%list).

(** Two objects; the reader of the first cannot be created, the second
    is processed to the end. *)
Definition run_one_fails : State * list Choice :=
  (Chunks_begin (sample_source 2) progress0 None true
                [ItemObject (sample_object "d"); ItemObject (sample_object "e")],
   ([RunControl; RunControl; RunControl;
     task 0 io_no_reader true; task 0 io_no_reader true]
    ++ whole_task 1 (io_raw [Byte.x68; Byte.x69])
    ++ [RunControl])%list).

(** Two objects and a consumer that is receiving; the run is cancelled
    when the first goroutine has built its chunk and is about to run its
    [select]; both cases of the [select] are then ready, the send is the
    one taken, and the loop starts the second goroutine. *)
Definition run_cancelled : State * list Choice :=
  (Chunks_begin (sample_source 2) progress0 None true
                [ItemObject (sample_object "a"); ItemObject (sample_object "b")],
   [RunControl;
    task 0 (io_raw [Byte.x68; Byte.x69]) true;
    Cancel "context canceled";
    task 0 (io_raw []) true;
    RunControl]).

(** The [n]-th of the names a run has resumed from: two characters from
    ['0'] on, none of them the delimiter. *)
Definition resumed_name (n : nat) : string :=
  String (ascii_of_nat (48 + n / 50)%nat)
         (String (ascii_of_nat (48 + n mod 50)%nat) EmptyString).

(** Resume information that holds the first [n] of these names. *)
Definition resumed (n : nat) : string :=
  strings.Join (map resumed_name (seq 0 n)) comma.

(** A run resumed from one name short of the persist increment, over
    two objects, the name of the second holding the delimiter.  The
    reader of the first cannot be created; the second is processed to the
    end, and its [cache.Set] publishes the snapshot. *)
Definition run_delimiter : State * list Choice :=
  (Chunks_begin (sample_source 2)
                (set_EncodedResumeInfo progress0 (resumed 2499)) None true
                [ItemObject (sample_object "a"); ItemObject (sample_object "a,b")],
   ([RunControl; RunControl; RunControl;
     task 0 io_no_reader true; task 0 io_no_reader true]
    ++ whole_task 1 (io_raw [Byte.x68; Byte.x69])
    ++ [RunControl])%list).

(** A run resumed from one name short of the persist increment, over
    a listing that yields the same object twice.  Both goroutines are
    started before either runs; the reader of the first cannot be
    created; the second is processed to the end, and its [cache.Set]
    publishes the snapshot. *)
Definition run_namesake : State * list Choice :=
  (Chunks_begin (sample_source 2)
                (set_EncodedResumeInfo progress0 (resumed 2499)) None true
                [ItemObject (sample_object "a"); ItemObject (sample_object "a")],
   ([RunControl; RunControl; RunControl;
     task 0 io_no_reader true; task 0 io_no_reader true]
    ++ whole_task 1 (io_raw [Byte.x68; Byte.x69])
    ++ [RunControl])%list).

(** One object, cancelled while its goroutine waits in the [select] of
    a consumer that is not receiving. *)
Definition run_aborted : State * list Choice :=
  (Chunks_begin (sample_source 1) progress0 None false
                [ItemObject (sample_object "a")],
   [RunControl;
    task 0 (io_raw [Byte.x68; Byte.x69]) true;
    Cancel "context canceled"]).

(** [setProgress] for each name in turn, on a cache with the given
    persist increment; the resume information after each call. *)
Fixpoint setProgress_each (s : Source) (names : list string)
    (p : Progress) (c : persistableCache) : option (list string * Progress) :=
  match names with
  | [] => Some ([], p)
  | n :: rest =>
      match setProgress id 0 s n p c with
      | None => None
      | Some (p1, c1) =>
          match setProgress_each s rest p1 c1 with
          | None => None
          | Some (snaps, p2) => Some (EncodedResumeInfo p1 :: snaps, p2)
          end
      end
  end.

(** ** Notions used in the statements about scheduling *)

(** The step is one of the program, loop or goroutine, and not one of
    its environment (cancellation, consumer). *)
Definition program_event (ev : Event) : bool :=
  match ev with
  | EvCancel _ | EvReady _ => false
  | _ => true
  end.

Definition program_choice (ch : Choice) : bool :=
  match ch with
  | RunControl | RunTask _ _ => true
  | Cancel _ | Ready _ => false
  end.

(** The steps a goroutine has at most left. *)
Definition steps_left (pc : TaskPC) : nat :=
  match pc with
  | TProcess => 9
  | TSelect _ => 8
  | TLock => 7
  | TIncrement => 6
  | TCacheSet => 5
  | TRemaining => 4
  | TPercent => 3
  | TUnlock => 2
  | TDeferred _ => 1
  | TExited _ => 0
  end.

Fixpoint tasks_left (ts : list Task) : nat :=
  match ts with
  | [] => 0
  | t :: rest => steps_left (t_pc t) + tasks_left rest
  end.

(** The program steps a run has at most left: ten for each element
    still to be received (one to take it, nine for its goroutine), those
    of the goroutines, and the two that end [Chunks]. *)
Definition work (st : State) : nat :=
  10 * length (s_objectCh st) + tasks_left (s_tasks st)
  + match s_control st with CRange => 2 | CWait => 1 | CReturned => 0 end.

(** The goroutine has its next step in the state, whatever its
    collaborators answer: a send on [chunksCh] can proceed for the
    handler's, the mutex is free for a [Lock], a case of the [select] is
    ready. *)
Definition can_run (st : State) (pc : TaskPC) : bool :=
  match pc with
  | TProcess => s_ready st
  | TSelect _ =>
      s_ready st || match s_ctx st with Some _ => true | None => false end
  | TLock => negb (s_mu st)
  | TExited _ => false
  | _ => true
  end.

(** The consumer, which is not receiving, may hold the goroutine: it is
    inside [processObject] before the [select], where the handler sends on
    [chunksCh], or it waits in its [select] and the context is not
    cancelled. *)
Definition waits_for_consumer (st : State) (pc : TaskPC) : bool :=
  match pc with
  | TProcess => negb (s_ready st)
  | TSelect _ =>
      negb (s_ready st)
      && match s_ctx st with Some _ => false | None => true end
  | _ => false
  end.

(** The [i]-th goroutine has a step whatever the reader, the handler,
    the range order and the open conversion answer, its [select] taking a
    case that is ready. *)
Definition goes_on (st : State) (i : nat) : Prop :=
  forall io ord undef,
    is_range_order ord -> in_int64 undef = true ->
    exists send ev st',
      fire st (RunTask i (mkEnv io send ord undef)) = Some (ev, st').

(** Nothing holds the goroutines: the consumer is receiving; or the
    context is cancelled, no element is left to come and no goroutine
    has still to run its reader and handler. *)
Definition unheld (st : State) : Prop :=
  s_ready st = true
  \/ (s_ctx st <> None /\ s_objectCh st = []
      /\ Forall (fun t => t_pc t <> TProcess) (s_tasks st)).

(** [Chunks] returns from the state within [n] steps of the loop and
    the goroutines, whichever of them are taken and whatever the reader,
    the handler, the range order and the open conversions answer: as long
    as it has not returned, the loop has a step or some goroutine has one
    whatever the answers, and every step of the program leads to a state
    from which [Chunks] returns within one step less. *)
Fixpoint returns_within (n : nat) (st : State) : Prop :=
  s_control st = CReturned
  \/ match n with
     | O => False
     | S m =>
         ((exists ev st', fire st RunControl = Some (ev, st'))
          \/ exists i, goes_on st i)
         /\ forall ch ev st',
              program_choice ch = true -> valid_choice ch ->
              fire st ch = Some (ev, st') -> returns_within m st'
     end.

(** The next program point of a goroutine. *)
Definition pc_next (pc pc' : TaskPC) : Prop :=
  match pc with
  | TProcess =>
      pc' = TLock \/ (exists e, pc' = TDeferred (Some e))
      \/ exists chunk, pc' = TSelect chunk
  | TSelect _ => pc' = TLock \/ exists e, pc' = TDeferred (Some e)
  | TLock => pc' = TIncrement
  | TIncrement => pc' = TCacheSet
  | TCacheSet => pc' = TRemaining
  | TRemaining => pc' = TPercent
  | TPercent => pc' = TUnlock
  | TUnlock => pc' = TDeferred None
  | TDeferred e => pc' = TExited e
  | TExited _ => False
  end.

(** ** Notions used in the statements about accounting and emission *)

(** Every listed object is still to be received, or its name is in the
    cache, or a goroutine was started for it. *)
Definition accounted (objs : list item) (st : State) : Prop :=
  forall o,
    ItemObject o ∈ objs ->
    ItemObject o ∈ s_objectCh st
    \/ memory.Exists (Cache (s_cache st)) (name o) = true
    \/ exists i pc, s_tasks st !! i = Some (mkTask o pc).

(** The name of a goroutine that has called [cache.Set] is in the
    cache. *)
Definition marked_in (st : State) : Prop :=
  forall i o pc,
    s_tasks st !! i = Some (mkTask o pc) -> marked pc = true ->
    memory.Exists (Cache (s_cache st)) (name o) = true.

(** The elements to come and the objects of the goroutines are listed
    ones. *)
Definition from_listing (objs : list item) (st : State) : Prop :=
  Forall (fun it => it ∈ objs) (s_objectCh st)
  /\ forall i o pc, s_tasks st !! i = Some (mkTask o pc) -> ItemObject o ∈ objs.

(** [processObject] has returned nil to the goroutine. *)
Definition succeeded (pc : TaskPC) : bool :=
  match pc with
  | TLock | TIncrement | TCacheSet | TRemaining | TPercent | TUnlock
  | TDeferred None | TExited None => true
  | _ => false
  end.

(** The event is the [i]-th goroutine's send of its chunk. *)
Definition sends_of (i : nat) (ev : Event) : bool :=
  match ev with
  | EvSelect j _ _ ChunkSent => Nat.eqb j i
  | _ => false
  end.

(** The handler took the object of the [i]-th goroutine: [readObjectData]
    returned no data and no error. *)
Definition handled_in (i : nat) (o : object) (tr : list Event) : Prop :=
  exists emitted, EvProcessed i o emitted (Returned None) ∈ tr.

(** The [i]-th goroutine sent the chunk of its object [o], with the
    content [d] read back. *)
Definition raw_sent_in (s : Source) (i : nat) (o : object) (d : list Byte.byte)
    (tr : list Event) : Prop :=
  EvSelect i o (set_Data (chunkSkel s o) (Some d)) ChunkSent ∈ tr.

(** What the events of a run tell of its goroutines: a goroutine in its
    [select] holds the chunk of its object; one to which [processObject]
    returned nil has had its object handled or its chunk sent; one to
    which it has not, or no goroutine at all, has sent nothing. *)
Definition emission_inv (s : Source) (tr : list Event) (st : State) : Prop :=
  (forall i o pc,
      s_tasks st !! i = Some (mkTask o pc) ->
      (forall chunk, pc = TSelect chunk ->
                     exists d, chunk = set_Data (chunkSkel s o) (Some d))
      /\ (succeeded pc = true ->
          handled_in i o tr \/ exists d, raw_sent_in s i o d tr))
  /\ (forall i,
        match s_tasks st !! i with
        | Some t => succeeded (t_pc t) = false
        | None => True
        end ->
        Forall (fun ev => sends_of i ev = false) tr).

(** ** Notions used in the statements about the snapshot *)

(** What a run keeps of the snapshot: the persist increment is the
    default one, and the cache rebuilt from the resume information has at
    least as many keys as the last multiple of the increment below the
    number of keys of the cache. *)
Definition lag_inv (st : State) : Prop :=
  persistIncrement (s_cache st) = defaultCachePersistIncrement
  /\ defaultCachePersistIncrement
     * (memory.Count (Cache (s_cache st)) / defaultCachePersistIncrement)
     <= memory.Count (Cache (setupCache (s_progress st))).

(** The resume information is the one the run started with, or the
    rendering of a cache whose number of keys is a positive multiple of
    the default persist increment and whose keys are in the current
    cache. *)
Definition published (p0 : Progress) (st : State) : Prop :=
  EncodedResumeInfo (s_progress st) = EncodedResumeInfo p0
  \/ exists ord c,
       is_range_order ord
       /\ EncodedResumeInfo (s_progress st) = memory.Contents ord c
       /\ (defaultCachePersistIncrement | memory.Count c)
       /\ 1 <= memory.Count c
       /\ forall k, memory.Exists c k = true ->
                    memory.Exists (Cache (s_cache st)) k = true.

(** * Properties *)

Local Open Scope list_scope.

(** ** Splitting and joining *)

Section split_join.

Variable sep : ascii.

Lemma Split_nonempty (s : string) : strings.Split s sep <> [].
Proof.
  destruct s as [|ch rest]; simpl; [discriminate|].
  destruct (Ascii.eqb ch sep); [discriminate|].
  destruct (strings.Split rest sep); discriminate.
Qed.

Lemma Split_free (s : string) :
  strings.free_of sep s = true -> strings.Split s sep = [s].
Proof.
  induction s as [|ch rest IH]; simpl; [reflexivity|].
  intros [Hch Hrest]%andb_prop.
  apply negb_true_iff in Hch. rewrite Hch, (IH Hrest). reflexivity.
Qed.

Lemma Split_append (s t : string) :
  strings.free_of sep s = true ->
  strings.Split (String.append s (String sep t)) sep = s :: strings.Split t sep.
Proof.
  induction s as [|ch rest IH]; simpl.
  - intros _. rewrite Ascii.eqb_refl. reflexivity.
  - intros [Hch Hrest]%andb_prop.
    apply negb_true_iff in Hch. rewrite Hch, (IH Hrest). reflexivity.
Qed.

Lemma Split_Join (l : list string) :
  l <> [] ->
  Forall (fun e => strings.free_of sep e = true) l ->
  strings.Split (strings.Join l sep) sep = l.
Proof.
  induction l as [|e rest IH]; [congruence|].
  intros _ Hall. inversion Hall as [|? ? He Hrest]; subst.
  destruct rest as [|e' rest'].
  - simpl. apply Split_free, He.
  - change (strings.Join (e :: e' :: rest') sep)
      with (String.append e (String sep (strings.Join (e' :: rest') sep))).
    rewrite Split_append by exact He.
    f_equal. apply IH; [discriminate | exact Hrest].
Qed.

Lemma Join_empty (l : list string) :
  strings.Join l sep = EmptyString -> l = [] \/ l = [EmptyString].
Proof.
  destruct l as [|e [|e' rest]]; simpl; intros H.
  - left; reflexivity.
  - right; congruence.
  - destruct e; simpl in H; discriminate.
Qed.

End split_join.

(** ** The cache *)

Lemma Exists_true (c : memory.Cache) (k : string) :
  memory.Exists c k = true <-> is_Some (c !! k).
Proof.
  unfold memory.Exists. destruct (c !! k) eqn:E.
  - split; [eauto | reflexivity].
  - split; [discriminate | intros [? ?]; discriminate].
Qed.

Lemma Exists_Keys (c : memory.Cache) (k : string) :
  memory.Exists c k = true <-> k ∈ memory.Keys c.
Proof.
  rewrite Exists_true. unfold memory.Keys.
  rewrite list_elem_of_fmap. split.
  - intros [v Hv]. exists (k, v). split; [reflexivity|].
    apply elem_of_map_to_list, Hv.
  - intros [[k' v] [-> Hin]]. apply elem_of_map_to_list in Hin. eauto.
Qed.

Lemma Exists_Set (c : memory.Cache) (key val k : string) :
  memory.Exists (memory.Set_ c key val) k
  = (String.eqb key k || memory.Exists c k)%bool.
Proof.
  unfold memory.Exists, memory.Set_, memory.Cache in *.
  destruct (String.eqb_spec key k) as [->|Hne].
  - rewrite lookup_insert_eq. reflexivity.
  - rewrite lookup_insert_ne by exact Hne. reflexivity.
Qed.

Lemma Exists_New (k : string) : memory.Exists memory.New k = false.
Proof.
  unfold memory.Exists, memory.New, memory.Cache.
  rewrite lookup_empty. reflexivity.
Qed.

Lemma Exists_foldl (data : list string) (c : memory.Cache) (k : string) :
  memory.Exists (foldl (fun c d => memory.Set_ c d d) c data) k = true
  <-> k ∈ data \/ memory.Exists c k = true.
Proof.
  revert c. induction data as [|d rest IH]; intros c; simpl.
  - rewrite elem_of_nil. tauto.
  - rewrite IH, Exists_Set, elem_of_cons, orb_true_iff.
    rewrite String.eqb_eq. split; intros H; intuition (subst; auto).
Qed.

Lemma Exists_NewWithData (data : list string) (k : string) :
  memory.Exists (memory.NewWithData data) k = true <-> k ∈ data.
Proof.
  unfold memory.NewWithData. rewrite Exists_foldl, Exists_New.
  split; [intros [H|H]; [exact H | discriminate] | auto].
Qed.

(** ** Checkpoint cadence *)

(** C3 (checkpoint cadence).  For a persist increment [P] other than
    zero, [persistableCache.Set] inserts the key and then: when the key
    count after the insertion is a multiple of [P], the resume field of the
    shared progress becomes the rendering of all keys; at any other
    insertion the progress, the resume field included, is left as it
    was. *)
Theorem persistableCache_Set_cadence
    (ord : range_order) (c : persistableCache) (p : Progress) (key val : string) :
  persistIncrement c <> 0 ->
  exists c' p',
    persistableCache_Set ord c p key val = Some (c', p')
    /\ Cache c' = memory.Set_ (Cache c) key val
    /\ persistIncrement c' = persistIncrement c
    /\ ((persistIncrement c | memory.Count (Cache c')) ->
        p' = set_EncodedResumeInfo p (memory.Contents ord (Cache c')))
    /\ (~ (persistIncrement c | memory.Count (Cache c')) -> p' = p).
Proof.
  intros HP. unfold persistableCache_Set, shouldPersist. simpl.
  destruct (Z.eqb_spec (persistIncrement c) 0) as [E|_]; [contradiction|].
  set (n := memory.Count (memory.Set_ (Cache c) key val)).
  destruct (Z.eqb_spec (Z.rem n (persistIncrement c)) 0) as [E|E]; simpl.
  - eexists _, _. split; [reflexivity|]. simpl.
    repeat split; try reflexivity.
    intros Hnd. exfalso. apply Hnd. apply Z.rem_divide; assumption.
  - eexists _, _. split; [reflexivity|]. simpl.
    repeat split; try reflexivity.
    intros Hd. exfalso. apply E. apply Z.rem_divide; assumption.
Qed.

Lemma persistableCache_Set_cadence_witness :
  exists c' p',
    persistableCache_Set id (newPersistableCache 2 (memory.Set_ memory.New "a" "a"))
                         progress0 "b" "b" = Some (c', p')
    /\ EncodedResumeInfo p' = "a,b".
Proof.
  destruct (persistableCache_Set_cadence id
              (newPersistableCache 2 (memory.Set_ memory.New "a" "a"))
              progress0 "b" "b") as (c' & p' & Hset & Hc & _ & Hyes & _).
  - simpl. lia.
  - exists c', p'. split; [exact Hset|].
    rewrite Hyes.
    + rewrite Hc. vm_compute. reflexivity.
    + rewrite Hc. exists 1. vm_compute. reflexivity.
Defined.

(** ** Snapshot round trip *)

Lemma eq_bool_iff (a b : bool) : (a = true <-> b = true) -> a = b.
Proof. destruct a, b; intuition congruence. Qed.

Lemma range_order_elem (ord : range_order) (l : list string) (k : string) :
  is_range_order ord -> k ∈ ord l <-> k ∈ l.
Proof. intros Hord. rewrite (Hord l). reflexivity. Qed.

(** C5 (snapshot round trip), as the code has it.  When the keys are
    free of the delimiter and the cache is not the one that holds the empty
    key alone, the cache [setupCache] builds from the rendered key set
    answers [Exists] as the original does, for every key; and an empty
    snapshot string gives the empty cache. *)
Theorem snapshot_round_trip
    (ord : range_order) (c : memory.Cache) (p : Progress) :
  is_range_order ord ->
  (forall k, memory.Exists c k = true -> strings.free_of comma k = true) ->
  memory.Keys c <> [EmptyString] ->
  (forall k,
      memory.Exists
        (Cache (setupCache (set_EncodedResumeInfo p (memory.Contents ord c)))) k
      = memory.Exists c k)
  /\ Cache (setupCache (set_EncodedResumeInfo p EmptyString)) = memory.New.
Proof.
  intros Hord Hfree Hne. split; [|reflexivity].
  intros k. unfold setupCache. simpl.
  unfold memory.Contents.
  pose proof (Hord (memory.Keys c)) as Hperm.
  destruct (String.eqb_spec (strings.Join (ord (memory.Keys c)) comma) EmptyString)
    as [E|E]; simpl.
  - apply Join_empty in E as [E|E].
    + rewrite E in Hperm. apply Permutation_nil in Hperm.
      rewrite Exists_New. symmetry. apply not_true_is_false.
      rewrite Exists_Keys, Hperm. apply not_elem_of_nil.
    + rewrite E in Hperm. apply Permutation_length_1_inv in Hperm.
      contradiction.
  - rewrite Split_Join.
    + apply eq_bool_iff.
      rewrite Exists_NewWithData, Exists_Keys. apply range_order_elem, Hord.
    + intros E0. rewrite E0 in E. apply E. reflexivity.
    + apply Forall_forall. intros e He. apply Hfree, Exists_Keys.
      apply (range_order_elem ord); assumption.
Qed.

Lemma snapshot_round_trip_witness :
  memory.Exists
    (Cache (setupCache
              (set_EncodedResumeInfo progress0
                 (memory.Contents id (memory.NewWithData ["a"; "b"]))))) "b"
  = true.
Proof.
  rewrite (proj1 (snapshot_round_trip id (memory.NewWithData ["a"; "b"]) progress0
                    (fun l => Permutation_refl l)
                    ltac:(intros k; rewrite Exists_NewWithData;
                          intros Hk; repeat (apply elem_of_cons in Hk as [->|Hk];
                            [reflexivity|]); apply elem_of_nil in Hk; contradiction)
                    ltac:(vm_compute; discriminate))).
  vm_compute. reflexivity.
Defined.

(** C5 as stated fails at the cache holding the empty key alone: the key
    is free of the delimiter and was inserted, its rendering is the empty
    string, and the cache rebuilt from it no longer has the key. *)
Lemma snapshot_round_trip_loses_empty_key :
  let c := memory.Set_ memory.New EmptyString EmptyString in
  strings.free_of comma EmptyString = true
  /\ memory.Exists c EmptyString = true
  /\ memory.Contents id c = EmptyString
  /\ memory.Exists
       (Cache (setupCache (set_EncodedResumeInfo progress0 (memory.Contents id c))))
       EmptyString = false.
Proof. vm_compute. repeat split. Qed.

(** ** Steps of a run *)

Lemma count_pc_app (f : TaskPC -> bool) (a b : list Task) :
  count_pc f (a ++ b) = (count_pc f a + count_pc f b)%nat.
Proof. induction a as [|t a IH]; simpl; [reflexivity|]. rewrite IH. lia. Qed.

Lemma count_pc_insert (f : TaskPC -> bool) (ts : list Task) (i : nat) (t t' : Task) :
  ts !! i = Some t ->
  (count_pc f (<[i := t']> ts) + (if f (t_pc t) then 1 else 0)
   = count_pc f ts + (if f (t_pc t') then 1 else 0))%nat.
Proof.
  revert i. induction ts as [|x ts IH]; intros [|i] H; simpl in *;
    try discriminate.
  - injection H as ->. lia.
  - specialize (IH i H). lia.
Qed.

Lemma count_pc_le_length (f : TaskPC -> bool) (ts : list Task) :
  (count_pc f ts <= length ts)%nat.
Proof. induction ts as [|t ts IH]; simpl; [lia|]. destruct (f (t_pc t)); lia. Qed.

Lemma count_pc_lookup (f : TaskPC -> bool) (ts : list Task) (i : nat) (t : Task) :
  ts !! i = Some t -> f (t_pc t) = true -> (1 <= count_pc f ts)%nat.
Proof.
  revert i. induction ts as [|x ts IH]; intros [|i] H Hf; simpl in *;
    try discriminate.
  - injection H as ->. rewrite Hf. lia.
  - specialize (IH i H Hf). lia.
Qed.

Lemma count_pc_zero (f : TaskPC -> bool) (ts : list Task) :
  count_pc f ts = 0%nat -> Forall (fun t => f (t_pc t) = false) ts.
Proof.
  induction ts as [|t ts IH]; simpl; intros H; constructor.
  - destruct (f (t_pc t)); [lia | reflexivity].
  - apply IH. destruct (f (t_pc t)); lia.
Qed.

(** Two goroutines inside [setProgress] would make the count two. *)
Lemma count_pc_two (f : TaskPC -> bool) (ts : list Task) (i j : nat) (t u : Task) :
  i <> j -> ts !! i = Some t -> ts !! j = Some u ->
  f (t_pc t) = true -> f (t_pc u) = true -> (2 <= count_pc f ts)%nat.
Proof.
  revert i j. induction ts as [|x ts IH]; intros [|i] [|j] Hij Hi Hj Ht Hu;
    simpl in *; try discriminate; try congruence.
  - injection Hi as ->. rewrite Ht.
    pose proof (count_pc_lookup f ts j u Hj Hu). lia.
  - injection Hj as ->. rewrite Hu.
    pose proof (count_pc_lookup f ts i t Hi Ht). lia.
  - assert (i <> j) by congruence.
    pose proof (IH i j ltac:(assumption) Hi Hj Ht Hu). lia.
Qed.

(** Case analysis on a fired choice. *)
Ltac fire_cases H :=
  unfold fire, fire_control, fire_task in H;
  repeat case_match; simplify_eq.

Ltac count_facts :=
  repeat match goal with
  | H : s_tasks ?st !! ?i = Some ?t
    |- context [count_pc ?f (<[?i := ?t']> (s_tasks ?st))] =>
      lazymatch goal with
      | _ : (count_pc f (<[i := t']> (s_tasks st)) + _ = _)%nat |- _ => fail
      | _ => pose proof (count_pc_insert f (s_tasks st) i t t' H)
      end
  end.

Lemma wf_begin s p ctx ready objs : wf (Chunks_begin s p ctx ready objs).
Proof.
  unfold wf, Chunks_begin. simpl. repeat split; try congruence.
  unfold defaultCachePersistIncrement. lia.
Qed.

Lemma persistableCache_Set_increment ord c p key val c' p' :
  persistableCache_Set ord c p key val = Some (c', p') ->
  persistIncrement c' = persistIncrement c.
Proof.
  unfold persistableCache_Set. intros H.
  repeat case_match; simplify_eq; reflexivity.
Qed.

Lemma wf_step st ev st' : wf st -> step st ev st' -> wf st'.
Proof.
  intros Hwf (ch & Hvalid & Hfire).
  destruct ch as [|i env|err|b]; fire_cases Hfire;
    destruct Hwf as (Hmu & Hwg & Hrange & Hret & Hinc);
    unfold wf; cbn in *; rewrite ?count_pc_app; cbn; count_facts; cbn in *.
  all: repeat match goal with
       | p : Pending |- _ => destruct p as [[?|]|?]
       | o : option string |- _ => destruct o
       | H : (_ =? _) = true |- _ => apply Z.eqb_eq in H
       | H : persistableCache_Set _ _ _ _ _ = Some _ |- _ =>
           apply persistableCache_Set_increment in H
       end; cbn in *.
  all: destruct (s_mu st) eqn:?; repeat split; intros;
    try congruence; try lia;
    try (first [apply Hrange | apply Hret]; congruence).
  all: match goal with
       | H : s_control _ = CReturned |- _ => specialize (Hret H); lia
       end.
Qed.

Lemma wf_exec st tr st' : exec st tr st' -> wf st -> wf st'.
Proof. induction 1; eauto using wf_step. Qed.

Lemma src_step st ev st' : step st ev st' -> s_src st' = s_src st.
Proof.
  intros (ch & _ & Hfire).
  destruct ch; fire_cases Hfire; reflexivity.
Qed.

Lemma src_exec st tr st' : exec st tr st' -> s_src st' = s_src st.
Proof.
  induction 1 as [|st ev st1 tr st2 Hstep _ IH]; [reflexivity|].
  rewrite IH. eapply src_step, Hstep.
Qed.

Lemma lookup_set_pc (ts : list Task) (i j : nat) (t u : Task) :
  ts !! i = Some t ->
  <[i := u]> ts !! j = if decide (i = j) then Some u else ts !! j.
Proof.
  intros H. destruct (decide (i = j)) as [<-|Hne].
  - apply list_lookup_insert_eq. eapply lookup_lt_Some, H.
  - apply list_lookup_insert_ne, Hne.
Qed.

Lemma crit_path_trans s k pc1 p1 c1 pc2 p2 c2 pc3 p3 c3 :
  crit_path s k pc1 p1 c1 pc2 p2 c2 ->
  crit_path s k pc2 p2 c2 pc3 p3 c3 ->
  crit_path s k pc1 p1 c1 pc3 p3 c3.
Proof.
  induction 1; intros Hrest; eauto using crit_path.
Qed.

(** What the shape of the state gives a goroutine inside [setProgress]:
    the mutex is held, the wait group is not at zero, and no other
    goroutine is inside. *)
Lemma holder_facts st i o pc :
  wf st ->
  s_tasks st !! i = Some (mkTask o pc) ->
  holds_mu pc = true ->
  s_mu st = true
  /\ 1 <= s_wg st
  /\ (forall j u, j <> i -> s_tasks st !! j = Some u -> holds_mu (t_pc u) = false).
Proof.
  intros (Hmu & Hwg & _) Hi Hpc.
  pose proof (count_pc_lookup holds_mu _ _ _ Hi Hpc) as Hone.
  pose proof (count_pc_lookup live _ _ _ Hi
                ltac:(destruct pc; simpl in *; congruence)) as Hlive.
  assert (Hheld : s_mu st = true) by (destruct (s_mu st); [reflexivity | lia]).
  split; [exact Hheld|]. split; [lia|].
  intros j u Hne Hj. destruct (holds_mu (t_pc u)) eqn:E; [|reflexivity].
  pose proof (count_pc_two holds_mu _ j i u _ Hne Hj Hi E Hpc).
  rewrite Hheld in Hmu. lia.
Qed.

(** A step seen from a goroutine that is inside [setProgress]: either it
    is the goroutine's own next statement, or its [Unlock], or it leaves
    the shared progress and cache alone. *)
Lemma crit_step st ev st' i o pc :
  wf st ->
  s_tasks st !! i = Some (mkTask o pc) ->
  holds_mu pc = true ->
  step st ev st' ->
  (exists pc',
      s_tasks st' !! i = Some (mkTask o pc')
      /\ holds_mu pc' = true
      /\ crit_path (s_src st) (name o) pc (s_progress st) (s_cache st)
                   pc' (s_progress st') (s_cache st'))
  \/ (ev = EvUnlock i o /\ pc = TUnlock
      /\ s_tasks st' !! i = Some (mkTask o (TDeferred None))
      /\ s_progress st' = s_progress st /\ s_cache st' = s_cache st).
Proof.
  intros Hwf Hi Hpc (ch & Hvalid & Hfire).
  destruct ch as [|j env|err|b].
  - (* the control loop *)
    left. exists pc. fire_cases Hfire; cbn;
      try (split; [first [exact Hi | apply lookup_app_l_Some, Hi]
                  | split; [exact Hpc | constructor]]).
    destruct (holder_facts _ _ _ _ Hwf Hi Hpc) as (_ & Hpos & _).
    match goal with H : (_ =? _) = true |- _ => apply Z.eqb_eq in H; lia end.
  - (* a goroutine *)
    destruct (decide (j = i)) as [->|Hne].
    + unfold fire, fire_task in Hfire. rewrite Hi in Hfire.
      destruct Hvalid as [Hord Hundef].
      destruct pc; simpl in Hpc; try discriminate; repeat case_match;
        simplify_eq; cbn;
        rewrite (lookup_set_pc _ _ _ _ _ Hi), decide_True by reflexivity.
      * left. eexists. repeat split. apply crit_increment, crit_here.
      * left. eexists. repeat split.
        eapply crit_cacheSet; [exact Hord | eassumption | apply crit_here].
      * left. eexists. repeat split. apply crit_remaining, crit_here.
      * left. eexists. repeat split.
        eapply crit_percent; [exact Hundef | apply crit_here].
      * right. repeat split.
    + left. exists pc.
      fire_cases Hfire; cbn;
        destruct (holder_facts _ _ _ _ Hwf Hi Hpc) as (Hheld & _ & Hother);
        match goal with
        | H : s_tasks _ !! j = Some _ |- _ =>
            pose proof (Hother _ _ Hne H) as Hno;
            rewrite (lookup_set_pc _ _ _ _ _ H), decide_False by exact Hne
        end; simpl in Hno; try discriminate; try congruence;
        (split; [exact Hi | split; [exact Hpc | constructor]]).
  - left. exists pc. fire_cases Hfire; cbn.
    split; [exact Hi | split; [exact Hpc | constructor]].
  - left. exists pc. fire_cases Hfire; cbn.
    split; [exact Hi | split; [exact Hpc | constructor]].
Qed.

(** A step is a step of the [i]-th goroutine, or leaves it where it is. *)
Lemma task_frame st ev st' i t :
  step st ev st' ->
  s_tasks st !! i = Some t ->
  s_tasks st' !! i = Some t
  \/ exists env, valid_choice (RunTask i env)
                 /\ fire_task st i env = Some (ev, st').
Proof.
  intros (ch & Hvalid & Hfire) Hi.
  destruct ch as [|j env|err|b].
  - left. fire_cases Hfire; cbn; first [exact Hi | apply lookup_app_l_Some, Hi].
  - destruct (decide (j = i)) as [->|Hne].
    + right. exists env. split; assumption.
    + left. fire_cases Hfire; cbn;
        rewrite list_lookup_insert_ne by exact Hne; exact Hi.
  - left. fire_cases Hfire; cbn. exact Hi.
  - left. fire_cases Hfire; cbn. exact Hi.
Qed.

Lemma left_body_step st ev st' i o pc :
  s_tasks st !! i = Some (mkTask o pc) ->
  left_body pc = true ->
  step st ev st' ->
  exists pc', s_tasks st' !! i = Some (mkTask o pc') /\ left_body pc' = true.
Proof.
  intros Hi Hpc Hstep.
  destruct (task_frame _ _ _ _ _ Hstep Hi) as [Hsame|(env & _ & Hfire)].
  - eauto.
  - unfold fire_task in Hfire. rewrite Hi in Hfire.
    destruct pc; simpl in Hpc; try discriminate; simplify_eq; cbn.
    rewrite (lookup_set_pc _ _ _ _ _ Hi), decide_True by reflexivity.
    eauto.
Qed.

Lemma left_body_exec st tr st' i o pc :
  exec st tr st' ->
  s_tasks st !! i = Some (mkTask o pc) ->
  left_body pc = true ->
  exists pc', s_tasks st' !! i = Some (mkTask o pc') /\ left_body pc' = true.
Proof.
  intros Hexec. revert pc.
  induction Hexec as [|st ev st1 tr st2 Hstep _ IH]; intros pc Hi Hpc.
  - eauto.
  - destruct (left_body_step _ _ _ _ _ _ Hi Hpc Hstep) as (pc1 & Hi1 & Hpc1).
    eauto.
Qed.

(** Over any number of steps, a goroutine inside [setProgress] sees the
    shared progress and cache change by its own statements only, until it
    unlocks. *)
Lemma crit_exec st tr st' i o pc :
  exec st tr st' ->
  wf st ->
  s_tasks st !! i = Some (mkTask o pc) ->
  holds_mu pc = true ->
  (exists pc',
      s_tasks st' !! i = Some (mkTask o pc')
      /\ holds_mu pc' = true
      /\ crit_path (s_src st) (name o) pc (s_progress st) (s_cache st)
                   pc' (s_progress st') (s_cache st'))
  \/ (exists pc', s_tasks st' !! i = Some (mkTask o pc')
                  /\ left_body pc' = true).
Proof.
  intros Hexec. revert pc.
  induction Hexec as [|st ev st1 tr st2 Hstep Hrest IH]; intros pc Hwf Hi Hpc.
  - left. exists pc. repeat split; [exact Hi | exact Hpc | constructor].
  - destruct (crit_step _ _ _ _ _ _ Hwf Hi Hpc Hstep)
      as [(pc1 & Hi1 & Hpc1 & Hpath)|(_ & _ & Hi1 & _)].
    + destruct (IH pc1 (wf_step _ _ _ Hwf Hstep) Hi1 Hpc1)
        as [(pc2 & Hi2 & Hpc2 & Hpath2)|Hleft].
      * left. exists pc2. repeat split; [exact Hi2 | exact Hpc2 |].
        rewrite (src_step _ _ _ Hstep) in Hpath2.
        eapply crit_path_trans; eassumption.
      * right. exact Hleft.
    + right. eapply left_body_exec; [exact Hrest | exact Hi1 | reflexivity].
Qed.

Lemma crit_path_whole s k p c p' c' :
  crit_path s k TIncrement p c TUnlock p' c' ->
  exists ord undef,
    is_range_order ord /\ in_int64 undef = true
    /\ setProgress ord undef s k p c = Some (p', c').
Proof.
  intros H.
  inversion H as [| ? ? ? ? ? H1 | | |]; subst.
  inversion H1 as [| | ord ? ? p1 c1 ? ? ? Hord Hset H2 | |]; subst.
  inversion H2 as [| | | ? ? ? ? ? H3 |]; subst.
  inversion H3 as [| | | | undef ? ? ? ? ? Hundef H4]; subst.
  inversion H4; subst.
  exists ord, undef. repeat split; [exact Hord | exact Hundef |].
  unfold setProgress. rewrite Hset. reflexivity.
Qed.

(** What firing [EvLock] and [EvUnlock] needs and does. *)
Lemma lock_step st i o st' :
  step st (EvLock i o) st' ->
  s_tasks st' !! i = Some (mkTask o TIncrement)
  /\ s_progress st' = s_progress st /\ s_cache st' = s_cache st.
Proof.
  intros (ch & _ & Hfire).
  destruct ch; fire_cases Hfire; cbn.
  match goal with
  | H : s_tasks _ !! _ = Some _ |- _ =>
      rewrite (lookup_set_pc _ _ _ _ _ H), decide_True by reflexivity
  end.
  repeat split.
Qed.

Lemma unlock_step st i o st' :
  step st (EvUnlock i o) st' ->
  s_tasks st !! i = Some (mkTask o TUnlock)
  /\ s_progress st' = s_progress st /\ s_cache st' = s_cache st.
Proof.
  intros (ch & _ & Hfire).
  destruct ch; fire_cases Hfire; cbn. repeat split. assumption.
Qed.

(** From [Lock] to [Unlock], the progress and the cache go through
    [setProgress] and nothing else, whatever runs in between. *)
Lemma setProgress_atomic st0 i o st tr st1 st2 :
  wf st0 ->
  step st0 (EvLock i o) st ->
  exec st tr st1 ->
  step st1 (EvUnlock i o) st2 ->
  exists ord undef,
    is_range_order ord /\ in_int64 undef = true
    /\ setProgress ord undef (s_src st0) (name o) (s_progress st0) (s_cache st0)
       = Some (s_progress st2, s_cache st2).
Proof.
  intros Hwf Hlock Hexec Hunlock.
  destruct (lock_step _ _ _ _ Hlock) as (Hi & Hp & Hc).
  destruct (unlock_step _ _ _ _ Hunlock) as (Hi1 & Hp2 & Hc2).
  destruct (crit_exec _ _ _ _ _ _ Hexec (wf_step _ _ _ Hwf Hlock) Hi eq_refl)
    as [(pc' & Hi' & _ & Hpath)|(pc' & Hi' & Hleft)].
  - rewrite Hi1 in Hi'. injection Hi' as <-.
    rewrite Hp, Hc, (src_step _ _ _ Hlock), <- Hp2, <- Hc2 in Hpath.
    apply crit_path_whole, Hpath.
  - rewrite Hi1 in Hi'. injection Hi' as <-. discriminate.
Qed.

Lemma persistableCache_Set_counters ord c p key val c' p' :
  persistableCache_Set ord c p key val = Some (c', p') ->
  SectionsCompleted p' = SectionsCompleted p
  /\ SectionsRemaining p' = SectionsRemaining p
  /\ PercentComplete p' = PercentComplete p
  /\ Message p' = Message p.
Proof.
  unfold persistableCache_Set. intros H.
  repeat case_match; simplify_eq; repeat split.
Qed.

Lemma lookup_snoc_Some (ts : list Task) (t u : Task) (i : nat) :
  (ts ++ [t])%list !! i = Some u -> ts !! i = Some u \/ u = t.
Proof.
  intros H. apply lookup_app_Some in H as [H|[_ H]]; [left; exact H|].
  right. apply list_lookup_singleton_Some in H as [_ H]. congruence.
Qed.

Lemma counters_inv_step p0 st ev st' :
  wf st -> counters_inv p0 st -> step st ev st' -> counters_inv p0 st'.
Proof.
  intros Hwf (Hfree & Hrem & Hpct) (ch & Hvalid & Hfire).
  destruct ch as [|j env|err|b].
  - (* the control loop: the counters and the goroutines inside stay *)
    fire_cases Hfire; unfold counters_inv; cbn;
      (split; [exact Hfree|split]); intros i o' Hi;
      try (apply lookup_snoc_Some in Hi as [Hi|Hi]; [|discriminate]);
      eauto.
  - unfold fire, fire_task in Hfire.
    destruct (s_tasks st !! j) as [[o pc]|] eqn:Hj; [|discriminate].
    assert (Hframe : forall i o' pc' X,
               <[j := mkTask o pc']> (s_tasks st) !! i = Some (mkTask o' X) ->
               holds_mu X = true ->
               (i = j /\ o' = o /\ pc' = X)
               \/ (i <> j /\ s_mu st = true /\ holds_mu pc = false
                   /\ s_tasks st !! i = Some (mkTask o' X))).
    { intros i o' pc' X Hi HX.
      rewrite (lookup_set_pc _ _ _ _ _ Hj) in Hi.
      destruct (decide (j = i)) as [->|Hne].
      - left. injection Hi as <- <-; auto.
      - right.
        destruct (holder_facts _ _ _ _ Hwf Hi HX) as (Hheld & _ & Hother).
        repeat split; [congruence | exact Hheld | | exact Hi].
        apply (Hother j _ Hne Hj). }
    assert (Hmine : holds_mu pc = true -> s_mu st = true)
      by (intros Hpc; apply (holder_facts _ _ _ _ Hwf Hj Hpc)).
    destruct Hvalid as [Hord Hundef].
    destruct pc; repeat case_match; simplify_eq; unfold counters_inv; cbn;
      try match goal with
          | H : persistableCache_Set _ _ _ _ _ = Some _ |- _ =>
              apply persistableCache_Set_counters in H as (H1 & H2 & H3 & _)
          end;
      (split; [|split]).
    all: try (intros i o' Hi;
              destruct (Hframe i o' _ _ Hi eq_refl)
                as [(-> & -> & E)|(Hne & Hheld & Hno & Hi')];
              [ try discriminate;
                try (destruct p as [[?|]|?]; discriminate);
                try match goal with
                    | E : match ?x with _ => _ end = _ |- _ =>
                        destruct x; discriminate
                    end
              | try discriminate; eauto ]).
    all: try (exact Hfree).
    all: try (intros Hmu; specialize (Hmine eq_refl); congruence).
    all: try (intros; discriminate).
    + (* [SectionsRemaining] has just been stored *)
      reflexivity.
    + (* [PercentComplete] has just been stored *)
      pose proof (Hrem _ _ Hj) as Hr.
      unfold consistent, sp_percent. cbn. split; [exact Hr|].
      destruct (percent_of _ _); [reflexivity | exact Hundef].
    + (* [Unlock]: the holder found the counters as it stored them *)
      intros _. right. eapply Hpct, Hj.
  - fire_cases Hfire; unfold counters_inv; cbn. auto.
  - fire_cases Hfire; unfold counters_inv; cbn. auto.
Qed.

Lemma counters_inv_begin s p ctx ready objs :
  counters_inv p (Chunks_begin s p ctx ready objs).
Proof.
  unfold counters_inv, Chunks_begin. cbn. split; [|split].
  - intros _. left. repeat split.
  - intros i o Hi. rewrite lookup_nil in Hi. discriminate.
  - intros i o Hi. rewrite lookup_nil in Hi. discriminate.
Qed.

Lemma counters_inv_exec p0 st tr st' :
  exec st tr st' -> wf st -> counters_inv p0 st -> counters_inv p0 st'.
Proof.
  induction 1 as [|st ev st1 tr st2 Hstep _ IH]; intros Hwf Hinv;
    [exact Hinv|].
  apply IH; [eapply wf_step | eapply counters_inv_step]; eassumption.
Qed.

(** The shared progress and cache are written by the goroutine inside
    [setProgress], and by [completeProgress] once all have finished. *)
Lemma shared_write_step st ev st' :
  step st ev st' ->
  (s_progress st' = s_progress st /\ s_cache st' = s_cache st)
  \/ ev = EvComplete
  \/ exists i o pc,
       s_tasks st !! i = Some (mkTask o pc)
       /\ holds_mu pc = true /\ progress_event i ev.
Proof.
  intros (ch & _ & Hfire).
  destruct ch; fire_cases Hfire; cbn; auto;
    right; right; eexists _, _, _; (split; [eassumption|]); split; reflexivity.
Qed.

Lemma run_exec st chs tr st' :
  Forall valid_choice chs -> run st chs = Some (tr, st') -> exec st tr st'.
Proof.
  intros Hall. revert st tr.
  induction Hall as [|ch chs Hch _ IH]; intros st tr Hrun; simpl in Hrun.
  - injection Hrun as <- <-. constructor.
  - destruct (fire st ch) as [[ev st1]|] eqn:Hfire; [|discriminate].
    destruct (run st1 chs) as [[tr1 st2]|] eqn:Hrest; [|discriminate].
    injection Hrun as <- <-.
    econstructor; [exists ch; split; eassumption | apply IH, Hrest].
Qed.

Lemma valid_task i io send : valid_choice (task i io send).
Proof. split; [intros l; reflexivity | reflexivity]. Qed.

Lemma valid_whole_task i io : Forall valid_choice (whole_task i io).
Proof.
  apply Forall_forall. intros ch Hin.
  apply list_elem_of_In, repeat_spec in Hin. subst. apply valid_task.
Qed.

(** A schedule that can be played is a run. *)
Lemma outcome_exec st chs :
  Forall valid_choice chs ->
  playable st chs = true ->
  exec st (fst (outcome st chs)) (snd (outcome st chs)).
Proof.
  intros Hall Hrun. apply (run_exec st chs); [exact Hall|].
  unfold outcome, playable in *.
  destruct (run st chs) as [[tr st']|]; [reflexivity|discriminate].
Qed.

Ltac valid_schedule :=
  repeat (constructor; [first [exact I | apply valid_task]|]); constructor.

(** ** The mutex of [setProgress] *)

(** With nobody inside [setProgress], the goroutines that have
    incremented are those that have called [cache.Set]. *)
Lemma counted_marked (ts : list Task) :
  count_pc holds_mu ts = 0%nat -> count_pc counted ts = count_pc marked ts.
Proof.
  induction ts as [|[o pc] ts IH]; simpl; [reflexivity|].
  destruct pc as [| | | | | | | |[?|]|[?|]]; simpl; intros H;
    try discriminate; rewrite IH by exact H; reflexivity.
Qed.

(** C9 (one lock around the read-modify-write).  In every state a run
    of [Chunks] reaches: the goroutines between [Lock] and [Unlock] are as
    many as the mutex says, one when it is held and none when it is free;
    a step that changes the shared progress or the cache is a statement of
    the goroutine inside [setProgress] (or the final [completeProgress]);
    from a goroutine's [Lock] to its [Unlock], whatever the others do in
    between, the progress and the cache change exactly as one call of
    [setProgress] changes them; and whenever the mutex is free, as many
    goroutines have incremented sections-completed as have inserted their
    name into the cache, and the counters are the initial ones or agree
    with each other: remaining is the total and percent is the one
    computed from sections-completed. *)
Theorem setProgress_one_lock
    (s : Source) (p : Progress) (ctx : option string) (ready : bool)
    (objs : list item) (tr : list Event) (st : State) :
  exec (Chunks_begin s p ctx ready objs) tr st ->
  count_pc holds_mu (s_tasks st) = (if s_mu st then 1 else 0)%nat
  /\ (forall ev st',
        step st ev st' ->
        (s_progress st' = s_progress st /\ s_cache st' = s_cache st)
        \/ ev = EvComplete
        \/ exists i o pc,
             s_tasks st !! i = Some (mkTask o pc)
             /\ holds_mu pc = true /\ progress_event i ev /\ s_mu st = true)
  /\ (forall i o st1 tr' st2 st3,
        step st (EvLock i o) st1 ->
        exec st1 tr' st2 ->
        step st2 (EvUnlock i o) st3 ->
        exists ord undef,
          is_range_order ord /\ in_int64 undef = true
          /\ setProgress ord undef s (name o) (s_progress st) (s_cache st)
             = Some (s_progress st3, s_cache st3))
  /\ (s_mu st = false ->
      count_pc counted (s_tasks st) = count_pc marked (s_tasks st)
      /\ (same_counters (s_progress st) p \/ consistent s (s_progress st))).
Proof.
  intros Hexec.
  pose proof (wf_exec _ _ _ Hexec (wf_begin s p ctx ready objs)) as Hwf.
  pose proof (counters_inv_exec p _ _ _ Hexec (wf_begin s p ctx ready objs)
                (counters_inv_begin s p ctx ready objs)) as (Hfree & _ & _).
  pose proof (src_exec _ _ _ Hexec) as Hsrc. cbn in Hsrc.
  split; [apply Hwf|]. split; [|split].
  - intros ev st' Hstep.
    destruct (shared_write_step _ _ _ Hstep) as [H|[H|(i & o & pc & Hi & Hpc & Hev)]];
      [left; exact H | right; left; exact H |].
    right; right. exists i, o, pc. repeat split; try assumption.
    apply (holder_facts _ _ _ _ Hwf Hi Hpc).
  - intros i o st1 tr' st2 st3 Hlock Hmid Hunlock.
    rewrite <- Hsrc. eapply setProgress_atomic; eassumption.
  - intros Hmu. split; [|rewrite <- Hsrc; exact (Hfree Hmu)].
    apply counted_marked.
    destruct Hwf as (Hcount & _). rewrite Hmu in Hcount. exact Hcount.
Qed.

Lemma run_inside_exec :
  exec (fst run_inside) (fst (outcome (fst run_inside) (snd run_inside)))
       (snd (outcome (fst run_inside) (snd run_inside))).
Proof.
  apply outcome_exec; [unfold run_inside; simpl; valid_schedule|].
  vm_compute. reflexivity.
Qed.

Lemma setProgress_one_lock_witness :
  count_pc holds_mu
    (s_tasks (snd (outcome (fst run_inside) (snd run_inside)))) = 1%nat.
Proof.
  rewrite (proj1 (setProgress_one_lock _ _ _ _ _ _ _ run_inside_exec)).
  vm_compute. reflexivity.
Defined.


(** ** Rounding of [float64] *)

Lemma ceil_shr_1 (mrs : shr_record) (k : Z) :
  0 <= shr_m mrs -> ceil_m mrs <= 2 * k ->
  0 <= shr_m (shr_1 mrs) /\ ceil_m (shr_1 mrs) <= k.
Proof.
  destruct mrs as [m r s]. unfold ceil_m. simpl.
  destruct m as [|p|p]; [| |lia].
  - destruct r, s; simpl; lia.
  - destruct p as [p|p|]; destruct r, s; simpl; lia.
Qed.

Lemma pow2_xO (p : positive) : 2 ^ Z.pos p~0 = 2 ^ Z.pos p * 2 ^ Z.pos p.
Proof.
  replace (Z.pos p~0) with (Z.pos p + Z.pos p) by lia.
  apply Z.pow_add_r; lia.
Qed.

Lemma pow2_xI (p : positive) : 2 ^ Z.pos p~1 = 2 * (2 ^ Z.pos p * 2 ^ Z.pos p).
Proof.
  replace (Z.pos p~1) with (1 + (Z.pos p + Z.pos p)) by lia.
  rewrite Z.pow_add_r, Z.pow_1_r, Z.pow_add_r by lia. reflexivity.
Qed.

Lemma ceil_iter_shr_1 (p : positive) (mrs : shr_record) (k : Z) :
  0 <= shr_m mrs -> ceil_m mrs <= 2 ^ Z.pos p * k ->
  0 <= shr_m (SpecFloat.iter_pos shr_1 p mrs)
  /\ ceil_m (SpecFloat.iter_pos shr_1 p mrs) <= k.
Proof.
  revert mrs k. induction p as [p IH|p IH|]; intros mrs k Hm Hc; simpl.
  - rewrite pow2_xI in Hc.
    destruct (ceil_shr_1 mrs (2 ^ Z.pos p * (2 ^ Z.pos p * k)) Hm ltac:(lia))
      as [H1 H2].
    destruct (IH _ _ H1 H2) as [H3 H4]. apply IH; assumption.
  - rewrite pow2_xO in Hc.
    destruct (IH mrs (2 ^ Z.pos p * k) Hm ltac:(lia)) as [H3 H4].
    apply IH; assumption.
  - apply ceil_shr_1; [exact Hm|]. rewrite Z.pow_1_r in Hc. exact Hc.
Qed.

Lemma digits2_pos_size (p : positive) : digits2_pos p = Pos.size p.
Proof. induction p; simpl; congruence. Qed.

Lemma Zdigits2_le (m d : Z) : 0 <= m < 2 ^ d -> 0 <= d -> Zdigits2 m <= d.
Proof.
  intros [Hm Hlt] Hd. destruct m as [|p|p]; simpl; [exact Hd| |lia].
  rewrite digits2_pos_size.
  destruct (Z_lt_le_dec d (Z.pos (Pos.size p))) as [Hgt|]; [|assumption].
  exfalso.
  pose proof (Pos.size_le p) as Hle.
  assert (2 ^ Z.pos (Pos.size p) <= Z.pos p~0).
  { rewrite <- Pos2Z.inj_pow. apply Pos2Z.pos_le_pos. exact Hle. }
  assert (2 ^ (d + 1) <= 2 ^ Z.pos (Pos.size p)) by (apply Z.pow_le_mono_r; lia).
  rewrite Z.pow_add_r, Z.pow_1_r in * by lia.
  rewrite Pos2Z.inj_xO in *. lia.
Qed.

Lemma shr_m_nonneg_iter (p : positive) (mrs : shr_record) :
  0 <= shr_m mrs -> 0 <= shr_m (SpecFloat.iter_pos shr_1 p mrs).
Proof.
  intros H0.
  apply (ceil_iter_shr_1 p mrs (ceil_m mrs + 1) H0).
  assert (0 <= ceil_m mrs) by (unfold ceil_m; destruct (_ || _); lia).
  assert (1 <= 2 ^ Z.pos p) by (apply (Z.pow_le_mono_r 2 0); lia). nia.
Qed.

Lemma near_shr_1 N D E mrs e :
  0 < D -> 0 <= shr_m mrs ->
  near N D E mrs e -> near N D E (shr_1 mrs) (e + 1).
Proof.
  intros HD Hm (HE & Hlo & Hhi).
  assert (Hp : 0 < 2 ^ (e - E)) by (apply Z.pow_pos_nonneg; lia).
  unfold near. replace (e + 1 - E) with (1 + (e - E)) by lia.
  rewrite Z.pow_add_r, Z.pow_1_r by lia.
  assert (Hs : shr_m mrs + 1 <= 2 * (shr_m (shr_1 mrs) + 1)
               /\ 2 * (ceil_m (shr_1 mrs) - 1) <= ceil_m mrs - 1).
  { destruct mrs as [m r s]. unfold ceil_m in *. simpl in *.
    destruct m as [|p|p]; [| |lia].
    - destruct r, s; simpl; lia.
    - destruct p as [p|p|]; destruct r, s; simpl; lia. }
  destruct Hs as [Hs1 Hs2]. split; [lia|]. split; nia.
Qed.

Lemma near_iter_shr_1 N D E (p : positive) mrs e :
  0 < D -> 0 <= shr_m mrs ->
  near N D E mrs e ->
  near N D E (SpecFloat.iter_pos shr_1 p mrs) (e + Z.pos p).
Proof.
  intros HD. revert mrs e.
  induction p as [p IH|p IH|]; intros mrs e Hm Hn; simpl.
  - replace (e + Z.pos p~1) with (e + 1 + Z.pos p + Z.pos p) by lia.
    pose proof (near_shr_1 _ _ _ _ _ HD Hm Hn) as H1.
    assert (Hm1 : 0 <= shr_m (shr_1 mrs))
      by (apply (ceil_shr_1 mrs (ceil_m mrs) Hm);
          unfold ceil_m; destruct (_ || _); lia).
    apply IH; [apply shr_m_nonneg_iter, Hm1 | apply IH; assumption].
  - replace (e + Z.pos p~0) with (e + Z.pos p + Z.pos p) by lia.
    apply IH; [apply shr_m_nonneg_iter, Hm | apply IH; assumption].
  - apply near_shr_1; assumption.
Qed.

Section rounding_bound.

Variables b eb : Z.
Hypothesis b_pos : 0 < b.
Hypothesis b_fits : b < 2 ^ 53.
Hypothesis eb_range : -1074 <= eb <= 971.

Lemma under_shr mrs e n mrs' e' :
  shr mrs e n = (mrs', e') ->
  under b eb mrs e ->
  (0 < n -> e + n <= eb) ->
  under b eb mrs' e'.
Proof.
  intros Hshr (Hm & He & Hc) Hn. unfold shr in Hshr.
  destruct n as [|p|p]; simplify_eq; try (repeat split; assumption).
  specialize (Hn ltac:(lia)).
  replace (eb - e) with (Z.pos p + (eb - (e + Z.pos p))) in Hc by lia.
  rewrite Z.pow_add_r in Hc by lia.
  destruct (ceil_iter_shr_1 p mrs (b * 2 ^ (eb - (e + Z.pos p))) Hm ltac:(lia))
    as [H1 H2].
  repeat split; assumption.
Qed.

Lemma shr_m_of_loc m l : shr_m (shr_record_of_loc m l) = m.
Proof. destruct l as [|[]]; reflexivity. Qed.

Lemma under_shr_fexp m e l mrs' e' :
  shr_fexp 53 1024 m e l = (mrs', e') ->
  under b eb (shr_record_of_loc m l) e ->
  under b eb mrs' e'.
Proof.
  intros Hshr Hu. unfold shr_fexp in Hshr.
  eapply under_shr; [exact Hshr | exact Hu |].
  intros _. destruct Hu as (Hm & He & Hc). rewrite shr_m_of_loc in Hm.
  assert (Hle : m <= ceil_m (shr_record_of_loc m l)).
  { unfold ceil_m. rewrite shr_m_of_loc. destruct (_ || _); lia. }
  assert (Hpow : 0 < 2 ^ (eb - e)) by (apply Z.pow_pos_nonneg; lia).
  assert (Hd : Zdigits2 m <= 53 + (eb - e)).
  { apply Zdigits2_le; [|lia]. split; [exact Hm|].
    rewrite Z.pow_add_r by lia. nia. }
  unfold fexp, emin. lia.
Qed.

Lemma round_between mrs :
  shr_m mrs <= round_nearest_even (shr_m mrs) (loc_of_shr_record mrs)
            <= ceil_m mrs.
Proof.
  destruct mrs as [m r s]. unfold ceil_m. simpl.
  destruct r, s; simpl; try lia. destruct (Z.even m); lia.
Qed.

End rounding_bound.

Section rounding_error.

Variables N D E : Z.
Hypothesis D_pos : 0 < D.

Lemma near_shr mrs e n mrs' e' :
  shr mrs e n = (mrs', e') ->
  0 <= shr_m mrs ->
  near N D E mrs e -> near N D E mrs' e'.
Proof.
  intros Hshr Hm Hn. unfold shr in Hshr.
  destruct n as [|p|p]; simplify_eq; try assumption.
  apply near_iter_shr_1; assumption.
Qed.

Lemma near_shr_fexp m e l mrs' e' :
  shr_fexp 53 1024 m e l = (mrs', e') ->
  0 <= m ->
  near N D E (shr_record_of_loc m l) e -> near N D E mrs' e'.
Proof.
  intros Hshr Hm Hn. unfold shr_fexp in Hshr.
  eapply near_shr; [exact Hshr | rewrite shr_m_of_loc; exact Hm | exact Hn].
Qed.

(** The exponent after the shift is the one before or the canonical one
    of a number of [d] digits. *)
Lemma shr_fexp_exponent m e l mrs' e' (d : Z) :
  shr_fexp 53 1024 m e l = (mrs', e') ->
  0 <= m < 2 ^ d -> 0 <= d ->
  e' <= Z.max e (Z.max (d + e - 53) (-1074)).
Proof.
  intros Hshr Hm Hd. unfold shr_fexp, shr in Hshr.
  pose proof (Zdigits2_le m d Hm Hd) as Hdig.
  destruct (fexp 53 1024 (Zdigits2 m + e) - e) as [|p|p] eqn:En;
    simplify_eq; try lia.
  unfold fexp, emin in En. lia.
Qed.

Variables b eb db : Z.
Hypothesis b_pos : 0 < b.
Hypothesis b_digits : b < 2 ^ db.
Hypothesis db_range : 0 <= db <= 53.
Hypothesis eb_range : -1074 <= eb <= 971.

Lemma under_digits mrs e :
  under b eb mrs e -> 0 <= shr_m mrs < 2 ^ (db + (eb - e)).
Proof.
  intros (Hm & He & Hc). split; [exact Hm|].
  assert (shr_m mrs <= ceil_m mrs) by (unfold ceil_m; destruct (_ || _); lia).
  assert (0 < 2 ^ (eb - e)) by (apply Z.pow_pos_nonneg; lia).
  rewrite Z.pow_add_r by lia. nia.
Qed.

(** Rounding a value known within one unit of the mantissa, and below a
    bound that can be represented, keeps it so. *)
Lemma binary_round_aux_near m e l :
  under b eb (shr_record_of_loc m l) e ->
  near N D E (shr_record_of_loc m l) e ->
  exists m' e',
    (m' = 0 /\ binary_round_aux 53 1024 false m e l = S754_zero false
     \/ exists p, m' = Z.pos p
          /\ binary_round_aux 53 1024 false m e l = S754_finite false p e')
    /\ 0 <= m' <= b * 2 ^ (eb - e') /\ e' <= eb
    /\ e' <= Z.max e (Z.max (db + eb - 53) (-1074))
    /\ E <= e'
    /\ N < D * (m' + 1) * 2 ^ (e' - E)
    /\ D * (m' - 1) * 2 ^ (e' - E) < N.
Proof.
  intros Hu Hn. unfold binary_round_aux.
  pose proof (under_digits _ _ Hu) as Hd0. rewrite shr_m_of_loc in Hd0.
  destruct (shr_fexp 53 1024 m e l) as [mrs1 e1] eqn:H1.
  pose proof (under_shr_fexp b eb b_pos ltac:(pose proof (Z.pow_le_mono_r 2 db 53); lia)
                eb_range _ _ _ _ _ H1 Hu) as Hu1.
  pose proof (near_shr_fexp _ _ _ _ _ H1 ltac:(lia) Hn) as (HE1 & Hlo1 & Hhi1).
  pose proof (shr_fexp_exponent _ _ _ _ _ _ H1 Hd0
                ltac:(destruct Hu as (_ & ? & _); lia)) as Hx1.
  pose proof (under_digits _ _ Hu1) as Hd1.
  destruct Hu1 as (Hm1 & He1 & Hc1).
  pose proof (round_between mrs1) as [Hrlo Hrhi].
  set (mr := round_nearest_even (shr_m mrs1) (loc_of_shr_record mrs1)) in *.
  destruct (shr_fexp 53 1024 mr e1 loc_Exact) as [mrs2 e2] eqn:H2.
  assert (Hu2 : under b eb (shr_record_of_loc mr loc_Exact) e1).
  { unfold under, ceil_m. simpl. repeat split; lia. }
  assert (Hp1 : 0 < 2 ^ (e1 - E)) by (apply Z.pow_pos_nonneg; lia).
  assert (Hn2 : near N D E (shr_record_of_loc mr loc_Exact) e1).
  { unfold near, ceil_m. simpl. rewrite Z.add_0_r.
    split; [exact HE1|]. split; nia. }
  pose proof (under_shr_fexp b eb b_pos ltac:(pose proof (Z.pow_le_mono_r 2 db 53); lia)
                eb_range _ _ _ _ _ H2 Hu2) as Hu3.
  pose proof (near_shr_fexp _ _ _ _ _ H2 ltac:(lia) Hn2) as (HE2 & Hlo2 & Hhi2).
  assert (Hmr : 0 <= mr < 2 ^ (db + (eb - e1))).
  { split; [lia|].
    assert (0 < 2 ^ (eb - e1)) by (apply Z.pow_pos_nonneg; lia).
    rewrite Z.pow_add_r by lia. nia. }
  pose proof (shr_fexp_exponent _ _ _ _ _ _ H2 Hmr ltac:(lia)) as Hx2.
  destruct Hu3 as (Hm2 & He2 & Hc2).
  assert (Hp2 : 0 < 2 ^ (e2 - E)) by (apply Z.pow_pos_nonneg; lia).
  assert (Hcm : shr_m mrs2 <= ceil_m mrs2)
    by (unfold ceil_m; destruct (_ || _); lia).
  exists (shr_m mrs2), e2. split.
  - destruct (shr_m mrs2) as [|p|p] eqn:Em; [left; split; reflexivity | | lia].
    right. exists p. split; [reflexivity|].
    replace (e2 <=? 1024 - 53) with true by (symmetry; apply Z.leb_le; lia).
    reflexivity.
  - split; [lia|]. split; [exact He2|]. split; [lia|]. split; [exact HE2|].
    split; [exact Hlo2|]. nia.
Qed.

End rounding_error.

Lemma ceil_of_loc (m : Z) (l : location) :
  ceil_m (shr_record_of_loc m l)
  = m + match l with loc_Exact => 0 | loc_Inexact _ => 1 end.
Proof. destruct l as [|[]]; reflexivity. Qed.

Lemma new_location_exact (m2 r : Z) :
  new_location m2 r = loc_Exact -> r = 0.
Proof.
  unfold new_location, new_location_even, new_location_odd.
  destruct (Z.even m2); destruct (Z.eqb_spec r 0); congruence.
Qed.

Lemma new_location_inexact (m2 r : Z) (c : comparison) :
  new_location m2 r = loc_Inexact c -> r <> 0.
Proof.
  unfold new_location, new_location_even, new_location_odd.
  destruct (Z.even m2); destruct (Z.eqb_spec r 0); congruence.
Qed.

(** The quotient of two floats, the first at most the second and with no
    more digits, is within one unit in the last place of the exact
    quotient, at an exponent of at most -52. *)
Lemma float64_div_near (m1 : positive) (e1 : Z) (m2 : positive) (e2 : Z) :
  -52 <= e1 -> e1 <= e2 -> e2 <= 0 ->
  Z.pos m1 <= Z.pos m2 * 2 ^ (e2 - e1) ->
  Zdigits2 (Z.pos m1) = Zdigits2 (Z.pos m2) ->
  exists mq eq,
    (mq = 0
     /\ float64_div (S754_finite false m1 e1) (S754_finite false m2 e2)
        = S754_zero false
     \/ exists p, mq = Z.pos p
          /\ float64_div (S754_finite false m1 e1) (S754_finite false m2 e2)
             = S754_finite false p eq)
    /\ 0 <= mq <= 2 ^ (- eq) /\ eq <= -52
    /\ Z.pos m1 * 2 ^ (e1 - e2 - eq) < Z.pos m2 * (mq + 1)
    /\ Z.pos m2 * (mq - 1) < Z.pos m1 * 2 ^ (e1 - e2 - eq).
Proof.
  intros Hlow He He2 Hle Hdig. unfold float64_div, SFdiv, SFdiv_core_binary.
  set (e' := Z.min (fexp 53 1024 (Zdigits2 (Z.pos m1) + e1
                                  - (Zdigits2 (Z.pos m2) + e2))) (e1 - e2)).
  assert (He' : e' <= e1 - e2) by apply Z.le_min_r.
  assert (He'' : e' <= -53).
  { subst e'. rewrite Hdig. unfold fexp, emin. lia. }
  set (s := e1 - e2 - e').
  set (m' := match s with Z.pos _ => Z.shiftl (Z.pos m1) s | 0 => Z.pos m1
             | Z.neg _ => 0 end).
  assert (Hm' : m' = Z.pos m1 * 2 ^ s).
  { subst m'. assert (0 <= s) by (subst s; lia).
    destruct s as [|p|p]; [rewrite Z.pow_0_r; lia | | lia].
    apply Z.shiftl_mul_pow2. lia. }
  pose proof (Z_div_mod m' (Z.pos m2) ltac:(lia)) as Hdiv.
  destruct (Z.div_eucl m' (Z.pos m2)) as [q r]. destruct Hdiv as [Hq Hr].
  simpl xorb.
  assert (Hs : 0 < 2 ^ s) by (apply Z.pow_pos_nonneg; subst s; lia).
  assert (HK : 0 < 2 ^ (- e')) by (apply Z.pow_pos_nonneg; lia).
  assert (Hbound : m' <= Z.pos m2 * 2 ^ (- e')).
  { rewrite Hm'. replace (- e') with ((e2 - e1) + s) by (subst s; lia).
    rewrite Z.pow_add_r by (subst s; lia). nia. }
  assert (Hq0 : 0 <= q) by nia.
  destruct (binary_round_aux_near m' (Z.pos m2) e' ltac:(lia) 1 0 1
              ltac:(lia) ltac:(reflexivity) ltac:(lia) ltac:(lia)
              q e' (new_location (Z.pos m2) r))
    as (mq & eq & Hres & Hmq & Heq & Hex & HE & Hlo & Hhi).
  - unfold under. rewrite shr_m_of_loc, ceil_of_loc.
    split; [exact Hq0|]. split; [lia|].
    replace (0 - e') with (- e') by lia. rewrite Z.mul_1_l.
    destruct (new_location (Z.pos m2) r) eqn:El.
    + apply new_location_exact in El. nia.
    + apply new_location_inexact in El.
      assert (q < 2 ^ (- e')) by nia. lia.
  - unfold near. rewrite shr_m_of_loc, ceil_of_loc, Z.sub_diag, Z.pow_0_r.
    split; [lia|].
    destruct (new_location (Z.pos m2) r) eqn:El.
    + apply new_location_exact in El. split; nia.
    + apply new_location_inexact in El. split; nia.
  - exists mq, eq. split; [exact Hres|].
    replace (0 - eq) with (- eq) in Hmq by lia.
    split; [lia|]. split; [lia|].
    assert (Hsplit : 2 ^ s = 2 ^ (e1 - e2 - eq) * 2 ^ (eq - e')).
    { rewrite <- Z.pow_add_r by lia. f_equal. subst s. lia. }
    assert (HP : 0 < 2 ^ (eq - e')) by (apply Z.pow_pos_nonneg; lia).
    assert (HA : 0 < 2 ^ (e1 - e2 - eq)) by (apply Z.pow_pos_nonneg; lia).
    rewrite Hm', Hsplit in Hlo, Hhi.
    set (A := 2 ^ (e1 - e2 - eq)) in *. set (P := 2 ^ (eq - e')) in *.
    split.
    + apply (Z.mul_lt_mono_pos_r P); [exact HP|]. lia.
    + apply (Z.mul_lt_mono_pos_r P); [exact HP|]. lia.
Qed.

(** A float at most one times a hundred is within one unit in the last
    place of the exact product, at an exponent of at most -46. *)
Lemma float64_mul_100_near (mq : positive) (eq : Z) :
  eq <= 0 -> Z.pos mq <= 2 ^ (- eq) ->
  exists mp ep,
    (mp = 0
     /\ float64_mul (S754_finite false mq eq) (float64_of_Z 100)
        = S754_zero false
     \/ exists p, mp = Z.pos p
          /\ float64_mul (S754_finite false mq eq) (float64_of_Z 100)
             = S754_finite false p ep)
    /\ 0 <= mp <= 25 * 2 ^ (2 - ep) /\ ep <= -46 /\ eq - 46 <= ep
    /\ Z.pos mq * (100 * 2 ^ 46) < (mp + 1) * 2 ^ (ep - eq + 46)
    /\ (mp - 1) * 2 ^ (ep - eq + 46) < Z.pos mq * (100 * 2 ^ 46).
Proof.
  intros He Hm.
  change (float64_of_Z 100) with (S754_finite false 7036874417766400 (-46)).
  unfold float64_mul, SFmul. simpl xorb.
  destruct (binary_round_aux_near (Z.pos mq * (100 * 2 ^ 46)) 1 (eq - 46)
              ltac:(lia) 25 2 5 ltac:(lia) ltac:(reflexivity) ltac:(lia)
              ltac:(lia)
              (Z.pos (mq * 7036874417766400)) (eq + -46) loc_Exact)
    as (mp & ep & Hres & Hmp & Hep & Hex & HE & Hlo & Hhi).
  - unfold under. rewrite shr_m_of_loc, ceil_of_loc.
    split; [lia|]. split; [lia|].
    replace (2 - (eq + -46)) with (48 + - eq) by lia.
    rewrite Z.pow_add_r by lia.
    rewrite Pos2Z.inj_mul.
    change (Z.pos 7036874417766400) with (25 * 2 ^ 48). nia.
  - unfold near. rewrite shr_m_of_loc, ceil_of_loc.
    replace (eq + -46 - (eq - 46)) with 0 by lia. rewrite Z.pow_0_r.
    rewrite Pos2Z.inj_mul.
    change (Z.pos 7036874417766400) with (100 * 2 ^ 46).
    split; [lia|]. split; lia.
  - exists mp, ep. split; [exact Hres|].
    replace (ep - (eq - 46)) with (ep - eq + 46) in * by lia.
    split; [exact Hmp|]. split; [lia|]. split; [lia|]. split; lia.
Qed.

Lemma iter_xO_spec (p j : positive) :
  Z.pos (Pos.iter xO p j) = Z.pos p * 2 ^ Z.pos j
  /\ Z.pos (digits2_pos (Pos.iter xO p j)) = Z.pos (digits2_pos p) + Z.pos j.
Proof.
  induction j as [|j IH] using Pos.peano_ind.
  - simpl. split; lia.
  - rewrite Pos.iter_succ. destruct IH as [IH1 IH2]. split.
    + rewrite Pos2Z.inj_xO, IH1, Pos2Z.inj_succ, Z.pow_succ_r by lia. lia.
    + simpl digits2_pos. rewrite !Pos2Z.inj_succ, IH2. lia.
Qed.

(** An input already in canonical form is returned as it is. *)
Lemma binary_round_aux_canonical (m : positive) (e : Z) :
  fexp 53 1024 (Z.pos (digits2_pos m) + e) = e -> e <= 971 ->
  binary_round_aux 53 1024 false (Z.pos m) e loc_Exact = S754_finite false m e.
Proof.
  intros Hc He. unfold binary_round_aux, shr_fexp. simpl Zdigits2.
  rewrite Hc, Z.sub_diag. simpl.
  rewrite Hc, Z.sub_diag. simpl.
  replace (e <=? 1024 - 53) with true by (symmetry; apply Z.leb_le; lia).
  reflexivity.
Qed.

(** Integers below 2^53 convert exactly, to a mantissa of 53 digits. *)
Lemma float64_of_Z_exact (n : Z) :
  0 < n < 2 ^ 53 ->
  exists m e,
    float64_of_Z n = S754_finite false m e
    /\ e = Zdigits2 n - 53 /\ e <= 0 /\ Z.pos m = n * 2 ^ (- e)
    /\ Zdigits2 (Z.pos m) = 53.
Proof.
  intros [Hpos Hlt]. destruct n as [|p|p]; try lia.
  pose proof (Zdigits2_le (Z.pos p) 53 ltac:(lia) ltac:(lia)) as Hd.
  simpl in Hd.
  unfold float64_of_Z, binary_normalize, binary_round, shl_align.
  simpl Zdigits2. set (d := Z.pos (digits2_pos p)) in *.
  assert (Hf : fexp 53 1024 (d + 0) = d - 53)
    by (unfold fexp, emin; subst d; lia).
  rewrite Hf.
  destruct (d - 53 - 0) as [|j|j] eqn:Ej; try lia.
  - exists p, 0. split.
    + apply binary_round_aux_canonical; [|lia].
      fold d. unfold fexp, emin. lia.
    + fold d. repeat split; lia.
  - destruct (iter_xO_spec p j) as [Hv Hdig].
    exists (Pos.iter xO p j), (d - 53). split.
    + apply binary_round_aux_canonical; [|lia].
      rewrite Hdig. fold d. unfold fexp, emin. lia.
    + split; [reflexivity|]. split; [lia|]. split.
      * rewrite Hv. f_equal. f_equal. lia.
      * rewrite Hdig. fold d. lia.
Qed.

Lemma Zdigits2_mono (c t : Z) : 0 < c <= t -> Zdigits2 c <= Zdigits2 t.
Proof.
  intros [Hc Hle]. destruct t as [|q|q]; try lia.
  apply Zdigits2_le; [|simpl; lia]. split; [lia|]. simpl.
  rewrite digits2_pos_size.
  pose proof (Pos.size_gt q) as Hgt.
  apply Pos2Z.pos_lt_pos in Hgt. rewrite Pos2Z.inj_pow in Hgt. lia.
Qed.

(** Percent-complete is never below the floor of the exact percentage
    less one, and never above that floor when the total is at most 2^44;
    it lies between 0 and 100, and is 100 when all sections are
    completed. *)
Lemma percent_of_near_floor (completed total : Z) :
  0 <= completed <= total -> 0 < total < 2 ^ 53 ->
  exists v,
    percent_of completed total = Some v
    /\ 0 <= v <= 100
    /\ 100 * completed / total - 1 <= v
    /\ (total <= 2 ^ 44 -> v <= 100 * completed / total)
    /\ (completed = total -> v = 100).
Proof.
  intros [Hc Hle] Ht. unfold percent_of.
  assert (HF : 0 <= 100 * completed / total) by (apply Z.div_pos; lia).
  destruct (float64_of_Z_exact total Ht)
    as (m2 & e2 & -> & He2 & He2' & Hm2 & Hd2).
  destruct (Z.eq_dec completed 0) as [->|Hne].
  { exists 0. split; [reflexivity|]. rewrite Z.mul_0_r, Z.div_0_l by lia. lia. }
  destruct (float64_of_Z_exact completed ltac:(lia))
    as (m1 & e1 & -> & He1 & He1' & Hm1 & Hd1).
  pose proof (Zdigits2_mono completed total ltac:(lia)) as Hd.
  assert (Hdc : 1 <= Zdigits2 completed)
    by (destruct completed; simpl; lia).
  assert (He : e1 <= e2) by lia.
  assert (Hpow : 2 ^ (- e1) = 2 ^ (- e2) * 2 ^ (e2 - e1))
    by (rewrite <- Z.pow_add_r by lia; f_equal; lia).
  assert (H1 : 0 < 2 ^ (- e1)) by (apply Z.pow_pos_nonneg; lia).
  assert (H2 : 0 < 2 ^ (- e2)) by (apply Z.pow_pos_nonneg; lia).
  destruct (float64_div_near m1 e1 m2 e2 ltac:(lia) He He2' ltac:(nia)
              ltac:(congruence))
    as (mq & eq & Hq & Hmq & Heq & Hqlo & Hqhi).
  (* the quotient against the exact one *)
  set (A := 2 ^ (- eq)) in *.
  assert (HA : 2 ^ 52 <= A) by (apply Z.pow_le_mono_r; lia).
  assert (Hqlo' : completed * A < total * (mq + 1)
                  /\ total * (mq - 1) < completed * A).
  { assert (Hs1 : 2 ^ (- e1) * 2 ^ (e1 - e2 - eq) = 2 ^ (- e2) * A).
    { subst A. rewrite <- !Z.pow_add_r by lia. f_equal. lia. }
    rewrite Hm1, Hm2 in Hqlo, Hqhi.
    split; apply (Z.mul_lt_mono_pos_r (2 ^ (- e2))); try exact H2; nia. }
  destruct Hqlo' as [Hlo Hhi]. clear Hqlo Hqhi.
  change (2 ^ 52) with 4503599627370496 in HA.
  destruct Hq as [[-> ->]|(pq & -> & ->)].
  { exists 0. split; [reflexivity|]. split; [lia|].
    assert (100 * completed / total = 0)
      by (apply Z.div_small; nia).
    split; [lia|]. split; [lia|].
    intros ->. exfalso. nia. }
  destruct (float64_mul_100_near pq eq ltac:(lia) ltac:(exact (proj2 Hmq)))
    as (mp & ep & Hp & Hmp & Hep & Hepl & Hplo & Hphi).
  set (W := 2 ^ (ep - eq + 46)) in *.
  set (B := 2 ^ (- ep)) in *.
  assert (HB : 0 < B) by (apply Z.pow_pos_nonneg; lia).
  assert (HW : 0 < W) by (apply Z.pow_pos_nonneg; lia).
  assert (HBW : B * W = A * 2 ^ 46).
  { subst A B W. rewrite <- !Z.pow_add_r by lia. f_equal. lia. }
  assert (HWA : W <= A) by (apply Z.pow_le_mono_r; lia).
  assert (H25 : 2 ^ (2 - ep) = 4 * B).
  { subst B. replace (2 - ep) with (2 + - ep) by lia.
    rewrite Z.pow_add_r by lia. reflexivity. }
  rewrite H25 in Hmp.
  change (2 ^ 46) with 70368744177664 in *.
  set (v := mp / B).
  assert (Hv : v * B <= mp < (v + 1) * B).
  { subst v. pose proof (Z.mul_div_le mp B HB).
    pose proof (Z.mul_succ_div_gt mp B HB). lia. }
  assert (Hv0 : 0 <= v <= 100).
  { split; [apply Z.div_pos; lia|].
    apply Z.div_le_upper_bound; [lia|]. lia. }
  assert (Hlower : 100 * completed / total - 1 <= v).
  { assert (100 * completed / total < v + 2); [|lia].
    apply Z.div_lt_upper_bound; [lia|].
    assert (Ha : Z.pos pq * 100 < (v + 1) * A).
    { apply (Z.mul_lt_mono_pos_r 70368744177664); [lia|]. nia. }
    apply (Z.mul_lt_mono_pos_r A); [lia|]. nia. }
  assert (Hupper : total <= 2 ^ 44 -> v <= 100 * completed / total).
  { intros Hsmall. change (2 ^ 44) with 17592186044416 in Hsmall.
    apply Z.div_le_lower_bound; [lia|].
    destruct (Z_le_gt_dec (total * v) (100 * completed)) as [|Hgt];
      [assumption|exfalso].
    assert (Ha : v * A * 70368744177664 < Z.pos pq * 100 * 70368744177664 + A)
      by nia.
    assert (Hb : total * Z.pos pq <= completed * A + total - 1) by lia.
    assert (Hc' : total * v * A * 70368744177664
                  < (completed * A + total) * 100 * 70368744177664 + total * A)
      by nia.
    nia. }
  assert (Hfull : completed = total -> v = 100).
  { intros ->.
    assert (Z.pos pq = A) by nia.
    assert (100 <= v); [|lia].
    apply Z.div_le_lower_bound; [lia|].
    assert (100 * B * W < (mp + 1) * W) by nia.
    assert (100 * B < mp + 1)
      by (apply (Z.mul_lt_mono_pos_r W); [exact HW | assumption]).
    lia. }
  destruct Hp as [[Hz ->]|(pp & Hpp & ->)].
  - exists 0. split; [reflexivity|].
    assert (Hv00 : v = 0) by (subst v; rewrite Hz; apply Z.div_0_l; lia).
    rewrite Hv00 in *. repeat split; try lia; assumption.
  - exists v. unfold int64_of_float64.
    assert (Hsh : Z.shiftl (Z.pos pp) ep = v).
    { rewrite Z.shiftl_div_pow2 by lia. subst v B. rewrite Hpp. reflexivity. }
    rewrite Hsh. unfold in_int64.
    replace (- 2 ^ 63 <=? v) with true by (symmetry; apply Z.leb_le; lia).
    replace (v <? 2 ^ 63) with true by (symmetry; apply Z.ltb_lt; lia).
    split; [reflexivity|]. split; [exact Hv0|]. repeat split; assumption.
Qed.

(** ** Progress accounting *)

Lemma wrap32_small (x : Z) : int32_min <= x <= int32_max -> wrap32 x = x.
Proof.
  unfold wrap32, int32_min, int32_max. intros H.
  rewrite Z.mod_small by lia. lia.
Qed.

Lemma wrap32_plus (x y : Z) : wrap32 (wrap32 x + y) = wrap32 (x + y).
Proof.
  unfold wrap32.
  replace ((x + 2 ^ 31) mod 2 ^ 32 - 2 ^ 31 + y + 2 ^ 31)
    with ((x + 2 ^ 31) mod 2 ^ 32 + y) by lia.
  rewrite Zplus_mod_idemp_l. do 2 f_equal. lia.
Qed.

(** A step leaves [SectionsCompleted] and the number of goroutines past
    the increment alone, or is an increment and adds one to both. *)
Lemma counted_step st ev st' :
  step st ev st' ->
  (count_pc counted (s_tasks st') = count_pc counted (s_tasks st)
   /\ SectionsCompleted (s_progress st') = SectionsCompleted (s_progress st))
  \/ (count_pc counted (s_tasks st') = S (count_pc counted (s_tasks st))
      /\ SectionsCompleted (s_progress st')
         = wrap32 (SectionsCompleted (s_progress st) + 1)).
Proof.
  intros (ch & _ & Hfire).
  destruct ch; fire_cases Hfire; cbn; rewrite ?count_pc_app; cbn;
    count_facts; cbn in *;
    repeat match goal with
      | p : Pending |- _ => destruct p as [[?|]|?]
      | o : option string |- _ => destruct o
      | H : persistableCache_Set _ _ _ _ _ = Some _ |- _ =>
          apply persistableCache_Set_counters in H as (? & _)
      end; cbn in *;
    first [ left; split; [lia | congruence]
          | right; split; [lia | reflexivity] ].
Qed.

Lemma completed_exec st tr st' c0 :
  exec st tr st' ->
  SectionsCompleted (s_progress st)
  = wrap32 (c0 + Z.of_nat (count_pc counted (s_tasks st))) ->
  SectionsCompleted (s_progress st')
  = wrap32 (c0 + Z.of_nat (count_pc counted (s_tasks st'))).
Proof.
  induction 1 as [|st ev st1 tr st2 Hstep _ IH]; intros H0; [exact H0|].
  apply IH.
  destruct (counted_step _ _ _ Hstep) as [[Hn Hc]|[Hn Hc]];
    rewrite Hn, Hc, H0; [reflexivity|].
  rewrite wrap32_plus. f_equal. lia.
Qed.

(** Goroutines are only added, one for each element taken from
    [objectCh] at most. *)
Lemma spawned_step st ev st' :
  step st ev st' ->
  (length (s_tasks st) <= length (s_tasks st'))%nat
  /\ (length (s_tasks st') + length (s_objectCh st')
      <= length (s_tasks st) + length (s_objectCh st))%nat.
Proof.
  intros (ch & _ & Hfire).
  destruct ch; fire_cases Hfire; cbn;
    rewrite ?length_app, ?length_insert;
    repeat match goal with
      | H : s_objectCh _ = _ |- _ => rewrite H
      end; cbn; lia.
Qed.

Lemma spawned_exec st tr st' :
  exec st tr st' ->
  (length (s_tasks st) <= length (s_tasks st'))%nat
  /\ (length (s_tasks st') + length (s_objectCh st')
      <= length (s_tasks st) + length (s_objectCh st))%nat.
Proof.
  induction 1 as [|st ev st1 tr st2 Hstep _ IH]; [lia|].
  pose proof (spawned_step _ _ _ Hstep). lia.
Qed.

(** C4 (progress accounting), as the code has it.  In a run of [Chunks]
    whose initial sections-completed plus the number of listed elements
    fits an [int32]: sections-completed is the initial value plus the
    number of goroutines that have executed the increment, so it is at
    least the initial value and exceeds it by no more than the number of
    goroutines started, itself at most the number of listed elements; no
    step decreases it; and whenever the mutex is free the counters are
    the initial ones or percent-complete is the [int64] truncation of the
    [float64] expression over the current sections-completed and the
    enumerated total.  As long as sections-completed is between 0 and a
    total below 2^53, that number is between 0 and 100, it is never
    below the floor of 100*completed/total less one, never above that
    floor for totals up to 2^44, and it is 100 when sections-completed
    equals the total. *)
Theorem progress_accounting
    (s : Source) (p : Progress) (ctx : option string) (ready : bool)
    (objs : list item) (tr : list Event) (st : State) :
  int32_min <= SectionsCompleted p ->
  SectionsCompleted p + Z.of_nat (length objs) <= int32_max ->
  exec (Chunks_begin s p ctx ready objs) tr st ->
  SectionsCompleted (s_progress st)
  = SectionsCompleted p + Z.of_nat (count_pc counted (s_tasks st))
  /\ (count_pc counted (s_tasks st) <= length (s_tasks st) <= length objs)%nat
  /\ (forall ev st',
        step st ev st' ->
        SectionsCompleted (s_progress st) <= SectionsCompleted (s_progress st'))
  /\ (s_mu st = false ->
      same_counters (s_progress st) p
      \/ (match percent_of (SectionsCompleted (s_progress st))
                           (Z.of_N (numObjects (stats s))) with
          | Some v => PercentComplete (s_progress st) = v
          | None => True
          end
          /\ (0 <= SectionsCompleted (s_progress st)
                  <= Z.of_N (numObjects (stats s)) ->
              0 < Z.of_N (numObjects (stats s)) < 2 ^ 53 ->
              0 <= PercentComplete (s_progress st) <= 100
              /\ 100 * SectionsCompleted (s_progress st)
                   / Z.of_N (numObjects (stats s)) - 1
                 <= PercentComplete (s_progress st)
              /\ (Z.of_N (numObjects (stats s)) <= 2 ^ 44 ->
                  PercentComplete (s_progress st)
                  <= 100 * SectionsCompleted (s_progress st)
                     / Z.of_N (numObjects (stats s)))
              /\ (SectionsCompleted (s_progress st)
                  = Z.of_N (numObjects (stats s)) ->
                  PercentComplete (s_progress st) = 100)))).
Proof.
  intros Hlo Hhi Hexec.
  set (st0 := Chunks_begin s p ctx ready objs) in *.
  assert (Hinit : SectionsCompleted (s_progress st0)
                  = wrap32 (SectionsCompleted p
                            + Z.of_nat (count_pc counted (s_tasks st0)))).
  { cbn. rewrite Z.add_0_r, wrap32_small; [reflexivity|lia]. }
  assert (Hbound : forall tr' st',
             exec st0 tr' st' ->
             SectionsCompleted (s_progress st')
             = SectionsCompleted p + Z.of_nat (count_pc counted (s_tasks st'))
             /\ (count_pc counted (s_tasks st') <= length (s_tasks st')
                 <= length objs)%nat).
  { intros tr' st' Hex.
    pose proof (completed_exec _ _ _ _ Hex Hinit) as Hc.
    pose proof (spawned_exec _ _ _ Hex) as [_ Hlen]. cbn in Hlen.
    pose proof (count_pc_le_length counted (s_tasks st')) as Hle.
    split; [|lia].
    rewrite Hc. apply wrap32_small. lia. }
  destruct (Hbound _ _ Hexec) as [Hc Hlen].
  split; [exact Hc|]. split; [exact Hlen|]. split.
  - intros ev st' Hstep.
    assert (Hex' : exec st0 (tr ++ [ev]) st').
    { clear -Hexec Hstep. induction Hexec; simpl.
      - econstructor; [exact Hstep | constructor].
      - econstructor; [eassumption | apply IHHexec, Hstep]. }
    destruct (Hbound _ _ Hex') as [Hc' _].
    destruct (counted_step _ _ _ Hstep) as [[Hn _]|[Hn _]]; lia.
  - intros Hmu.
    pose proof (counters_inv_exec p _ _ _ Hexec (wf_begin s p ctx ready objs)
                  (counters_inv_begin s p ctx ready objs)) as (Hfree & _ & _).
    rewrite (src_exec _ _ _ Hexec) in Hfree. cbn in Hfree.
    destruct (Hfree Hmu) as [Hsame|[_ Hpct]]; [left; exact Hsame|].
    right. split.
    + destruct (percent_of _ _); [exact Hpct | exact I].
    + intros Hrange Htotal.
      destruct (percent_of_near_floor _ _ Hrange Htotal) as (v & Hv & Hb).
      rewrite Hv in Hpct. rewrite Hpct. exact Hb.
Qed.

Lemma progress_accounting_witness :
  SectionsCompleted
    (s_progress (snd (outcome (fst run_inside) (snd run_inside)))) = 1.
Proof.
  assert (Hlo : int32_min <= SectionsCompleted progress0)
    by (vm_compute; discriminate).
  assert (Hhi : SectionsCompleted progress0 + Z.of_nat 2 <= int32_max)
    by (vm_compute; discriminate).
  rewrite (proj1 (progress_accounting (sample_source 2) progress0 None true
                    [ItemObject (sample_object "a"); ItemObject (sample_object "b")]
                    _ _ Hlo Hhi run_inside_exec)).
  vm_compute. reflexivity.
Defined.

Lemma run_over_total_exec :
  exec (fst run_over_total)
       (fst (outcome (fst run_over_total) (snd run_over_total)))
       (snd (outcome (fst run_over_total) (snd run_over_total))).
Proof.
  apply outcome_exec; [|vm_compute; reflexivity].
  unfold run_over_total, snd.
  repeat first [ apply Forall_app_2
               | apply valid_whole_task
               | apply Forall_cons_2; [exact I|]
               | apply Forall_nil_2 ].
Qed.

(** C4 as stated fails twice.  With one object enumerated and two
    listed, the run that processes both ends with sections-completed 2,
    above the total 1, and percent-complete 200, above 100.  And with 28
    of 100 done, the next [setProgress] stores sections-completed 29 and
    percent-complete 28, which is not the floor of 29/100*100. *)
Lemma progress_exceeds_total_and_misses_floor :
  (exec (fst run_over_total)
        (fst (outcome (fst run_over_total) (snd run_over_total)))
        (snd (outcome (fst run_over_total) (snd run_over_total)))
   /\ numObjects (stats (s_src (fst run_over_total))) = 1%N
   /\ SectionsCompleted
        (s_progress (snd (outcome (fst run_over_total) (snd run_over_total)))) = 2
   /\ PercentComplete
        (s_progress (snd (outcome (fst run_over_total) (snd run_over_total)))) = 200)
  /\ (option_map (fun r => (SectionsCompleted (fst r), PercentComplete (fst r)))
        (setProgress id 0 (sample_source 100) "z" progress28 (setupCache progress0))
      = Some (29, 28)
      /\ 29 * 100 / 100 = 29).
Proof.
  split; [split; [exact run_over_total_exec|]|]; vm_compute; repeat split.
Qed.

(** ** The control loop *)

Lemma exec_snoc st tr st1 ev st2 :
  exec st tr st1 -> step st1 ev st2 -> exec st (tr ++ [ev]) st2.
Proof.
  induction 1 as [|st ev0 sta tr stb Hstep _ IH]; intros Hlast; simpl.
  - econstructor; [exact Hlast | constructor].
  - econstructor; [exact Hstep | apply IH, Hlast].
Qed.

Lemma exec_snoc_inv st tr ev st2 :
  exec st (tr ++ [ev]) st2 -> exists st1, exec st tr st1 /\ step st1 ev st2.
Proof.
  revert st. induction tr as [|e tr IH]; intros st H; simpl in H.
  - inversion H as [|? ? ? ? ? Hstep Hrest]; subst.
    inversion Hrest; subst. exists st. split; [constructor | exact Hstep].
  - inversion H as [|? ? sta ? ? Hstep Hrest]; subst.
    destruct (IH _ Hrest) as (st1 & Hex & Hlast).
    exists st1. split; [econstructor; eassumption | exact Hlast].
Qed.

(** Induction on a run, adding steps at its end. *)
Lemma exec_ind_end (P : list Event -> State -> Prop) (st0 : State) :
  P [] st0 ->
  (forall tr st ev st',
      exec st0 tr st -> P tr st -> step st ev st' -> P (tr ++ [ev]) st') ->
  forall tr st, exec st0 tr st -> P tr st.
Proof.
  intros Hnil Hsnoc tr.
  induction tr as [|ev tr IH] using rev_ind; intros st Hexec.
  - inversion Hexec; subst. exact Hnil.
  - apply exec_snoc_inv in Hexec as (st1 & Hex & Hlast).
    eapply Hsnoc; [exact Hex | apply IH, Hex | exact Hlast].
Qed.

(** Left alone, the loop takes every element that is left. *)
Lemma loop_drains (st : State) :
  s_control st = CRange ->
  exists evs st',
    run st (repeat RunControl (length (s_objectCh st))) = Some (evs, st')
    /\ s_objectCh st' = [] /\ s_control st' = CRange
    /\ Forall (fun ev => dequeues ev = true) evs
    /\ length evs = length (s_objectCh st).
Proof.
  remember (s_objectCh st) as l eqn:Hl. revert st Hl.
  induction l as [|x l IH]; intros st Hl Hc; simpl.
  - exists [], st. auto.
  - unfold fire_control. rewrite Hc, <- Hl.
    destruct x as [o|ty]; [destruct (memory.Exists _ _)|];
      match goal with
      | |- context [run ?st1 _] =>
          destruct (IH st1 eq_refl Hc) as (evs & st' & -> & ? & ? & ? & ?)
      end;
      eexists _, _; (split; [reflexivity|]);
      repeat split; auto; simpl; congruence.
Qed.

(** C10 (element of an unexpected type).  When the loop receives an
    element that is not an [object], its step logs the type and drops the
    element: no goroutine is added, the wait group, the cache, the
    progress and the output channel are as before, the loop is still
    running on the rest of the sequence, and left alone it takes every
    remaining element. *)
Theorem unexpected_type_skipped (st : State) (ty : string) (rest : list item) :
  s_control st = CRange ->
  s_objectCh st = ItemOther ty :: rest ->
  exists st',
    fire st RunControl = Some (EvUnexpectedType ty, st')
    /\ s_tasks st' = s_tasks st /\ s_wg st' = s_wg st
    /\ s_cache st' = s_cache st /\ s_progress st' = s_progress st
    /\ s_chunksCh st' = s_chunksCh st
    /\ s_control st' = CRange /\ s_objectCh st' = rest
    /\ exists evs st'',
         run st' (repeat RunControl (length rest)) = Some (evs, st'')
         /\ s_objectCh st'' = []
         /\ Forall (fun ev => dequeues ev = true) evs
         /\ length evs = length rest.
Proof.
  intros Hc Hch. exists (with_objectCh st rest).
  split; [unfold fire, fire_control; rewrite Hc, Hch; reflexivity|].
  repeat (split; [first [reflexivity | exact Hc]|]).
  destruct (loop_drains (with_objectCh st rest) Hc)
    as (evs & st'' & Hrun & Hnil & _ & Hall & Hlen).
  exists evs, st''. auto.
Qed.

Lemma unexpected_type_skipped_witness :
  exists st',
    fire (snd (outcome (fst run_resumed) [RunControl])) RunControl
    = Some (EvUnexpectedType "int", st')
    /\ s_tasks st' = [] /\ s_objectCh st' = [ItemObject (sample_object "b")].
Proof.
  destruct (unexpected_type_skipped
              (snd (outcome (fst run_resumed) [RunControl])) "int"
              [ItemObject (sample_object "b")])
    as (st' & Hfire & Htasks & _ & _ & _ & _ & _ & Hrest & _).
  - vm_compute. reflexivity.
  - vm_compute. reflexivity.
  - exists st'. split; [exact Hfire|]. split; [|exact Hrest].
    rewrite Htasks. vm_compute. reflexivity.
Defined.

Lemma persistableCache_Set_cache ord c p key val c' p' :
  persistableCache_Set ord c p key val = Some (c', p') ->
  Cache c' = memory.Set_ (Cache c) key val.
Proof.
  unfold persistableCache_Set. intros H.
  repeat case_match; simplify_eq; reflexivity.
Qed.

(** No key leaves the cache. *)
Lemma cache_grows_step st ev st' k :
  step st ev st' ->
  memory.Exists (Cache (s_cache st)) k = true ->
  memory.Exists (Cache (s_cache st')) k = true.
Proof.
  intros (ch & _ & Hfire) Hk.
  destruct ch; fire_cases Hfire; cbn; try exact Hk.
  match goal with
  | H : persistableCache_Set _ _ _ _ _ = Some _ |- _ =>
      rewrite (persistableCache_Set_cache _ _ _ _ _ _ _ H)
  end.
  rewrite Exists_Set, Hk. apply orb_true_r.
Qed.

(** With [k] in the cache and no goroutine for an object named [k], a
    step is not about such an object and starts no goroutine for one. *)
Lemma cached_step st ev st' k :
  memory.Exists (Cache (s_cache st)) k = true ->
  Forall (fun t => name (t_obj t) <> k) (s_tasks st) ->
  step st ev st' ->
  ~ works_on k ev
  /\ Forall (fun t => name (t_obj t) <> k) (s_tasks st').
Proof.
  intros Hk Hall (ch & _ & Hfire).
  assert (Hat : forall i o pc,
             s_tasks st !! i = Some (mkTask o pc) -> name o <> k).
  { intros i o pc Hi. apply (Forall_lookup_1 _ _ _ _ Hall Hi). }
  destruct ch; fire_cases Hfire; cbn;
    try (split; [tauto | exact Hall]);
    try (split; [eapply Hat; eassumption
                | apply Forall_insert; [exact Hall | eapply Hat; eassumption]]).
  assert (name o <> k) by congruence.
  split; [assumption|].
  apply Forall_app. split; [exact Hall | repeat constructor; assumption].
Qed.

(** The output channel holds what the steps have put on it. *)
Lemma chunks_step st ev st' :
  step st ev st' -> s_chunksCh st' = s_chunksCh st ++ chunks_of ev.
Proof.
  intros (ch & _ & Hfire).
  destruct ch; fire_cases Hfire; cbn; rewrite ?app_nil_r; try reflexivity.
  match goal with
  | H : processObject_select _ _ = _ |- _ => rewrite H
  end.
  reflexivity.
Qed.

Lemma chunks_exec st tr st' :
  exec st tr st' ->
  s_chunksCh st' = s_chunksCh st ++ concat (map chunks_of tr).
Proof.
  induction 1 as [|st ev st1 tr st2 Hstep _ IH]; simpl.
  - rewrite app_nil_r. reflexivity.
  - rewrite IH, (chunks_step _ _ _ Hstep), <- app_assoc. reflexivity.
Qed.

(** ** Idempotent resume *)

(** C1 (idempotent resume).  In a run of [Chunks] whose cache, built
    from the resume information, has the key [k]: no step starts a
    goroutine for an object named [k] or belongs to one, the output
    channel holds nothing but the chunks put there by those steps (so
    none for such an object), and [k] stays in the cache.  And in any
    state, when the loop
    receives an object whose name is in the cache, its step is the skip:
    it only takes the element off the sequence, adding no goroutine and
    leaving wait group, cache, progress and output channel as they
    were. *)
Theorem cached_object_skipped
    (s : Source) (p : Progress) (ctx : option string) (ready : bool)
    (objs : list item) (tr : list Event) (st : State) (k : string) :
  memory.Exists (Cache (setupCache p)) k = true ->
  exec (Chunks_begin s p ctx ready objs) tr st ->
  Forall (fun ev => ~ works_on k ev) tr
  /\ s_chunksCh st = concat (map chunks_of tr)
  /\ Forall (fun t => name (t_obj t) <> k) (s_tasks st)
  /\ memory.Exists (Cache (s_cache st)) k = true
  /\ (forall st1 o rest,
        s_control st1 = CRange ->
        s_objectCh st1 = ItemObject o :: rest ->
        memory.Exists (Cache (s_cache st1)) (name o) = true ->
        exists st',
          fire st1 RunControl = Some (EvSkip o, st')
          /\ s_tasks st' = s_tasks st1 /\ s_wg st' = s_wg st1
          /\ s_cache st' = s_cache st1 /\ s_progress st' = s_progress st1
          /\ s_chunksCh st' = s_chunksCh st1
          /\ s_control st' = CRange /\ s_objectCh st' = rest).
Proof.
  intros Hk Hexec.
  assert (Hrun : Forall (fun ev => ~ works_on k ev) tr
                 /\ Forall (fun t => name (t_obj t) <> k) (s_tasks st)
                 /\ memory.Exists (Cache (s_cache st)) k = true).
  { revert tr st Hexec. apply exec_ind_end.
    - repeat split; [constructor | constructor | exact Hk].
    - intros tr st ev st' _ (Htr & Htasks & Hcache) Hstep.
      destruct (cached_step _ _ _ _ Hcache Htasks Hstep) as [Hev Htasks'].
      repeat split.
      + apply Forall_app. split; [exact Htr | repeat constructor; exact Hev].
      + exact Htasks'.
      + eapply cache_grows_step; eassumption. }
  destruct Hrun as (Htr & Htasks & Hcache).
  split; [exact Htr|]. split; [exact (chunks_exec _ _ _ Hexec)|].
  repeat (split; [assumption|]).
  intros st1 o rest Hc Hch Hin. exists (with_objectCh st1 rest).
  split; [unfold fire, fire_control; rewrite Hc, Hch, Hin; reflexivity|].
  repeat (split; [first [reflexivity | exact Hc]|]). reflexivity.
Qed.

Lemma run_resumed_exec :
  exec (fst run_resumed) (fst (outcome (fst run_resumed) (snd run_resumed)))
       (snd (outcome (fst run_resumed) (snd run_resumed))).
Proof.
  apply outcome_exec; [unfold run_resumed; simpl; valid_schedule|].
  vm_compute. reflexivity.
Qed.

Lemma cached_object_skipped_witness :
  Forall (fun ev => ~ works_on "a" ev)
         (fst (outcome (fst run_resumed) (snd run_resumed))).
Proof.
  refine (proj1 (cached_object_skipped (sample_source 3)
                   (set_EncodedResumeInfo progress0 "a,c") None true
                   [ItemObject (sample_object "a"); ItemOther "int";
                    ItemObject (sample_object "b")] _ _ "a"
                   _ run_resumed_exec)).
  vm_compute. reflexivity.
Defined.

(** ** Return of [Chunks] *)

Lemma exited_of_not_live (ts : list Task) :
  count_pc live ts = 0%nat ->
  Forall (fun t => exists err, t_pc t = TExited err) ts.
Proof.
  intros H. apply count_pc_zero in H.
  eapply Forall_impl; [exact H|].
  intros [o pc] Hpc. simpl in *. destruct pc; try discriminate. eauto.
Qed.

Lemma count_pc_none (f g : TaskPC -> bool) (ts : list Task) :
  (forall pc, f pc = true -> g pc = true) ->
  count_pc g ts = 0%nat -> count_pc f ts = 0%nat.
Proof.
  intros Himp. induction ts as [|t ts IH]; simpl; [reflexivity|].
  destruct (g (t_pc t)) eqn:Eg; [lia|].
  destruct (f (t_pc t)) eqn:Ef; [|exact IH].
  rewrite (Himp _ Ef) in Eg. discriminate.
Qed.

Lemma returned_no_live st i t :
  wf st -> s_control st = CReturned ->
  s_tasks st !! i = Some t -> live (t_pc t) = false.
Proof.
  intros (_ & Hwg & _ & Hz & _) Hc Hi.
  specialize (Hz Hc). destruct (live (t_pc t)) eqn:E; [|reflexivity].
  pose proof (count_pc_lookup live _ _ _ Hi E). lia.
Qed.

(** Once [Chunks] has returned the message is the completion message. *)
Lemma message_step st ev st' :
  wf st ->
  (s_control st = CReturned ->
   Message (s_progress st) = completion_message (s_src st)) ->
  step st ev st' ->
  s_control st' = CReturned ->
  Message (s_progress st') = completion_message (s_src st').
Proof.
  intros Hwf Hmsg (ch & _ & Hfire) Hret.
  destruct ch as [|i env|err|b].
  - fire_cases Hfire; cbn in *; try congruence; reflexivity.
  - fire_cases Hfire; cbn in *;
      match goal with
      | H : s_tasks _ !! _ = Some _ |- _ =>
          pose proof (returned_no_live _ _ _ Hwf Hret H) as Hlive;
          simpl in Hlive; discriminate
      end.
  - fire_cases Hfire; cbn in *. auto.
  - fire_cases Hfire; cbn in *. auto.
Qed.

(** Every event that takes an element shortens the sequence by one. *)
Lemma dequeue_step st ev st' :
  step st ev st' ->
  (length (s_objectCh st)
   = (if dequeues ev then 1 else 0) + length (s_objectCh st'))%nat.
Proof.
  intros (ch & _ & Hfire).
  destruct ch; fire_cases Hfire; cbn;
    repeat match goal with
      | H : s_objectCh _ = _ |- _ => rewrite H
      end; reflexivity.
Qed.

Lemma count_events_snoc f tr ev :
  count_events f (tr ++ [ev])
  = (count_events f tr + (if f ev then 1 else 0))%nat.
Proof.
  unfold count_events. rewrite List.filter_app, length_app. simpl.
  destruct (f ev); reflexivity.
Qed.

(** C8 (return of [Chunks]), as the code has it.  When a run of
    [Chunks] has returned, the object sequence is exhausted, every element
    of it was taken by the loop, every goroutine started has finished (the
    wait group is at zero and the mutex is free), and the status message
    is the completion message, which carries the object count reported by
    the enumeration. *)
Theorem Chunks_returns_after_drain
    (s : Source) (p : Progress) (ctx : option string) (ready : bool)
    (objs : list item) (tr : list Event) (st : State) :
  exec (Chunks_begin s p ctx ready objs) tr st ->
  s_control st = CReturned ->
  s_objectCh st = []
  /\ count_events dequeues tr = length objs
  /\ Forall (fun t => exists err, t_pc t = TExited err) (s_tasks st)
  /\ s_wg st = 0 /\ s_mu st = false
  /\ Message (s_progress st)
     = "GCS source finished processing " +:+ pretty (numObjects (stats s))
       +:+ " objects".
Proof.
  intros Hexec Hret.
  pose proof (wf_exec _ _ _ Hexec (wf_begin s p ctx ready objs))
    as (Hmu & Hwg & Hrange & Hzero & _).
  specialize (Hzero Hret).
  assert (Hnone : count_pc live (s_tasks st) = 0%nat) by lia.
  assert (Hdeq : (count_events dequeues tr + length (s_objectCh st)
                  = length objs)%nat
                 /\ (s_control st = CReturned ->
                     Message (s_progress st) = completion_message (s_src st))).
  { clear -Hexec. revert tr st Hexec. apply exec_ind_end.
    - split; [reflexivity | discriminate].
    - intros tr st ev st' Hex [Hn Hmsg] Hstep.
      pose proof (wf_exec _ _ _ Hex (wf_begin s p ctx ready objs)) as Hwf.
      split.
      + rewrite count_events_snoc.
        pose proof (dequeue_step _ _ _ Hstep). lia.
      + apply (message_step _ _ _ Hwf Hmsg Hstep). }
  destruct Hdeq as [Hdeq Hmsg].
  assert (Hch : s_objectCh st = []) by (apply Hrange; congruence).
  split; [exact Hch|]. split; [rewrite Hch in Hdeq; simpl in Hdeq; lia|].
  split; [apply exited_of_not_live, Hnone|].
  split; [exact Hzero|]. split.
  - rewrite (count_pc_none holds_mu live) in Hmu;
      [destruct (s_mu st); [discriminate | reflexivity] | | exact Hnone].
    intros pc; destruct pc; simpl; congruence.
  - rewrite (Hmsg Hret), (src_exec _ _ _ Hexec). reflexivity.
Qed.

Lemma run_resumed_to_end_exec :
  exec (fst run_resumed_to_end)
       (fst (outcome (fst run_resumed_to_end) (snd run_resumed_to_end)))
       (snd (outcome (fst run_resumed_to_end) (snd run_resumed_to_end))).
Proof.
  apply outcome_exec; [|vm_compute; reflexivity].
  unfold run_resumed_to_end, snd.
  repeat first [ apply Forall_app_2
               | apply valid_whole_task
               | apply Forall_cons_2; [exact I|]
               | apply Forall_nil_2 ].
Qed.

Lemma Chunks_returns_after_drain_witness :
  s_wg (snd (outcome (fst run_resumed_to_end) (snd run_resumed_to_end))) = 0.
Proof.
  refine (proj1 (proj2 (proj2 (proj2
            (Chunks_returns_after_drain _ _ _ _ _ _ _
               run_resumed_to_end_exec _))))).
  vm_compute. reflexivity.
Defined.

(** C8 as stated fails on a resumed run: of the two enumerated objects
    the first is skipped and only the second is processed (one goroutine
    started, sections-completed 1), yet the final message carries 2. *)
Lemma completion_message_counts_enumerated :
  exec (fst run_resumed_to_end)
       (fst (outcome (fst run_resumed_to_end) (snd run_resumed_to_end)))
       (snd (outcome (fst run_resumed_to_end) (snd run_resumed_to_end)))
  /\ s_control (snd (outcome (fst run_resumed_to_end) (snd run_resumed_to_end)))
     = CReturned
  /\ count_events skips
       (fst (outcome (fst run_resumed_to_end) (snd run_resumed_to_end))) = 1%nat
  /\ count_events spawns
       (fst (outcome (fst run_resumed_to_end) (snd run_resumed_to_end))) = 1%nat
  /\ SectionsCompleted
       (s_progress (snd (outcome (fst run_resumed_to_end) (snd run_resumed_to_end))))
     = 1
  /\ Message
       (s_progress (snd (outcome (fst run_resumed_to_end) (snd run_resumed_to_end))))
     = "GCS source finished processing 2 objects".
Proof.
  split; [exact run_resumed_to_end_exec|]. vm_compute. repeat split.
Qed.

(** ** Failed objects *)

Lemma untouched_back st ev st' i :
  step st ev st' ->
  untouched_at st' i = true ->
  untouched_at st i = true /\ ~ progress_event i ev.
Proof.
  intros (ch & _ & Hfire) Hun.
  destruct ch as [|j env|err|b].
  - fire_cases Hfire; unfold untouched_at in *; cbn in *;
      try (split; [exact Hun | tauto]).
    split; [|tauto].
    destruct (s_tasks st !! i) as [ti|] eqn:Hi; [|reflexivity].
    rewrite (lookup_app_l_Some _ _ _ _ Hi) in Hun. exact Hun.
  - unfold fire, fire_task in Hfire.
    destruct (s_tasks st !! j) as [[o pc]|] eqn:Hj; [|discriminate].
    destruct (decide (j = i)) as [->|Hne].
    + destruct pc; repeat case_match; simplify_eq;
        unfold untouched_at in *; cbn in *;
        rewrite (lookup_set_pc _ _ _ _ _ Hj), decide_True in Hun by reflexivity;
        rewrite Hj; simpl in *; try discriminate;
        try (split; [reflexivity | tauto]);
        try (split; [assumption | tauto]).
    + destruct pc; repeat case_match; simplify_eq;
        unfold untouched_at in *; cbn in *;
        rewrite list_lookup_insert_ne in Hun by exact Hne;
        (split; [exact Hun | try tauto; congruence]).
  - fire_cases Hfire; unfold untouched_at in *; cbn in *.
    split; [exact Hun | tauto].
  - fire_cases Hfire; unfold untouched_at in *; cbn in *.
    split; [exact Hun | tauto].
Qed.

Lemma untouched_exec st0 tr st i :
  exec st0 tr st ->
  untouched_at st i = true ->
  Forall (fun ev => ~ progress_event i ev) tr.
Proof.
  intros Hexec. revert tr st Hexec.
  apply (exec_ind_end
           (fun tr st => untouched_at st i = true ->
                         Forall (fun ev => ~ progress_event i ev) tr)).
  - intros _. constructor.
  - intros tr st ev st' _ IH Hstep Hun.
    destruct (untouched_back _ _ _ _ Hstep Hun) as [Hun0 Hev].
    apply Forall_app. split; [apply IH, Hun0 | repeat constructor; exact Hev].
Qed.

(** The failure of a goroutine leaves alone everything but itself and,
    at its exit, the wait group. *)
Lemma failure_step st ev st' i :
  step st ev st' ->
  failure_event i ev ->
  s_progress st' = s_progress st /\ s_cache st' = s_cache st
  /\ s_mu st' = s_mu st /\ s_control st' = s_control st
  /\ s_objectCh st' = s_objectCh st
  /\ (forall j, j <> i -> s_tasks st' !! j = s_tasks st !! j)
  /\ (exists o pc, s_tasks st' !! i = Some (mkTask o pc) /\ failed pc = true).
Proof.
  intros (ch & _ & Hfire) Hev.
  destruct ch; fire_cases Hfire; cbn in *; try contradiction;
    repeat match goal with
      | p : Pending |- _ => destruct p as [[?|]|?]
      | s : Selected |- _ => destruct s
      | o : option string |- _ => destruct o
      end; cbn in *; try contradiction; simplify_eq;
    repeat (split; [reflexivity|]);
    (split; [intros j Hne; apply list_lookup_insert_ne; congruence|]);
    match goal with
    | H : s_tasks _ !! _ = Some _ |- _ =>
        rewrite (lookup_set_pc _ _ _ _ _ H), decide_True by reflexivity
    end; eauto.
Qed.

Lemma marked_inv_step p0 st ev st' :
  marked_inv p0 st -> step st ev st' -> marked_inv p0 st'.
Proof.
  intros Hinv (ch & _ & Hfire) k Hk.
  destruct ch as [|j env|err|b].
  - fire_cases Hfire; cbn in *;
      (destruct (Hinv k Hk) as [Hk0|(i & o' & pc & Hi & Hn & Hm)];
       [left; exact Hk0 | right; exists i, o', pc]);
      repeat split; try assumption.
    apply lookup_app_l_Some, Hi.
  - unfold fire, fire_task in Hfire.
    destruct (s_tasks st !! j) as [[o pc]|] eqn:Hj; [|discriminate].
    assert (Hkeep : forall pc',
               (marked pc = true -> marked pc' = true) ->
               memory.Exists (Cache (s_cache st)) k = true ->
               memory.Exists (Cache (setupCache p0)) k = true
               \/ exists i o' pci,
                    <[j := mkTask o pc']> (s_tasks st) !! i = Some (mkTask o' pci)
                    /\ name o' = k /\ marked pci = true).
    { intros pc' Hmono Hk0.
      destruct (Hinv k Hk0) as [Hk1|(i & o' & pci & Hi & Hn & Hm)];
        [left; exact Hk1 | right].
      destruct (decide (j = i)) as [->|Hne].
      - rewrite Hj in Hi. injection Hi as <- <-.
        exists i, o, pc'. rewrite (lookup_set_pc _ _ _ _ _ Hj), decide_True
          by reflexivity. auto.
      - exists i, o', pci. rewrite list_lookup_insert_ne by exact Hne. auto. }
    destruct pc; repeat case_match; simplify_eq; cbn in *;
      try (apply Hkeep; [simpl; congruence | exact Hk]).
    match goal with
    | H : persistableCache_Set _ _ _ _ _ = Some _ |- _ =>
        rewrite (persistableCache_Set_cache _ _ _ _ _ _ _ H) in Hk
    end.
    rewrite Exists_Set in Hk. apply orb_true_iff in Hk as [Hk|Hk].
    + right. exists j, o, TRemaining.
      rewrite (lookup_set_pc _ _ _ _ _ Hj), decide_True by reflexivity.
      apply String.eqb_eq in Hk. auto.
    + apply Hkeep; [simpl; congruence | exact Hk].
  - fire_cases Hfire; cbn in *. apply Hinv, Hk.
  - fire_cases Hfire; cbn in *. apply Hinv, Hk.
Qed.

Lemma marked_inv_exec p0 st tr st' :
  exec st tr st' -> marked_inv p0 st -> marked_inv p0 st'.
Proof. induction 1; eauto using marked_inv_step. Qed.

Lemma Split_pieces_free (s : string) (sep : ascii) :
  Forall (fun e => strings.free_of sep e = true) (strings.Split s sep).
Proof.
  induction s as [|ch rest IH]; simpl; [repeat constructor|].
  destruct (Ascii.eqb ch sep) eqn:E; [constructor; [reflexivity | exact IH]|].
  destruct (strings.Split rest sep) as [|hd tl].
  - repeat constructor. simpl. rewrite E. reflexivity.
  - inversion IH as [|? ? Hhd Htl]; subst. constructor; [|exact Htl].
    simpl. rewrite E, Hhd. reflexivity.
Qed.

Lemma setupCache_resume (p q : Progress) :
  EncodedResumeInfo p = EncodedResumeInfo q -> setupCache p = setupCache q.
Proof. unfold setupCache. intros ->. reflexivity. Qed.

Lemma setupCache_keys_free (p : Progress) (k : string) :
  memory.Exists (Cache (setupCache p)) k = true ->
  strings.free_of comma k = true.
Proof.
  unfold setupCache. simpl.
  destruct (negb (String.eqb (EncodedResumeInfo p) EmptyString)).
  - rewrite Exists_NewWithData. intros Hk.
    pose proof (Split_pieces_free (EncodedResumeInfo p) comma) as Hall.
    rewrite Forall_forall in Hall. apply Hall, Hk.
  - rewrite Exists_New. discriminate.
Qed.

(** A key of the cache rebuilt from the rendering of a cache with
    delimiter-free keys is a key of that cache. *)
Lemma rebuilt_sub (ord : range_order) (c : memory.Cache) (p : Progress) (k : string) :
  is_range_order ord ->
  (forall k', memory.Exists c k' = true -> strings.free_of comma k' = true) ->
  EncodedResumeInfo p = memory.Contents ord c ->
  memory.Exists (Cache (setupCache p)) k = true ->
  memory.Exists c k = true.
Proof.
  intros Hord Hfree Hp. unfold setupCache. rewrite Hp. simpl.
  unfold memory.Contents.
  destruct (String.eqb_spec (strings.Join (ord (memory.Keys c)) comma) EmptyString)
    as [E|E]; simpl.
  - rewrite Exists_New. discriminate.
  - rewrite Split_Join.
    + rewrite Exists_NewWithData, Exists_Keys.
      apply range_order_elem, Hord.
    + intros E0. rewrite E0 in E. apply E. reflexivity.
    + apply Forall_forall. intros e He. apply Hfree, Exists_Keys.
      apply (range_order_elem ord); assumption.
Qed.

Lemma persistableCache_Set_resume ord c p key val c' p' :
  persistableCache_Set ord c p key val = Some (c', p') ->
  EncodedResumeInfo p' = EncodedResumeInfo p
  \/ EncodedResumeInfo p' = memory.Contents ord (Cache c').
Proof.
  unfold persistableCache_Set, shouldPersist. intros H.
  repeat case_match; simplify_eq; simpl; auto.
Qed.

Arguments setupCache : simpl never.

Lemma resume_inv_begin s p ctx ready objs :
  Forall delimiter_free objs -> resume_inv (Chunks_begin s p ctx ready objs).
Proof.
  intros Hobjs. unfold resume_inv, Chunks_begin. cbn.
  split; [exact Hobjs|]. split; [constructor|]. split.
  - apply setupCache_keys_free.
  - intros k. rewrite (setupCache_resume _ p) by reflexivity. auto.
Qed.

Lemma resume_inv_step st ev st' :
  resume_inv st -> step st ev st' -> resume_inv st'.
Proof.
  intros (Hch & Htasks & Hkeys & Hsub) (ch & Hvalid & Hfire).
  destruct ch as [|j env|err|b].
  - fire_cases Hfire; unfold resume_inv; cbn;
      try match goal with
          | H : s_objectCh _ = _ |- _ => rewrite ?H
          end;
      try (apply Forall_cons in Hch as [Hhd Htl]).
    all: split; [first [assumption | constructor]|].
    all: split; [first [ assumption
                       | apply Forall_app; split;
                         [exact Htasks | constructor; [exact Hhd | constructor]] ]|].
    all: split; [exact Hkeys|].
    all: first [ exact Hsub
               | intros k;
                 rewrite (setupCache_resume _ (s_progress st)) by reflexivity;
                 apply Hsub ].
  - unfold fire, fire_task in Hfire.
    destruct (s_tasks st !! j) as [[o pc]|] eqn:Hj; [|discriminate].
    pose proof (Forall_lookup_1 _ _ _ _ Htasks Hj) as Ho. simpl in Ho.
    assert (Hins : forall pc',
               Forall (fun t => strings.free_of comma (name (t_obj t)) = true)
                      (<[j := mkTask o pc']> (s_tasks st)))
      by (intros pc'; apply Forall_insert; assumption).
    destruct Hvalid as [Hord _].
    destruct pc; repeat case_match; simplify_eq; unfold resume_inv; cbn;
      (split; [exact Hch|]); (split; [apply Hins|]);
      try (split; [exact Hkeys|]);
      try (first [ exact Hsub
                 | intros k;
                   rewrite (setupCache_resume _ (s_progress st)) by reflexivity;
                   apply Hsub ]).
    match goal with
    | H : persistableCache_Set _ _ _ _ _ = Some (?c', _) |- _ =>
        pose proof (persistableCache_Set_cache _ _ _ _ _ _ _ H) as Hc;
        pose proof (persistableCache_Set_resume _ _ _ _ _ _ _ H) as Hr;
        assert (Hkeys' : forall k, memory.Exists (Cache c') k = true ->
                                   strings.free_of comma k = true)
    end.
    { intros k. rewrite Hc, Exists_Set, orb_true_iff, String.eqb_eq.
      intros [<-|Hk]; [exact Ho | apply Hkeys, Hk]. }
    split; [exact Hkeys'|].
    intros k Hk. destruct Hr as [Hr|Hr].
    + rewrite (setupCache_resume _ _ Hr) in Hk.
      rewrite Hc, Exists_Set, (Hsub k Hk). apply orb_true_r.
    + eapply rebuilt_sub; eassumption.
  - fire_cases Hfire; unfold resume_inv; cbn. auto.
  - fire_cases Hfire; unfold resume_inv; cbn. auto.
Qed.

Lemma resume_inv_exec st tr st' :
  exec st tr st' -> resume_inv st -> resume_inv st'.
Proof. induction 1; eauto using resume_inv_step. Qed.

Lemma marked_inv_begin s p ctx ready objs :
  marked_inv p (Chunks_begin s p ctx ready objs).
Proof. intros k Hk. left. exact Hk. Qed.

(** A run, cut at its [n]-th step. *)
Lemma exec_lookup st0 tr st n ev :
  exec st0 tr st ->
  tr !! n = Some ev ->
  exists st1 st2,
    exec st0 (take n tr) st1 /\ step st1 ev st2 /\ exec st2 (drop (S n) tr) st.
Proof.
  intros Hexec. revert n.
  induction Hexec as [|st e st1 tr st2 Hstep Hrest IH]; intros [|n] Hn;
    simpl in Hn; try discriminate.
  - injection Hn as ->. exists st, st1.
    split; [constructor|]. split; [exact Hstep | exact Hrest].
  - destruct (IH n Hn) as (sa & sb & Ha & Hs & Hb).
    exists sa, sb. split; [econstructor; eassumption|]. split; assumption.
Qed.

(** A goroutine to which [processObject] has returned an error stays
    one. *)
Lemma failed_step st ev st' i o pc :
  s_tasks st !! i = Some (mkTask o pc) ->
  failed pc = true ->
  step st ev st' ->
  exists pc', s_tasks st' !! i = Some (mkTask o pc') /\ failed pc' = true.
Proof.
  intros Hi Hpc Hstep.
  destruct (task_frame _ _ _ _ _ Hstep Hi) as [Hsame|(env & _ & Hfire)].
  - eauto.
  - unfold fire_task in Hfire. rewrite Hi in Hfire.
    destruct pc as [| | | | | | | |[e|]|[e|]]; simpl in Hpc; try discriminate;
      simplify_eq; cbn.
    rewrite (lookup_set_pc _ _ _ _ _ Hi), decide_True by reflexivity.
    eauto.
Qed.

Lemma failed_exec st tr st' i o pc :
  exec st tr st' ->
  s_tasks st !! i = Some (mkTask o pc) ->
  failed pc = true ->
  exists pc', s_tasks st' !! i = Some (mkTask o pc') /\ failed pc' = true.
Proof.
  intros Hexec. revert pc.
  induction Hexec as [|st ev st1 tr st2 Hstep _ IH]; intros pc Hi Hpc.
  - eauto.
  - destruct (failed_step _ _ _ _ _ _ Hi Hpc Hstep) as (pc1 & Hi1 & Hpc1).
    eauto.
Qed.

Lemma unseen_step p0 st ev st' :
  unseen_inv p0 st -> step st ev st' -> unseen_inv p0 st'.
Proof.
  intros [Hkeep Hnew] Hstep.
  split; [intros k Hk; exact (cache_grows_step _ _ _ k Hstep (Hkeep k Hk))|].
  destruct Hstep as (ch & _ & Hfire).
  destruct ch as [|j env|err|b].
  - fire_cases Hfire; cbn; try exact Hnew.
    intros i o' pc Hi. apply lookup_snoc_Some in Hi as [Hi|Hi];
      [exact (Hnew _ _ _ Hi)|].
    injection Hi as -> ->.
    destruct (memory.Exists (Cache (setupCache p0)) (name o)) eqn:E;
      [|reflexivity].
    rewrite (Hkeep _ E) in *. discriminate.
  - unfold fire, fire_task in Hfire.
    destruct (s_tasks st !! j) as [[o pc]|] eqn:Hj; [|discriminate].
    assert (Hins : forall pc' i o' pci,
               <[j := mkTask o pc']> (s_tasks st) !! i = Some (mkTask o' pci) ->
               memory.Exists (Cache (setupCache p0)) (name o') = false).
    { intros pc' i o' pci Hi. rewrite (lookup_set_pc _ _ _ _ _ Hj) in Hi.
      destruct (decide (j = i)) as [->|Hne]; [|exact (Hnew _ _ _ Hi)].
      injection Hi as <- <-. exact (Hnew _ _ _ Hj). }
    destruct pc; repeat case_match; simplify_eq; cbn; apply Hins.
  - fire_cases Hfire; cbn. exact Hnew.
  - fire_cases Hfire; cbn. exact Hnew.
Qed.

Lemma unseen_exec p0 st tr st' :
  exec st tr st' -> unseen_inv p0 st -> unseen_inv p0 st'.
Proof. induction 1; eauto using unseen_step. Qed.

Lemma unseen_begin s p ctx ready objs :
  unseen_inv p (Chunks_begin s p ctx ready objs).
Proof.
  split; [intros k Hk; exact Hk|]. intros i o pc Hi. discriminate.
Qed.

(** [readObjectData] returns an error exactly when one of its
    collaborators fails. *)
Lemma processObject_begin_error (s : Source) (o : object) (io : ObjectIO) :
  (exists err, snd (processObject_begin s o io) = Returned (Some err))
  <-> read_fails io.
Proof.
  unfold read_fails, processObject_begin, readObjectData.
  destruct io as [new [emitted handled] reset [data rerr]]. simpl.
  destruct new, handled, reset, rerr; simpl; split;
    try (intros [err H]; discriminate H);
    try (intros _; eexists; reflexivity);
    try (intros _; first [left; discriminate
                         | right; repeat split; first [left; discriminate
                                                      | right; discriminate]]);
    intros [H|(H1 & H2 & [H|H])]; congruence.
Qed.

(** The step in which [processObject] returns an error is the failure
    of the goroutine, which is left with its deferred [wg.Done()]. *)
Lemma error_step st i env ev st' err :
  fire st (RunTask i env) = Some (ev, st') ->
  processObject_error st i env = Some err ->
  failure_event i ev
  /\ exists o pc, s_tasks st !! i = Some (mkTask o pc)
       /\ s_tasks st' !! i = Some (mkTask o (TDeferred (Some err))).
Proof.
  unfold fire, fire_task, processObject_error. intros Hfire Herr.
  destruct (s_tasks st !! i) as [[o pc]|] eqn:Hi; [|discriminate].
  destruct pc; try discriminate.
  - destruct (processObject_begin (s_src st) o (e_io env)) as [emitted p].
    destruct (handler_sends (s_ready st) emitted); [|discriminate].
    destruct p as [e|chunk]; [|discriminate]. simpl in Herr. subst e.
    simplify_eq. cbn. split; [exact eq_refl|].
    exists o, TProcess. split; [reflexivity|].
    rewrite (lookup_set_pc _ _ _ _ _ Hi), decide_True by reflexivity.
    reflexivity.
  - destruct (select_case (s_ctx st) (s_ready st) (e_send env)) as [sel|];
      [|discriminate].
    destruct sel as [e|]; [|discriminate]. simpl in Herr, Hfire.
    simplify_eq. cbn. split; [exact eq_refl|].
    exists o, (TSelect chunk). split; [reflexivity|].
    rewrite (lookup_set_pc _ _ _ _ _ Hi), decide_True by reflexivity.
    reflexivity.
Qed.

(** C2 (at least once on error), as the code has it.  Take a run of
    [Chunks] one of whose steps is the failure of the [i]-th goroutine:
    [processObject] returns an error to it, or it exits with one.  From
    then on the goroutine stands where only its deferred [wg.Done()] is
    left, or is gone.  In the whole run it has not taken the mutex nor
    executed a statement of [setProgress].  The name of its object is in
    the cache only if another goroutine, for an object of the same name,
    has called [cache.Set].  When the listed names are free of the
    delimiter and the name is not in the cache, it is not in the cache a
    later run rebuilds from the resume information either, and whenever
    the loop of such a run receives an object of that name it starts a
    goroutine for it, unless a goroutine of that run for an object of the
    same name has called [cache.Set] by then.

    For every state: the step in which [processObject] returns an error
    is a failure and leaves the goroutine with its deferred [wg.Done()];
    [readObjectData] returns an error exactly when the reader cannot be
    created, or the handler declines and the rewind or the full read
    fails; a failure changes neither the progress, nor the cache, nor the
    mutex, nor the loop, nor any other goroutine; the deferred
    [wg.Done()] of a failed goroutine can always be run; and the loop
    starts a goroutine for every object it receives whose name is not in
    the cache. *)
Theorem failed_object_unmarked
    (s : Source) (p : Progress) (ctx : option string) (ready : bool)
    (objs : list item) (tr : list Event) (st : State)
    (n i : nat) (ev : Event) :
  exec (Chunks_begin s p ctx ready objs) tr st ->
  tr !! n = Some ev ->
  failure_event i ev ->
  (exists o pc,
      s_tasks st !! i = Some (mkTask o pc) /\ failed pc = true
      /\ Forall (fun ev' => ~ progress_event i ev') tr
      /\ (memory.Exists (Cache (s_cache st)) (name o) = true ->
          exists j o' pc',
            j <> i /\ s_tasks st !! j = Some (mkTask o' pc')
            /\ name o' = name o /\ marked pc' = true)
      /\ (Forall delimiter_free objs ->
          memory.Exists (Cache (s_cache st)) (name o) = false ->
          memory.Exists (Cache (setupCache (s_progress st))) (name o) = false
          /\ forall s' ctx' ready' objs' tr' st' o' rest,
               exec (Chunks_begin s' (s_progress st) ctx' ready' objs') tr' st' ->
               s_control st' = CRange ->
               s_objectCh st' = ItemObject o' :: rest ->
               name o' = name o ->
               (exists st'',
                   fire st' RunControl = Some (EvSpawn o', st'')
                   /\ s_tasks st'' = s_tasks st' ++ [mkTask o' TProcess])
               \/ exists j o'' pc'',
                    s_tasks st' !! j = Some (mkTask o'' pc'')
                    /\ name o'' = name o /\ marked pc'' = true))
  /\ (forall st1 env ev1 st2 err,
        fire st1 (RunTask i env) = Some (ev1, st2) ->
        processObject_error st1 i env = Some err ->
        failure_event i ev1
        /\ exists o pc,
             s_tasks st1 !! i = Some (mkTask o pc)
             /\ s_tasks st2 !! i = Some (mkTask o (TDeferred (Some err))))
  /\ (forall s1 o1 io,
        (exists err, snd (processObject_begin s1 o1 io) = Returned (Some err))
        <-> read_fails io)
  /\ (forall st1 ev1 st2,
        step st1 ev1 st2 ->
        failure_event i ev1 ->
        s_progress st2 = s_progress st1 /\ s_cache st2 = s_cache st1
        /\ s_mu st2 = s_mu st1 /\ s_control st2 = s_control st1
        /\ s_objectCh st2 = s_objectCh st1
        /\ (forall j, j <> i -> s_tasks st2 !! j = s_tasks st1 !! j)
        /\ exists o pc,
             s_tasks st2 !! i = Some (mkTask o pc) /\ failed pc = true)
  /\ (forall st1 o1 err env,
        s_tasks st1 !! i = Some (mkTask o1 (TDeferred (Some err))) ->
        exists st2,
          fire st1 (RunTask i env) = Some (EvWgDone i o1 (Some err), st2)
          /\ s_wg st2 = s_wg st1 - 1
          /\ s_tasks st2 !! i = Some (mkTask o1 (TExited (Some err))))
  /\ (forall st1 o1 rest,
        s_control st1 = CRange ->
        s_objectCh st1 = ItemObject o1 :: rest ->
        memory.Exists (Cache (s_cache st1)) (name o1) = false ->
        exists st2,
          fire st1 RunControl = Some (EvSpawn o1, st2)
          /\ s_tasks st2 = s_tasks st1 ++ [mkTask o1 TProcess]
          /\ s_wg st2 = s_wg st1 + 1).
Proof.
  intros Hexec Hn Hev.
  split; [|split; [|split; [|split; [|split]]]].
  - destruct (exec_lookup _ _ _ _ _ Hexec Hn) as (st1 & st2 & _ & Hstep & Hrest).
    destruct (failure_step _ _ _ _ Hstep Hev)
      as (_ & _ & _ & _ & _ & _ & o & pc2 & Hi2 & Hpc2).
    destruct (failed_exec _ _ _ _ _ _ Hrest Hi2 Hpc2) as (pc & Hi & Hpc).
    exists o, pc. split; [exact Hi|]. split; [exact Hpc|].
    split; [|split].
    + eapply untouched_exec; [exact Hexec|].
      unfold untouched_at. rewrite Hi.
      destruct pc as [| | | | | | | |[?|]|[?|]]; simpl in *; congruence.
    + intros Hk.
      destruct (marked_inv_exec p _ _ _ Hexec (marked_inv_begin s p ctx ready objs)
                  _ Hk) as [H0|(j & o' & pc' & Hj & Hn' & Hm)].
      * pose proof (proj2 (unseen_exec p _ _ _ Hexec
                             (unseen_begin s p ctx ready objs)) _ _ _ Hi) as Hu.
        congruence.
      * exists j, o', pc'. repeat split; try assumption.
        intros ->. rewrite Hi in Hj. injection Hj as <- <-.
        destruct pc as [| | | | | | | |[?|]|[?|]]; simpl in *; congruence.
    + intros Hobjs Hk.
      pose proof (resume_inv_exec _ _ _ Hexec
                    (resume_inv_begin s p ctx ready objs Hobjs))
        as (_ & _ & _ & Hsub).
      assert (Hreb : memory.Exists (Cache (setupCache (s_progress st))) (name o)
                     = false).
      { destruct (memory.Exists (Cache (setupCache (s_progress st))) (name o))
          eqn:E; [|reflexivity].
        rewrite (Hsub _ E) in Hk. discriminate. }
      split; [exact Hreb|].
      intros s' ctx' ready' objs' tr' st' o' rest Hexec' Hc Hch Hname.
      destruct (memory.Exists (Cache (s_cache st')) (name o')) eqn:Hk'.
      * right. rewrite Hname in Hk'.
        destruct (marked_inv_exec (s_progress st) _ _ _ Hexec'
                    (marked_inv_begin s' (s_progress st) ctx' ready' objs')
                    _ Hk') as [H0|Htwin]; [congruence | exact Htwin].
      * left. eexists. split;
          [unfold fire, fire_control; rewrite Hc, Hch, Hk'; reflexivity
          | reflexivity].
  - intros st1 env ev1 st2 err. apply error_step.
  - intros s1 o1 io. apply processObject_begin_error.
  - intros st1 ev1 st2 Hstep Hev1. exact (failure_step _ _ _ _ Hstep Hev1).
  - intros st1 o1 err env Hi. unfold fire, fire_task. rewrite Hi.
    eexists. split; [reflexivity|]. cbn. split; [reflexivity|].
    rewrite (lookup_set_pc _ _ _ _ _ Hi), decide_True by reflexivity.
    reflexivity.
  - intros st1 o1 rest Hc Hch Hk.
    eexists. split;
      [unfold fire, fire_control; rewrite Hc, Hch, Hk; reflexivity|].
    split; reflexivity.
Qed.

Lemma run_one_fails_exec :
  exec (fst run_one_fails)
       (fst (outcome (fst run_one_fails) (snd run_one_fails)))
       (snd (outcome (fst run_one_fails) (snd run_one_fails))).
Proof.
  apply outcome_exec; [|vm_compute; reflexivity].
  unfold run_one_fails, snd.
  repeat first [ apply Forall_app_2
               | apply valid_whole_task
               | apply Forall_cons_2; [first [exact I | apply valid_task]|]
               | apply Forall_nil_2 ].
Qed.

Lemma failed_object_unmarked_witness :
  let run := outcome (fst run_one_fails) (snd run_one_fails) in
  exists pc,
    s_tasks (snd run) !! 0%nat = Some (mkTask (sample_object "d") pc)
    /\ failed pc = true
    /\ Forall (fun ev' => ~ progress_event 0 ev') (fst run)
    /\ memory.Exists (Cache (setupCache (s_progress (snd run)))) "d" = false.
Proof.
  assert (Hn : fst (outcome (fst run_one_fails) (snd run_one_fails)) !! 3%nat
               = Some (EvProcessed 0 (sample_object "d") []
                         (Returned (Some "error reading object data: error creating disk buffer reader: no space left on device"))))
    by (vm_compute; reflexivity).
  assert (H0 : option_map t_obj
                 (s_tasks (snd (outcome (fst run_one_fails) (snd run_one_fails)))
                    !! 0%nat)
               = Some (sample_object "d"))
    by (vm_compute; reflexivity).
  assert (Hk : memory.Exists
                 (Cache (s_cache (snd (outcome (fst run_one_fails)
                                               (snd run_one_fails))))) "d"
               = false)
    by (vm_compute; reflexivity).
  destruct (proj1 (failed_object_unmarked _ _ _ _ _ _ _ 3%nat 0%nat _
                     run_one_fails_exec Hn eq_refl))
    as (o & pc & Hi & Hpc & Hnone & _ & Hretry).
  rewrite Hi in H0. injection H0 as ->.
  exists pc. split; [exact Hi|]. split; [exact Hpc|]. split; [exact Hnone|].
  apply Hretry; [repeat constructor | exact Hk].
Defined.

Lemma run_delimiter_exec :
  exec (fst run_delimiter)
       (fst (outcome (fst run_delimiter) (snd run_delimiter)))
       (snd (outcome (fst run_delimiter) (snd run_delimiter))).
Proof.
  apply outcome_exec; [|vm_compute; reflexivity].
  unfold run_delimiter, snd.
  repeat first [ apply Forall_app_2
               | apply valid_whole_task
               | apply Forall_cons_2; [first [exact I | apply valid_task]|]
               | apply Forall_nil_2 ].
Qed.


Lemma run_namesake_exec :
  exec (fst run_namesake)
       (fst (outcome (fst run_namesake) (snd run_namesake)))
       (snd (outcome (fst run_namesake) (snd run_namesake))).
Proof.
  apply outcome_exec; [|vm_compute; reflexivity].
  unfold run_namesake, snd.
  repeat first [ apply Forall_app_2
               | apply valid_whole_task
               | apply Forall_cons_2; [first [exact I | apply valid_task]|]
               | apply Forall_nil_2 ].
Qed.

(** C2 as stated fails in two ways, both on a run resumed from 2499
    names in which the reader of the first listed object, ["a"], cannot
    be created, the second listed object is processed, and its
    [cache.Set], the 2500th, publishes the snapshot; [Chunks] returns
    with one section completed.

    The second object is ["a,b"], its name holding the delimiter: ["a"]
    is not in the cache; yet the cache rebuilt from the snapshot holds
    ["a"], a piece of ["a,b"], and the resumed run skips the object.

    The second object is ["a"] again, both goroutines started before
    either has run: the goroutine that failed has marked nothing, yet
    ["a"] is in the cache and in the snapshot, and the resumed run skips
    the object. *)
Lemma failed_object_skipped_on_resume :
  let failure :=
    EvProcessed 0 (sample_object "a") []
      (Returned (Some "error reading object data: error creating disk buffer reader: no space left on device")) in
  let exited :=
    TExited (Some "error reading object data: error creating disk buffer reader: no space left on device") in
  let run := outcome (fst run_delimiter) (snd run_delimiter) in
  let run' := outcome (fst run_namesake) (snd run_namesake) in
  (exec (fst run_delimiter) (fst run) (snd run)
   /\ fst run !! 3%nat = Some failure
   /\ s_control (snd run) = CReturned
   /\ option_map t_pc (s_tasks (snd run) !! 0%nat) = Some exited
   /\ SectionsCompleted (s_progress (snd run)) = 1
   /\ memory.Exists (Cache (s_cache (snd run))) "a" = false
   /\ memory.Exists (Cache (setupCache (s_progress (snd run)))) "a" = true
   /\ option_map fst
        (fire (Chunks_begin (sample_source 2) (s_progress (snd run)) None true
                 [ItemObject (sample_object "a");
                  ItemObject (sample_object "a,b")]) RunControl)
      = Some (EvSkip (sample_object "a")))
  /\ (exec (fst run_namesake) (fst run') (snd run')
      /\ fst run' !! 3%nat = Some failure
      /\ s_control (snd run') = CReturned
      /\ option_map t_pc (s_tasks (snd run') !! 0%nat) = Some exited
      /\ SectionsCompleted (s_progress (snd run')) = 1
      /\ memory.Exists (Cache (s_cache (snd run'))) "a" = true
      /\ option_map fst
           (fire (Chunks_begin (sample_source 2) (s_progress (snd run')) None true
                    [ItemObject (sample_object "a");
                     ItemObject (sample_object "a")]) RunControl)
         = Some (EvSkip (sample_object "a"))).
Proof.
  cbv zeta. split.
  - split; [exact run_delimiter_exec|].
    do 6 (split; [vm_compute; reflexivity|]).
    vm_compute. reflexivity.
  - split; [exact run_namesake_exec|].
    do 5 (split; [vm_compute; reflexivity|]).
    vm_compute. reflexivity.
Qed.

(** ** The handled-or-raw decision *)

Lemma app_snoc_neq {A} (l : list A) (x : A) : l <> l ++ [x].
Proof.
  intros H. apply (f_equal length) in H. rewrite length_app in H.
  simpl in H. lia.
Qed.

Lemma nil_snoc_neq {A} (l : list A) (x : A) : [] <> l ++ [x].
Proof. destruct l; discriminate. Qed.

(** The first two steps of a goroutine are [processObject]: they put
    on the channel the chunks it puts there and leave the goroutine with
    the error it returns, the [select] taking a case that can proceed. *)
Lemma goroutine_runs_processObject st i o env1 env2 ev1 st1 :
  s_tasks st !! i = Some (mkTask o TProcess) ->
  fire_task st i env1 = Some (ev1, st1) ->
  (forall err sel,
      snd (processObject_begin (s_src st) o (e_io env1)) = Returned err ->
      s_chunksCh st1
      = s_chunksCh st ++ fst (processObject (s_src st) o (e_io env1) sel)
      /\ s_tasks st1 !! i
         = Some (mkTask o (pc_after
                   (Returned (snd (processObject (s_src st) o (e_io env1) sel))))))
  /\ (forall chunk ev2 st2,
        snd (processObject_begin (s_src st) o (e_io env1)) = Selecting chunk ->
        fire_task st1 i env2 = Some (ev2, st2) ->
        exists sel,
          ev2 = EvSelect i o chunk sel
          /\ select_case (s_ctx st) (s_ready st) (e_send env2) = Some sel
          /\ s_chunksCh st2
             = s_chunksCh st ++ fst (processObject (s_src st) o (e_io env1) sel)
          /\ s_tasks st2 !! i
             = Some (mkTask o (pc_after
                       (Returned (snd (processObject (s_src st) o (e_io env1) sel)))))).
Proof.
  intros Hi Hfire. unfold fire_task in Hfire. rewrite Hi in Hfire.
  unfold processObject.
  destruct (processObject_begin (s_src st) o (e_io env1)) as [emitted p].
  destruct (handler_sends (s_ready st) emitted); [|discriminate].
  simplify_eq. cbn.
  assert (Hi1 : forall pc,
             <[i := mkTask o pc]> (s_tasks st) !! i = Some (mkTask o pc))
    by (intros pc; rewrite (lookup_set_pc _ _ _ _ _ Hi), decide_True
          by reflexivity; reflexivity).
  split.
  - intros err sel ->. cbn. split; [reflexivity | apply Hi1].
  - intros chunk ev2 st2 -> Hfire2. unfold fire_task in Hfire2. cbn in Hfire2.
    rewrite Hi1 in Hfire2.
    destruct (select_case (s_ctx st) (s_ready st) (e_send env2)) as [sel|];
      [|discriminate].
    exists sel.
    destruct (processObject_select chunk sel) as [sent err].
    simplify_eq. cbn. split; [reflexivity|]. split; [reflexivity|].
    split; [rewrite app_assoc; reflexivity|].
    rewrite list_insert_insert_eq. apply Hi1.
Qed.

(** C6 (handled or raw), as the code has it.  [processObject] puts its
    raw chunk, carrying the whole content read back, on the output channel
    exactly when the reader is created, the handler declines, the rewind
    and the full read succeed and the [select] takes the send rather than
    the cancellation.  When the handler takes the object, only the
    handler's chunks are on the channel and [processObject] returns no
    error.  When the rewind or the full read fails, an error is returned
    and nothing but the handler's chunks is on the channel. *)
Theorem raw_chunk_decision
    (s : Source) (o : object) (io : ObjectIO) (sel : Selected) :
  (sends_raw s o io sel <-> raw_read_ok io /\ sel = ChunkSent)
  /\ (raw_read_ok io ->
      Data (raw_chunk s o io) = Some (fst (io_ReadAll io))
      /\ SourceMetadata (raw_chunk s o io) = SourceMetadata (chunkSkel s o)
      /\ processObject_begin s o io
         = (fst (io_HandleFile io), Selecting (raw_chunk s o io)))
  /\ (io_New io = None -> snd (io_HandleFile io) = true ->
      processObject s o io sel = (fst (io_HandleFile io), None))
  /\ (io_New io = None -> snd (io_HandleFile io) = false ->
      io_Reset io <> None \/ snd (io_ReadAll io) <> None ->
      exists err,
        processObject s o io sel = (fst (io_HandleFile io), Some err)).
Proof.
  unfold sends_raw, raw_read_ok, raw_chunk, processObject, processObject_begin,
    readObjectData.
  destruct io as [new [emitted handled] reset [data rerr]]. simpl.
  split; [|split; [|split]].
  - destruct new, handled, reset, rerr, sel; simpl;
      (split; [intros Hs | intros ((? & ? & ? & ?) & ?); simplify_eq; reflexivity]);
      try rewrite app_nil_r in Hs;
      first [ exfalso; exact (nil_snoc_neq _ _ Hs)
            | exfalso; exact (app_snoc_neq _ _ Hs)
            | repeat split ].
  - intros (-> & -> & -> & ->). repeat split.
  - intros -> ->. reflexivity.
  - intros -> -> [H|H]; destruct reset, rerr, sel; simpl; try congruence; eauto.
Qed.

Lemma raw_chunk_decision_witness :
  processObject_begin (sample_source 1) (sample_object "a")
                      (io_raw [Byte.x68; Byte.x69])
  = ([], Selecting (raw_chunk (sample_source 1) (sample_object "a")
                              (io_raw [Byte.x68; Byte.x69]))).
Proof.
  refine (proj2 (proj2 (proj1 (proj2
            (raw_chunk_decision (sample_source 1) (sample_object "a")
               (io_raw [Byte.x68; Byte.x69]) ChunkSent)) _))).
  repeat split.
Defined.

(** C6 as stated fails when the run is cancelled at the [select]: the
    handler has declined and the content has been read back in full, yet
    [processObject] puts no chunk on the channel and returns the
    context's error. *)
Lemma raw_chunk_lost_to_cancellation :
  snd (io_HandleFile (io_raw [Byte.x68; Byte.x69])) = false
  /\ io_Reset (io_raw [Byte.x68; Byte.x69]) = None
  /\ io_ReadAll (io_raw [Byte.x68; Byte.x69]) = ([Byte.x68; Byte.x69], None)
  /\ processObject (sample_source 1) (sample_object "a")
                   (io_raw [Byte.x68; Byte.x69]) (CtxDone "context canceled")
     = ([], Some "context canceled").
Proof. repeat split. Qed.

(** ** Cancellation *)

Lemma ctx_stays st ev st' err :
  step st ev st' -> s_ctx st = Some err -> s_ctx st' = Some err.
Proof.
  intros (ch & _ & Hfire) Hctx.
  destruct ch; fire_cases Hfire; cbn; congruence.
Qed.

(** C7 (cancellation), as the code has it.  Take a goroutine waiting in
    its [select] once the context is cancelled with error [err].  The
    cancellation stays.  Whether or not the consumer is receiving, the
    goroutine can take the [ctx.Done()] case: it then leaves its body
    with [err] as its error, having sent nothing and touched neither
    progress nor cache.  Its only other step is the send, possible only
    while the consumer is receiving.  The loop does not look at the
    context: its step is the same whatever the state of the
    cancellation. *)
Theorem cancelled_send_not_blocked
    (st : State) (i : nat) (o : object) (chunk : Chunk) (err : string) :
  s_tasks st !! i = Some (mkTask o (TSelect chunk)) ->
  s_ctx st = Some err ->
  (forall ev st', step st ev st' -> s_ctx st' = Some err)
  /\ (exists st',
        step st (EvSelect i o chunk (CtxDone err)) st'
        /\ s_tasks st' !! i = Some (mkTask o (TDeferred (Some err)))
        /\ s_chunksCh st' = s_chunksCh st
        /\ s_progress st' = s_progress st /\ s_cache st' = s_cache st)
  /\ (forall env ev st',
        fire st (RunTask i env) = Some (ev, st') ->
        (ev = EvSelect i o chunk (CtxDone err)
         /\ s_tasks st' !! i = Some (mkTask o (TDeferred (Some err)))
         /\ s_chunksCh st' = s_chunksCh st)
        \/ (ev = EvSelect i o chunk ChunkSent
            /\ s_ready st = true
            /\ s_tasks st' !! i = Some (mkTask o TLock)
            /\ s_chunksCh st' = s_chunksCh st ++ [chunk]))
  /\ (forall e',
        fire (with_ctx st e') RunControl
        = option_map (fun r => (fst r, with_ctx (snd r) e')) (fire st RunControl)).
Proof.
  intros Hi Hctx.
  assert (Hlook : forall st0 pc,
             s_tasks st0 = s_tasks st ->
             s_tasks (set_pc st0 i o pc) !! i = Some (mkTask o pc)).
  { intros st0 pc Hts. cbn. rewrite Hts.
    rewrite (lookup_set_pc _ _ _ _ _ Hi), decide_True by reflexivity.
    reflexivity. }
  split; [|split; [|split]].
  - intros ev st' Hstep. eapply ctx_stays; eassumption.
  - eexists. split.
    + exists (RunTask i (mkEnv (io_raw []) false id 0)).
      split; [split; [intros l; reflexivity | reflexivity]|].
      unfold fire, fire_task. rewrite Hi. cbn. rewrite Hctx. cbn.
      reflexivity.
    + split; [apply Hlook; reflexivity|]. cbn.
      rewrite app_nil_r. repeat split.
  - intros env ev st' Hfire.
    unfold fire, fire_task, select_case in Hfire. rewrite Hi, Hctx in Hfire.
    destruct (e_send env); [destruct (s_ready st) eqn:Hready|];
      cbn in Hfire; simplify_eq.
    + right. split; [reflexivity|]. split; [reflexivity|].
      split; [apply Hlook; reflexivity | reflexivity].
    + left. split; [reflexivity|].
      split; [apply Hlook; reflexivity | cbn; apply app_nil_r].
  - intros e'. unfold fire, fire_control. cbn.
    destruct (s_control st); [|destruct (s_wg st =? 0)|]; try reflexivity.
    destruct (s_objectCh st) as [|[o'|ty] rest]; try reflexivity.
    destruct (memory.Exists _ _); reflexivity.
Qed.

Lemma run_aborted_exec :
  exec (fst run_aborted) (fst (outcome (fst run_aborted) (snd run_aborted)))
       (snd (outcome (fst run_aborted) (snd run_aborted))).
Proof.
  apply outcome_exec; [unfold run_aborted; simpl; valid_schedule|].
  vm_compute. reflexivity.
Qed.

Lemma cancelled_send_not_blocked_witness :
  s_ready (snd (outcome (fst run_aborted) (snd run_aborted))) = false
  /\ exists st',
       step (snd (outcome (fst run_aborted) (snd run_aborted)))
            (EvSelect 0 (sample_object "a")
                      (raw_chunk (sample_source 1) (sample_object "a")
                                 (io_raw [Byte.x68; Byte.x69]))
                      (CtxDone "context canceled")) st'
       /\ s_chunksCh st' = [].
Proof.
  split; [vm_compute; reflexivity|].
  destruct (cancelled_send_not_blocked
              (snd (outcome (fst run_aborted) (snd run_aborted))) 0
              (sample_object "a")
              (raw_chunk (sample_source 1) (sample_object "a")
                         (io_raw [Byte.x68; Byte.x69]))
              "context canceled")
    as (_ & (st' & Hstep & _ & Hch & _) & _).
  - vm_compute. reflexivity.
  - vm_compute. reflexivity.
  - exists st'. split; [exact Hstep|]. rewrite Hch. vm_compute. reflexivity.
Defined.

Lemma run_cancelled_exec :
  exec (fst run_cancelled)
       (fst (outcome (fst run_cancelled) (snd run_cancelled)))
       (snd (outcome (fst run_cancelled) (snd run_cancelled))).
Proof.
  apply outcome_exec; [unfold run_cancelled; simpl; valid_schedule|].
  vm_compute. reflexivity.
Qed.

(** C7 as stated fails: in this run the context is cancelled at the
    third step, when the first goroutine is at its [select] and the
    consumer is receiving, so that both cases are ready; the fourth step
    is that goroutine's send going through, and the fifth is the loop
    starting a goroutine for the next object. *)
Lemma send_and_spawn_after_cancellation :
  exec (fst run_cancelled)
       (fst (outcome (fst run_cancelled) (snd run_cancelled)))
       (snd (outcome (fst run_cancelled) (snd run_cancelled)))
  /\ map (fun ev => (cancels ev, completes_send ev, spawns ev))
         (fst (outcome (fst run_cancelled) (snd run_cancelled)))
     = [(false, false, true); (false, false, false); (true, false, false);
        (false, true, false); (false, false, true)]
  /\ s_ctx (snd (outcome (fst run_cancelled) (snd run_cancelled)))
     = Some "context canceled"
  /\ length (s_chunksCh (snd (outcome (fst run_cancelled) (snd run_cancelled))))
     = 1%nat
  /\ length (s_tasks (snd (outcome (fst run_cancelled) (snd run_cancelled))))
     = 2%nat.
Proof.
  split; [exact run_cancelled_exec|]. vm_compute. repeat split.
Qed.

(** ** Worked scenarios *)

(** Three objects, persist increment 2, empty cache: the snapshot is
    refreshed by the second insertion only, and the run ends at 3 of 3 and
    100 percent. *)
Example checkpoint_scenario :
  option_map
    (fun r => (fst r, SectionsCompleted (snd r), PercentComplete (snd r)))
    (setProgress_each (sample_source 3) ["a"; "b"; "c"] progress0
                      (newPersistableCache 2 memory.New))
  = Some ([""; "a,b"; "a,b"], 3, 100).
Proof. vm_compute. reflexivity. Qed.


(** * Scheduling *)

Lemma tasks_left_app (a b : list Task) :
  tasks_left (a ++ b) = (tasks_left a + tasks_left b)%nat.
Proof. induction a; simpl; lia. Qed.

Lemma tasks_left_insert (ts : list Task) (i : nat) (t t' : Task) :
  ts !! i = Some t ->
  (tasks_left (<[i := t']> ts) + steps_left (t_pc t)
   = tasks_left ts + steps_left (t_pc t'))%nat.
Proof.
  revert i. induction ts as [|a ts IH]; intros [|i] H; simpl in *; try discriminate.
  - injection H as ->. lia.
  - specialize (IH _ H). lia.
Qed.

Lemma steps_left_after (p : Pending) : (steps_left (pc_after p) <= 8)%nat.
Proof. destruct p as [[]|]; simpl; lia. Qed.

(** A step of the program uses up work; a step of the environment
    leaves it. *)
Lemma work_step st ev st' :
  step st ev st' ->
  (work st' + (if program_event ev then 1 else 0) <= work st)%nat.
Proof.
  intros (ch & _ & Hfire).
  destruct ch; fire_cases Hfire; unfold work;
    cbn [program_event s_objectCh s_tasks s_control
    with_control with_objectCh with_tasks with_wg with_progress with_cache with_mu
    with_ctx with_ready with_chunksCh set_pc length];
    rewrite ?tasks_left_app; cbn [tasks_left steps_left t_pc];
    try match goal with
    | H : s_control _ = _ |- _ => rewrite H
    end;
    try match goal with
    | H : s_objectCh _ = _ |- _ => rewrite H; cbn [length]
    end;
    try match goal with
    | |- context [pc_after ?p] => pose proof (steps_left_after p)
    end;
    try match goal with
    | H : s_tasks ?st !! ?i = Some ?t
      |- context [tasks_left (<[?i := ?t']> (s_tasks ?st))] =>
        pose proof (tasks_left_insert (s_tasks st) i t t' H) as Hins;
        cbn [t_pc steps_left] in Hins
    end;
    try lia.
  match goal with
  | _ : context [pc_after (Returned ?e)] |- _ =>
      destruct e; cbn [pc_after steps_left] in *; lia
  end.
Qed.

Lemma work_exec st tr st' :
  exec st tr st' ->
  (work st' + count_events program_event tr <= work st)%nat.
Proof.
  induction 1 as [|st ev st1 tr st2 Hstep _ IH];
    [unfold count_events; cbn [List.filter length]; lia|].
  pose proof (work_step _ _ _ Hstep).
  unfold count_events in *. cbn [List.filter].
  destruct (program_event ev); cbn [length].
  all: lia.
Qed.

(** A goroutine that can run has a step, whatever the collaborators
    answer. *)
Lemma can_run_fire st i o pc :
  persistIncrement (s_cache st) <> 0 ->
  s_tasks st !! i = Some (mkTask o pc) ->
  can_run st pc = true ->
  forall io ord undef,
  exists ev st',
    fire st (RunTask i (mkEnv io (s_ready st) ord undef)) = Some (ev, st').
Proof.
  intros Hinc Hi Hrun io ord undef. unfold fire, fire_task. rewrite Hi.
  cbn [e_io e_send e_ord e_undef].
  destruct pc; simpl in Hrun; try discriminate; try (eexists _, _; reflexivity).
  - destruct (processObject_begin (s_src st) o io) as [emitted p].
    rewrite Hrun. destruct emitted; eexists _, _; reflexivity.
  - unfold select_case. cbn [e_send].
    destruct (s_ready st); [simpl; eexists _, _; reflexivity|].
    destruct (s_ctx st); [simpl; eexists _, _; reflexivity | discriminate].
  - destruct (s_mu st); [discriminate | eexists _, _; reflexivity].
  - unfold persistableCache_Set, shouldPersist. cbn [persistIncrement e_ord].
    destruct (Z.eqb_spec (persistIncrement (s_cache st)) 0); [contradiction|].
    destruct (negb _); eexists _, _; reflexivity.
Qed.

Lemma can_run_goes_on st i o pc :
  persistIncrement (s_cache st) <> 0 ->
  s_tasks st !! i = Some (mkTask o pc) ->
  can_run st pc = true ->
  goes_on st i.
Proof.
  intros Hinc Hi Hrun io ord undef _ _. exists (s_ready st).
  exact (can_run_fire st i o pc Hinc Hi Hrun io ord undef).
Qed.

(** Some goroutine can run, or none of them can. *)
Lemma can_run_dec st (ts : list Task) :
  (exists i t, ts !! i = Some t /\ can_run st (t_pc t) = true)
  \/ Forall (fun t => can_run st (t_pc t) = false) ts.
Proof.
  induction ts as [|t ts IH]; [right; constructor|].
  destruct (can_run st (t_pc t)) eqn:E.
  - left. exists 0%nat, t. split; [reflexivity | exact E].
  - destruct IH as [(i & u & Hi & Hu)|Hall].
    + left. exists (S i), u. split; assumption.
    + right. constructor; assumption.
Qed.

Lemma count_pc_pos (f : TaskPC -> bool) (ts : list Task) :
  (0 < count_pc f ts)%nat ->
  exists i t, ts !! i = Some t /\ f (t_pc t) = true.
Proof.
  induction ts as [|t ts IH]; simpl; [lia|]. intros H.
  destruct (f (t_pc t)) eqn:E.
  - exists 0%nat, t. split; [reflexivity | exact E].
  - destruct (IH ltac:(lia)) as (i & u & Hi & Hu).
    exists (S i), u. split; assumption.
Qed.

Lemma count_pc_Forall (f : TaskPC -> bool) (ts : list Task) :
  Forall (fun t => f (t_pc t) = false) ts -> count_pc f ts = 0%nat.
Proof.
  induction 1 as [|t ts Ht _ IH]; simpl; [reflexivity|].
  rewrite Ht, IH. reflexivity.
Qed.

(** In a well-formed state in which [Chunks] has not returned, the loop
    has a step, or a goroutine can run, or the consumer is not receiving
    and may hold every goroutine still running. *)
Lemma enabled_or_waiting (st : State) :
  wf st ->
  s_control st <> CReturned ->
  (exists ev st', fire st RunControl = Some (ev, st'))
  \/ (exists i t, s_tasks st !! i = Some t /\ can_run st (t_pc t) = true)
  \/ (s_control st = CWait /\ s_ready st = false
      /\ (exists i t, s_tasks st !! i = Some t /\ live (t_pc t) = true)
      /\ Forall (fun t => live (t_pc t) = true ->
                          waits_for_consumer st (t_pc t) = true) (s_tasks st)).
Proof.
  intros (Hmu & Hwg & Hch & Hret & Hinc) Hnot.
  destruct (s_control st) eqn:Ec; [| |contradiction].
  { left. unfold fire, fire_control. rewrite Ec.
    destruct (s_objectCh st) as [|[o|ty] rest].
    - eexists _, _. reflexivity.
    - destruct (memory.Exists (Cache (s_cache st)) (name o));
        eexists _, _; reflexivity.
    - eexists _, _. reflexivity. }
  destruct (Z.eq_dec (s_wg st) 0) as [Hz|Hnz].
  { left. unfold fire, fire_control. rewrite Ec, Hz.
    eexists _, _. reflexivity. }
  destruct (can_run_dec st (s_tasks st)) as [Hsome|Hnone];
    [right; left; exact Hsome | right; right].
  assert (Hfree : s_mu st = false).
  { assert (Hh : count_pc holds_mu (s_tasks st) = 0%nat).
    { apply count_pc_Forall. eapply Forall_impl; [exact Hnone|].
      intros t Ht. cbn beta in Ht. destruct (t_pc t); simpl in *; congruence. }
    rewrite Hh in Hmu. destruct (s_mu st); [discriminate | reflexivity]. }
  assert (Hwait : Forall (fun t => live (t_pc t) = true ->
                            waits_for_consumer st (t_pc t) = true) (s_tasks st)).
  { eapply Forall_impl; [exact Hnone|].
    intros t Ht Hl. cbn beta in Ht.
    destruct (t_pc t); simpl in *; try congruence.
    - rewrite Ht. reflexivity.
    - destruct (s_ready st); [discriminate|].
      destruct (s_ctx st); [discriminate | reflexivity].
    - rewrite Hfree in Ht. discriminate. }
  destruct (count_pc_pos live (s_tasks st) ltac:(lia)) as (i & t & Hi & Hl).
  pose proof (Forall_lookup_1 _ _ _ _ Hwait Hi Hl) as Hw.
  split; [reflexivity|].
  split; [|split; [exists i, t; split; assumption | exact Hwait]].
  destruct (t_pc t); simpl in Hw; try discriminate;
    destruct (s_ready st); try reflexivity; discriminate.
Qed.

(** The goroutine that holds the mutex can run. *)
Lemma holder_can_run (st : State) :
  wf st ->
  s_mu st = true ->
  exists i o pc,
    s_tasks st !! i = Some (mkTask o pc) /\ holds_mu pc = true
    /\ can_run st pc = true.
Proof.
  intros (Hmu & _) Hheld. rewrite Hheld in Hmu.
  destruct (count_pc_pos holds_mu (s_tasks st) ltac:(lia))
    as (i & [o pc] & Hi & Hh).
  exists i, o, pc. split; [exact Hi|]. split; [exact Hh|].
  destruct pc; simpl in *; congruence.
Qed.

Lemma program_fire st ch ev st' :
  fire st ch = Some (ev, st') ->
  program_event ev = program_choice ch
  /\ (program_choice ch = true ->
      s_ready st' = s_ready st /\ s_ctx st' = s_ctx st).
Proof.
  intros Hfire. destruct ch; fire_cases Hfire; split; try reflexivity;
    try discriminate; intros _; split; reflexivity.
Qed.

Lemma pc_after_started (p : Pending) : pc_after p <> TProcess.
Proof. destruct p as [[?|]|?]; discriminate. Qed.

(** What holds no goroutine before a step of the program holds none
    after it. *)
Lemma unheld_fire st ch ev st' :
  program_choice ch = true ->
  fire st ch = Some (ev, st') ->
  unheld st -> unheld st'.
Proof.
  intros Hp Hfire Hopen.
  destruct (program_fire _ _ _ _ Hfire) as [_ Hsame].
  destruct (Hsame Hp) as [Hrd Hcx].
  destruct Hopen as [Hr|(Hc & Hch & Hall)]; [left; congruence | right].
  split; [congruence|].
  destruct ch as [|j env| |]; try discriminate.
  - unfold fire, fire_control in Hfire. rewrite Hch in Hfire.
    destruct (s_control st); [| |discriminate].
    + simplify_eq. cbn. split; assumption.
    + destruct (s_wg st =? 0); simplify_eq. cbn. split; assumption.
  - assert (Hins : forall o pc, pc <> TProcess ->
               Forall (fun t => t_pc t <> TProcess)
                      (<[j := mkTask o pc]> (s_tasks st)))
      by (intros o pc Hpc; apply Forall_insert; assumption).
    pose proof pc_after_started as Hafter.
    fire_cases Hfire; cbn; (split; [exact Hch|]); apply Hins;
      first [apply Hafter | discriminate | exact (Hafter (Returned _))].
Qed.

(** Nor does a step of the environment change that, unless it is the
    consumer that stops receiving. *)
Lemma unheld_step st ev st' :
  step st ev st' -> ev <> EvReady false -> unheld st -> unheld st'.
Proof.
  intros (ch & _ & Hfire) Hev Hopen.
  destruct ch as [|j env|err|b].
  - exact (unheld_fire st RunControl ev st' eq_refl Hfire Hopen).
  - exact (unheld_fire st (RunTask j env) ev st' eq_refl Hfire Hopen).
  - fire_cases Hfire. destruct Hopen as [Hr|(Hc & _)]; [left; exact Hr|].
    congruence.
  - fire_cases Hfire. destruct b; [left; reflexivity | contradiction].
Qed.

(** With nothing holding the goroutines, [Chunks] returns within the
    work left, whichever steps are taken and whatever the collaborators
    answer. *)
Lemma return_within (n : nat) (st : State) :
  wf st -> unheld st -> (work st <= n)%nat -> returns_within n st.
Proof.
  revert st. induction n as [|n IH]; intros st Hwf Hopen Hwork.
  - left. unfold work in Hwork. destruct (s_control st); [lia | lia | reflexivity].
  - assert (Hdec : s_control st = CReturned \/ s_control st <> CReturned)
      by (destruct (s_control st); [right | right | left]; congruence).
    destruct Hdec as [Hret|Hnot]; [left; exact Hret | right].
    split.
    + destruct (enabled_or_waiting st Hwf Hnot)
        as [Hloop|[(i & [o pc] & Hi & Hrun)
                  |(_ & Hr & (i & t & Hi & Hl) & Hall)]].
      * left. exact Hloop.
      * right. exists i.
        exact (can_run_goes_on st i o pc (proj2 (proj2 (proj2 (proj2 Hwf))))
                 Hi Hrun).
      * exfalso. pose proof (Forall_lookup_1 _ _ _ _ Hall Hi Hl) as Hw.
        destruct Hopen as [Hr'|(Hc & _ & Hnone)]; [congruence|].
        pose proof (Forall_lookup_1 _ _ _ _ Hnone Hi) as Hnp. cbn beta in Hnp.
        destruct (t_pc t); simpl in Hw; try discriminate; [contradiction|].
        rewrite Hr in Hw. destruct (s_ctx st); [discriminate | contradiction].
    + intros ch ev st1 Hp Hv Hf.
      assert (Hstep : step st ev st1) by (exists ch; split; assumption).
      destruct (program_fire _ _ _ _ Hf) as [Hev _].
      pose proof (work_step _ _ _ Hstep) as Hw. rewrite Hev, Hp in Hw.
      apply IH;
        [ exact (wf_step _ _ _ Hwf Hstep)
        | exact (unheld_fire _ _ _ _ Hp Hf Hopen)
        | lia ].
Qed.

(** A return within [n] steps gives a run of at most [n] steps of the
    program. *)
Lemma returns_within_exec (n : nat) (st : State) :
  returns_within n st ->
  exists tr st',
    exec st tr st' /\ s_control st' = CReturned
    /\ Forall (fun ev => program_event ev = true) tr
    /\ (length tr <= n)%nat.
Proof.
  revert st. induction n as [|n IH]; intros st H.
  - destruct H as [H|[]]. exists [], st.
    split; [constructor|]. split; [exact H|]. split; [constructor | simpl; lia].
  - destruct H as [H|[Hprog Hall]].
    { exists [], st.
      split; [constructor|]. split; [exact H|]. split; [constructor | simpl; lia]. }
    assert (Hone : exists ch ev st1,
               program_choice ch = true /\ valid_choice ch
               /\ fire st ch = Some (ev, st1)).
    { destruct Hprog as [(ev & st1 & Hf)|(i & Hgo)].
      - exists RunControl, ev, st1. split; [reflexivity|]. split; [exact I | exact Hf].
      - destruct (Hgo (mkObjectIO None ([], false) None ([], None)) id 0
                    ltac:(intros l; reflexivity) eq_refl)
          as (send & ev & st1 & Hf).
        exists (RunTask i (mkEnv (mkObjectIO None ([], false) None ([], None))
                                 send id 0)), ev, st1.
        split; [reflexivity|]. split; [|exact Hf].
        split; [intros l; reflexivity | reflexivity]. }
    destruct Hone as (ch & ev & st1 & Hp & Hv & Hf).
    destruct (IH _ (Hall ch ev st1 Hp Hv Hf))
      as (tr & st' & Hex & Hret & Hprog' & Hlen).
    exists (ev :: tr), st'.
    split; [apply (exec_cons st ev st1 tr st');
            [exists ch; split; assumption | exact Hex]|].
    split; [exact Hret|].
    split; [|simpl; lia].
    constructor; [|exact Hprog'].
    rewrite (proj1 (program_fire _ _ _ _ Hf)). exact Hp.
Qed.

(** X1.  No deadlock of the program's own making.  In every state of a
    run in which [Chunks] has not returned, the loop has a step, or some
    goroutine has one whatever the reader, the handler, the range order
    and the open conversion answer, or [Chunks] is at [wg.Wait()], the
    consumer is not receiving and every goroutine still running is one it
    may hold: inside [processObject] before the [select], where the
    handler sends on the channel, or in its [select] with the context not
    cancelled.  So no goroutine is ever left waiting for the mutex; and
    whenever the mutex is held, the goroutine holding it has a step,
    whatever the collaborators answer.  (The calls of the reader and the
    handler return and the handler's sends proceed while the consumer
    receives; the object channel hands over its elements and is then
    closed.) *)
Theorem Chunks_no_deadlock
    (s : Source) (p : Progress) (ctx : option string) (ready : bool)
    (objs : list item) (tr : list Event) (st : State) :
  exec (Chunks_begin s p ctx ready objs) tr st ->
  s_control st <> CReturned ->
  ((exists ev st', fire st RunControl = Some (ev, st'))
   \/ (exists i, goes_on st i)
   \/ (s_control st = CWait /\ s_ready st = false
       /\ (exists i t, s_tasks st !! i = Some t /\ live (t_pc t) = true)
       /\ Forall (fun t => live (t_pc t) = true ->
                           waits_for_consumer st (t_pc t) = true) (s_tasks st)))
  /\ (s_mu st = true ->
      exists i o pc,
        s_tasks st !! i = Some (mkTask o pc) /\ holds_mu pc = true
        /\ goes_on st i).
Proof.
  intros Hexec Hnot.
  pose proof (wf_exec _ _ _ Hexec (wf_begin s p ctx ready objs)) as Hwf.
  pose proof (proj2 (proj2 (proj2 (proj2 Hwf)))) as Hinc.
  split.
  - destruct (enabled_or_waiting st Hwf Hnot)
      as [Hloop|[(i & [o pc] & Hi & Hrun)|Hheld]].
    + left. exact Hloop.
    + right. left. exists i. exact (can_run_goes_on st i o pc Hinc Hi Hrun).
    + right. right. exact Hheld.
  - intros Hmu.
    destruct (holder_can_run st Hwf Hmu) as (i & o & pc & Hi & Hh & Hrun).
    exists i, o, pc. split; [exact Hi|]. split; [exact Hh|].
    exact (can_run_goes_on st i o pc Hinc Hi Hrun).
Qed.

Lemma Chunks_no_deadlock_witness :
  let st := snd (outcome (fst run_inside) (snd run_inside)) in
  s_mu st = true
  /\ exists i o pc,
       s_tasks st !! i = Some (mkTask o pc) /\ holds_mu pc = true
       /\ goes_on st i.
Proof.
  assert (Hnot : s_control (snd (outcome (fst run_inside) (snd run_inside)))
                 <> CReturned) by (vm_compute; discriminate).
  assert (Hmu : s_mu (snd (outcome (fst run_inside) (snd run_inside))) = true)
    by (vm_compute; reflexivity).
  split; [exact Hmu|].
  exact (proj2 (Chunks_no_deadlock (sample_source 2) progress0 None true
                  [ItemObject (sample_object "a"); ItemObject (sample_object "b")]
                  _ _ run_inside_exec Hnot) Hmu).
Defined.

(** X2.  Bounded work: the steps the program has taken in a run, plus
    those it has at most left, never exceed ten for each listed element
    and two; so no run has more than that many steps of the loop and the
    goroutines. *)
Theorem Chunks_bounded_steps
    (s : Source) (p : Progress) (ctx : option string) (ready : bool)
    (objs : list item) (tr : list Event) (st : State) :
  exec (Chunks_begin s p ctx ready objs) tr st ->
  (count_events program_event tr + work st <= 10 * length objs + 2)%nat
  /\ (count_events program_event tr <= 10 * length objs + 2)%nat.
Proof.
  intros Hexec. pose proof (work_exec _ _ _ Hexec) as H.
  unfold work at 2 in H.
  cbn [Chunks_begin s_objectCh s_tasks s_control tasks_left] in H.
  lia.
Qed.

Lemma Chunks_bounded_steps_witness :
  (count_events program_event (fst (outcome (fst run_inside) (snd run_inside)))
   <= 22)%nat.
Proof.
  exact (proj2 (Chunks_bounded_steps (sample_source 2) progress0 None true
                  [ItemObject (sample_object "a"); ItemObject (sample_object "b")]
                  _ _ run_inside_exec)).
Defined.

(** X3.  [Chunks] returns, whichever steps are taken and whatever its
    collaborators answer, once nothing holds its goroutines.  Take a state
    of a run in which the consumer is receiving, or in which the context
    is cancelled, no element is left to come and every goroutine has got
    past its reader and handler.  Then [Chunks] returns within the work
    left: as long as it has not returned, the loop has a step or some
    goroutine has one for every answer of the reader, the handler, the
    range order and the open conversion, and every step of the loop or a
    goroutine leads to a state of which the same holds with one step
    less; in particular there is a run of the program's steps alone, at
    most as many as the work left, to the return.  No step of the
    environment undoes this, unless it is the consumer that stops
    receiving.  (The calls of the reader and the handler return and the
    handler's sends proceed while the consumer receives; the object
    channel hands over its elements and is then closed.) *)
Theorem Chunks_can_return
    (s : Source) (p : Progress) (ctx : option string) (ready : bool)
    (objs : list item) (tr : list Event) (st : State) :
  exec (Chunks_begin s p ctx ready objs) tr st ->
  unheld st ->
  returns_within (work st) st
  /\ (exists tr' st',
        exec st tr' st'
        /\ s_control st' = CReturned
        /\ Forall (fun ev => program_event ev = true) tr'
        /\ (length tr' <= work st)%nat)
  /\ (forall ev st1, step st ev st1 -> ev <> EvReady false -> unheld st1).
Proof.
  intros Hexec Hopen.
  pose proof (wf_exec _ _ _ Hexec (wf_begin s p ctx ready objs)) as Hwf.
  pose proof (return_within (work st) st Hwf Hopen ltac:(lia)) as Hret.
  split; [exact Hret|]. split; [exact (returns_within_exec _ _ Hret)|].
  intros ev st1 Hstep Hev. exact (unheld_step _ _ _ Hstep Hev Hopen).
Qed.

Lemma Chunks_can_return_witness :
  let st := snd (outcome (fst run_inside) (snd run_inside)) in
  returns_within (work st) st.
Proof.
  assert (Hopen : unheld (snd (outcome (fst run_inside) (snd run_inside))))
    by (left; vm_compute; reflexivity).
  exact (proj1 (Chunks_can_return (sample_source 2) progress0 None true
                  [ItemObject (sample_object "a"); ItemObject (sample_object "b")]
                  _ _ run_inside_exec Hopen)).
Defined.

(** * Fan-out *)

(** The loop alone, on objects none of which is in the cache. *)
Lemma loop_spawns (objs : list object) (st : State) :
  s_control st = CRange ->
  s_objectCh st = map ItemObject objs ->
  Forall (fun o => memory.Exists (Cache (s_cache st)) (name o) = false) objs ->
  exists st',
    run st (repeat RunControl (length objs)) = Some (map EvSpawn objs, st')
    /\ s_tasks st' = s_tasks st ++ map (fun o => mkTask o TProcess) objs
    /\ s_wg st' = s_wg st + Z.of_nat (length objs)
    /\ s_control st' = CRange /\ s_objectCh st' = []
    /\ s_cache st' = s_cache st /\ s_progress st' = s_progress st
    /\ s_chunksCh st' = s_chunksCh st.
Proof.
  revert st. induction objs as [|o objs IH]; intros st Hc Hch Hall.
  - exists st. simpl. rewrite app_nil_r, Z.add_0_r. repeat split; assumption.
  - apply Forall_cons in Hall as [Ho Hrest].
    set (st1 := with_tasks (with_wg (with_objectCh st (map ItemObject objs))
                                    (s_wg st + 1))
                           (s_tasks st ++ [mkTask o TProcess])).
    assert (Hf : fire st RunControl = Some (EvSpawn o, st1)).
    { unfold fire, fire_control. rewrite Hc, Hch. simpl. rewrite Ho. reflexivity. }
    destruct (IH st1 Hc eq_refl Hrest)
      as (st' & Hrun & Ht & Hw & Hc' & Hch' & Hca & Hp & Hk).
    exists st'. cbn [length repeat run map]. rewrite Hf, Hrun.
    split; [reflexivity|]. split.
    { rewrite Ht. subst st1. cbn. rewrite <- app_assoc. reflexivity. }
    split; [rewrite Hw; subst st1; cbn; lia|].
    repeat split; assumption.
Qed.

(** X4.  Unbounded fan-out: when none of the listed objects is in the
    resumed cache, the loop alone receives them all and starts one
    goroutine for each, duplicates of a name included, before any
    goroutine has taken a step; the wait group then counts them all.
    The concurrency setting of the source plays no part. *)
Theorem loop_spawns_every_unseen
    (s : Source) (p : Progress) (ctx : option string) (ready : bool)
    (objs : list object) :
  Forall (fun o => memory.Exists (Cache (setupCache p)) (name o) = false) objs ->
  exists st',
    run (Chunks_begin s p ctx ready (map ItemObject objs))
        (repeat RunControl (length objs))
    = Some (map EvSpawn objs, st')
    /\ s_tasks st' = map (fun o => mkTask o TProcess) objs
    /\ s_wg st' = Z.of_nat (length objs)
    /\ count_pc live (s_tasks st') = length objs
    /\ s_control st' = CRange /\ s_objectCh st' = []
    /\ s_chunksCh st' = [].
Proof.
  intros Hall.
  destruct (loop_spawns objs (Chunks_begin s p ctx ready (map ItemObject objs))
              eq_refl eq_refl Hall)
    as (st' & Hrun & Ht & Hw & Hc & Hch & _ & _ & Hk).
  exists st'. split; [exact Hrun|]. cbn in Ht, Hw, Hk.
  split; [exact Ht|]. split; [exact Hw|]. split.
  { rewrite Ht. clear. induction objs; simpl; [reflexivity | lia]. }
  repeat split; assumption.
Qed.

Lemma loop_spawns_every_unseen_witness :
  exists st',
    run (Chunks_begin (sample_source 1) progress0 None false
           (map ItemObject [sample_object "a"; sample_object "a"]))
        (repeat RunControl 2)
    = Some (map EvSpawn [sample_object "a"; sample_object "a"], st')
    /\ s_wg st' = 2.
Proof.
  assert (Hall : Forall (fun o => memory.Exists (Cache (setupCache progress0))
                                                (name o) = false)
                        [sample_object "a"; sample_object "a"])
    by (repeat constructor).
  destruct (loop_spawns_every_unseen (sample_source 1) progress0 None false
              [sample_object "a"; sample_object "a"] Hall)
    as (st' & Hrun & _ & Hw & _).
  exists st'. split; [exact Hrun | exact Hw].
Defined.

(** * What a step changes *)

(** A step of a goroutine moves that goroutine to its next program
    point and leaves the other goroutines, the elements to come and the
    loop as they are; the cache changes in [cache.Set] only. *)
Lemma task_shape st i env ev st' :
  fire_task st i env = Some (ev, st') ->
  exists o pc pc',
    s_tasks st !! i = Some (mkTask o pc)
    /\ s_tasks st' = <[i := mkTask o pc']> (s_tasks st)
    /\ pc_next pc pc'
    /\ s_objectCh st' = s_objectCh st /\ s_control st' = s_control st
    /\ match pc with
       | TCacheSet =>
           Cache (s_cache st')
           = memory.Set_ (Cache (s_cache st)) (name o) (name o)
       | _ => s_cache st' = s_cache st
       end.
Proof.
  intros Hfire. unfold fire_task in Hfire.
  destruct (s_tasks st !! i) as [[o pc]|] eqn:Hi; [|discriminate].
  exists o, pc.
  destruct pc; repeat case_match; simplify_eq; cbn;
    try (eexists; split; [reflexivity|]; split; [reflexivity|];
         split; [simpl; eauto|]; split; [reflexivity|];
         split; reflexivity).
  - match goal with
    | |- context [pc_after ?p] => exists (pc_after p); destruct p as [[e|]|c]
    end; simpl; repeat split; eauto.
  - match goal with
    | |- context [match ?e with Some _ => _ | None => _ end] => destruct e
    end; eexists; repeat split; eauto.
  - eexists. repeat split.
    eapply persistableCache_Set_cache. eassumption.
Qed.

(** A step of the loop takes an element and skips it or starts its
    goroutine, or ends the loop, or ends [Chunks]; the cache stays. *)
Lemma control_shape st ev st' :
  fire_control st = Some (ev, st') ->
  s_cache st' = s_cache st
  /\ ((s_objectCh st' = s_objectCh st /\ s_tasks st' = s_tasks st)
      \/ (exists ty, s_objectCh st = ItemOther ty :: s_objectCh st'
                     /\ s_tasks st' = s_tasks st)
      \/ (exists o, s_objectCh st = ItemObject o :: s_objectCh st'
                    /\ memory.Exists (Cache (s_cache st)) (name o) = true
                    /\ s_tasks st' = s_tasks st)
      \/ (exists o, s_objectCh st = ItemObject o :: s_objectCh st'
                    /\ memory.Exists (Cache (s_cache st)) (name o) = false
                    /\ s_tasks st' = s_tasks st ++ [mkTask o TProcess])).
Proof.
  intros Hfire. unfold fire_control in Hfire.
  repeat case_match; simplify_eq; cbn; (split; [reflexivity|]);
    first [ left; split; first [assumption | reflexivity]
          | right; left; eexists; repeat split;
            first [eassumption | reflexivity]
          | right; right; left; eexists; repeat split;
            first [eassumption | reflexivity]
          | right; right; right; eexists; repeat split;
            first [eassumption | reflexivity] ].
Qed.

Lemma env_shape st ch ev st' :
  program_choice ch = false ->
  fire st ch = Some (ev, st') ->
  s_cache st' = s_cache st /\ s_tasks st' = s_tasks st
  /\ s_objectCh st' = s_objectCh st /\ s_control st' = s_control st
  /\ s_progress st' = s_progress st.
Proof.
  intros Hp Hfire. destruct ch; try discriminate; fire_cases Hfire;
    repeat split.
Qed.

(** * Every listed object is accounted for *)

Lemma marked_in_step st ev st' :
  marked_in st -> step st ev st' -> marked_in st'.
Proof.
  intros Hinv Hstep.
  pose proof (fun k => cache_grows_step _ _ _ k Hstep) as Hgrow.
  destruct Hstep as (ch & _ & Hfire).
  intros j o pc Hj Hm.
  destruct ch as [|i env|err|b].
  - destruct (control_shape _ _ _ Hfire) as (_ & [(_ & Ht)|[(ty & _ & Ht)|
      [(o' & _ & _ & Ht)|(o' & _ & _ & Ht)]]]);
      rewrite Ht in Hj; try (apply Hgrow; eapply Hinv; eassumption).
    apply lookup_snoc_Some in Hj as [Hj|Hj];
      [apply Hgrow; eapply Hinv; eassumption|].
    injection Hj as -> ->. discriminate.
  - destruct (task_shape _ _ _ _ _ Hfire)
      as (o' & pc0 & pc' & Hi & Ht & Hn & _ & _ & Hc).
    rewrite Ht, (lookup_set_pc _ _ _ _ _ Hi) in Hj.
    destruct (decide (i = j)) as [->|Hne];
      [|apply Hgrow; eapply Hinv; eassumption].
    injection Hj as -> ->.
    destruct (marked pc0) eqn:Em; [apply Hgrow; eapply Hinv; eassumption|].
    destruct pc0 as [| | | | | | | |[e0|]|[e0|]]; simpl in Hn, Em;
      try discriminate; try contradiction;
      try (destruct Hn as [->|[[e ->]|[c ->]]]; discriminate);
      try (destruct Hn as [->|[e ->]]; discriminate);
      try (subst pc; discriminate).
    rewrite Hc, Exists_Set, String.eqb_refl. reflexivity.
  - destruct (env_shape _ (Cancel err) _ _ eq_refl Hfire) as (Hc & Ht & _).
    rewrite Hc. rewrite Ht in Hj. eapply Hinv; eassumption.
  - destruct (env_shape _ (Ready b) _ _ eq_refl Hfire) as (Hc & Ht & _).
    rewrite Hc. rewrite Ht in Hj. eapply Hinv; eassumption.
Qed.

Lemma task_obj_step st ev st' i o pc :
  step st ev st' ->
  s_tasks st !! i = Some (mkTask o pc) ->
  exists pc', s_tasks st' !! i = Some (mkTask o pc').
Proof.
  intros (ch & _ & Hfire) Hi. destruct ch as [|j env|err|b].
  - destruct (control_shape _ _ _ Hfire) as (_ & [(_ & Ht)|[(ty & _ & Ht)|
      [(o' & _ & _ & Ht)|(o' & _ & _ & Ht)]]]); rewrite Ht; eauto.
    exists pc. apply lookup_app_l_Some, Hi.
  - destruct (task_shape _ _ _ _ _ Hfire)
      as (o' & pc0 & pc' & Hj & Ht & _).
    rewrite Ht, (lookup_set_pc _ _ _ _ _ Hj).
    destruct (decide (j = i)) as [->|Hne]; [|eauto].
    rewrite Hi in Hj. injection Hj as <- <-. eauto.
  - destruct (env_shape _ (Cancel err) _ _ eq_refl Hfire) as (_ & Ht & _).
    rewrite Ht. eauto.
  - destruct (env_shape _ (Ready b) _ _ eq_refl Hfire) as (_ & Ht & _).
    rewrite Ht. eauto.
Qed.

Lemma accounted_step objs st ev st' :
  accounted objs st -> step st ev st' -> accounted objs st'.
Proof.
  intros Hinv Hstep o Ho.
  pose proof (fun k => cache_grows_step _ _ _ k Hstep) as Hgrow.
  destruct (Hinv o Ho) as [Hin|[Hc|(i & pc & Hi)]].
  - destruct Hstep as (ch & _ & Hfire). destruct ch as [|j env|err|b].
    + destruct (control_shape _ _ _ Hfire) as (Hca & [(Hch & _)|[(ty & Hch & _)|
        [(o' & Hch & Hex & _)|(o' & Hch & _ & Ht)]]]).
      * left. rewrite Hch. exact Hin.
      * rewrite Hch in Hin. apply elem_of_cons in Hin as [Heq|Hin];
          [discriminate | left; exact Hin].
      * rewrite Hch in Hin. apply elem_of_cons in Hin as [Heq|Hin];
          [|left; exact Hin].
        injection Heq as ->. right; left. rewrite Hca. exact Hex.
      * rewrite Hch in Hin. apply elem_of_cons in Hin as [Heq|Hin];
          [|left; exact Hin].
        injection Heq as ->. right; right.
        exists (length (s_tasks st)), TProcess. rewrite Ht.
        apply list_lookup_middle. reflexivity.
    + destruct (task_shape _ _ _ _ _ Hfire) as (_ & _ & _ & _ & _ & _ & Hch & _).
      left. rewrite Hch. exact Hin.
    + destruct (env_shape _ (Cancel err) _ _ eq_refl Hfire) as (_ & _ & Hch & _).
      left. rewrite Hch. exact Hin.
    + destruct (env_shape _ (Ready b) _ _ eq_refl Hfire) as (_ & _ & Hch & _).
      left. rewrite Hch. exact Hin.
  - right; left. apply Hgrow, Hc.
  - right; right. destruct (task_obj_step _ _ _ _ _ _ Hstep Hi) as (pc' & Hi').
    exists i, pc'. exact Hi'.
Qed.

Lemma from_listing_step objs st ev st' :
  from_listing objs st -> step st ev st' -> from_listing objs st'.
Proof.
  intros [Hch Hts] (ch & _ & Hfire). destruct ch as [|j env|err|b].
  - destruct (control_shape _ _ _ Hfire) as (_ & [(Hc & Ht)|[(ty & Hc & Ht)|
      [(o' & Hc & _ & Ht)|(o' & Hc & _ & Ht)]]]); rewrite ?Hc in Hch;
      try (apply Forall_cons in Hch as [Hhd Htl]);
      (split; [first [rewrite Hc; assumption | assumption]|]);
      rewrite Ht; try exact Hts.
    intros i o pc Hi. apply lookup_snoc_Some in Hi as [Hi|Hi];
      [eapply Hts; eassumption|].
    injection Hi as -> _. exact Hhd.
  - destruct (task_shape _ _ _ _ _ Hfire)
      as (o' & pc0 & pc' & Hj & Ht & _ & Hc & _).
    split; [rewrite Hc; exact Hch|].
    intros i o pc Hi. rewrite Ht, (lookup_set_pc _ _ _ _ _ Hj) in Hi.
    destruct (decide (j = i)) as [->|Hne]; [|eapply Hts; eassumption].
    injection Hi as <- _. eapply Hts; eassumption.
  - destruct (env_shape _ (Cancel err) _ _ eq_refl Hfire) as (_ & Ht & Hc & _).
    split; [rewrite Hc; exact Hch | rewrite Ht; exact Hts].
  - destruct (env_shape _ (Ready b) _ _ eq_refl Hfire) as (_ & Ht & Hc & _).
    split; [rewrite Hc; exact Hch | rewrite Ht; exact Hts].
Qed.

Lemma accounting_exec objs st tr st' :
  exec st tr st' ->
  accounted objs st /\ marked_in st /\ from_listing objs st ->
  accounted objs st' /\ marked_in st' /\ from_listing objs st'.
Proof.
  induction 1 as [|st ev st1 tr st2 Hstep _ IH]; [tauto|].
  intros (Ha & Hm & Hf). apply IH.
  split; [eapply accounted_step; eassumption|].
  split; [eapply marked_in_step | eapply from_listing_step]; eassumption.
Qed.

Lemma accounting_begin s p ctx ready objs :
  accounted objs (Chunks_begin s p ctx ready objs)
  /\ marked_in (Chunks_begin s p ctx ready objs)
  /\ from_listing objs (Chunks_begin s p ctx ready objs).
Proof.
  split; [intros o Ho; left; exact Ho|]. split.
  - intros i o pc Hi. discriminate.
  - split; [apply Forall_forall; auto | intros i o pc Hi; discriminate].
Qed.

(** X5.  Every listed object is accounted for.  At any moment of a run
    the keys of the cache are those of the resumed snapshot and the
    names of the goroutines that have called [cache.Set], and every
    goroutine belongs to a listed object.  When [Chunks] has returned,
    each listed object has its name in the cache, or a goroutine of its
    own that ended with an error. *)
Theorem Chunks_accounts_for_every_object
    (s : Source) (p : Progress) (ctx : option string) (ready : bool)
    (objs : list item) (tr : list Event) (st : State) :
  exec (Chunks_begin s p ctx ready objs) tr st ->
  (forall k,
      memory.Exists (Cache (s_cache st)) k = true
      <-> memory.Exists (Cache (setupCache p)) k = true
          \/ exists i o pc,
               s_tasks st !! i = Some (mkTask o pc)
               /\ name o = k /\ marked pc = true)
  /\ (forall i o pc,
        s_tasks st !! i = Some (mkTask o pc) -> ItemObject o ∈ objs)
  /\ (s_control st = CReturned ->
      forall o,
        ItemObject o ∈ objs ->
        memory.Exists (Cache (s_cache st)) (name o) = true
        \/ exists i err,
             s_tasks st !! i = Some (mkTask o (TExited (Some err)))).
Proof.
  intros Hexec.
  destruct (accounting_exec objs _ _ _ Hexec (accounting_begin s p ctx ready objs))
    as (Hacc & Hmark & Hlist).
  pose proof (marked_inv_exec p _ _ _ Hexec (marked_inv_begin s p ctx ready objs))
    as Hinv.
  pose proof (wf_exec _ _ _ Hexec (wf_begin s p ctx ready objs)) as Hwf.
  split; [|split].
  - intros k. split; [apply Hinv|].
    intros [Hk|(i & o & pc & Hi & <- & Hm)]; [|eapply Hmark; eassumption].
    clear -Hexec Hk.
    change (memory.Exists (Cache (s_cache (Chunks_begin s p ctx ready objs))) k
            = true) in Hk.
    induction Hexec as [|st ev st1 tr st2 Hstep _ IH]; [exact Hk|].
    apply IH. eapply cache_grows_step; eassumption.
  - exact (proj2 Hlist).
  - intros Hret o Ho.
    destruct (Hacc o Ho) as [Hin|[Hc|(i & pc & Hi)]].
    + destruct Hwf as (_ & _ & Hch & _).
      rewrite Hch in Hin by congruence. apply elem_of_nil in Hin. contradiction.
    + left. exact Hc.
    + pose proof (returned_no_live _ _ _ Hwf Hret Hi) as Hl. cbn in Hl.
      destruct pc as [| | | | | | | | |[err|]]; try discriminate.
      * right. exists i, err. exact Hi.
      * left. eapply Hmark; [exact Hi | reflexivity].
Qed.

Lemma Chunks_accounts_for_every_object_witness :
  let st := snd (outcome (fst run_one_fails) (snd run_one_fails)) in
  memory.Exists (Cache (s_cache st)) "d" = true
  \/ exists i err,
       s_tasks st !! i = Some (mkTask (sample_object "d") (TExited (Some err))).
Proof.
  assert (Hret : s_control (snd (outcome (fst run_one_fails) (snd run_one_fails)))
                 = CReturned) by (vm_compute; reflexivity).
  assert (Hin : ItemObject (sample_object "d")
                ∈ [ItemObject (sample_object "d"); ItemObject (sample_object "e")])
    by (apply elem_of_cons; left; reflexivity).
  exact (proj2 (proj2 (Chunks_accounts_for_every_object
                         (sample_source 2) progress0 None true
                         [ItemObject (sample_object "d");
                          ItemObject (sample_object "e")]
                         _ _ run_one_fails_exec)) Hret (sample_object "d") Hin).
Defined.

(** * Marking follows emission *)

Lemma processObject_begin_chunk s o io emitted chunk :
  processObject_begin s o io = (emitted, Selecting chunk) ->
  exists d, chunk = set_Data (chunkSkel s o) (Some d).
Proof.
  unfold processObject_begin.
  destruct (readObjectData io) as [em [data err]].
  destruct err; [discriminate|]. destruct data as [d|]; [|discriminate].
  intros H. injection H as _ <-. exists d. reflexivity.
Qed.

Lemma emitted_more s i o tr ev :
  handled_in i o tr \/ (exists d, raw_sent_in s i o d tr) ->
  handled_in i o (tr ++ [ev]) \/ (exists d, raw_sent_in s i o d (tr ++ [ev])).
Proof.
  unfold handled_in, raw_sent_in.
  intros [(em & H)|(d & H)]; [left; exists em | right; exists d];
    apply elem_of_app; left; exact H.
Qed.

Lemma emission_inv_step s tr st ev st' :
  s_src st = s ->
  emission_inv s tr st -> step st ev st' -> emission_inv s (tr ++ [ev]) st'.
Proof.
  intros Hsrc [Hsome Hnone] (ch & _ & Hfire).
  assert (Hsnoc : forall i, Forall (fun e => sends_of i e = false) tr ->
                            sends_of i ev = false ->
                            Forall (fun e => sends_of i e = false) (tr ++ [ev])).
  { intros i H1 H2. apply Forall_app. split; [exact H1|].
    constructor; [exact H2 | constructor]. }
  destruct ch as [|j env|err|b].
  - assert (Hev : forall i, sends_of i ev = false)
      by (intros i; unfold fire, fire_control in Hfire;
          repeat case_match; simplify_eq; reflexivity).
    destruct (control_shape _ _ _ Hfire) as (_ & [(_ & Ht)|[(ty & _ & Ht)|
      [(o' & _ & _ & Ht)|(o' & _ & _ & Ht)]]]); split.
    1, 3, 5: intros i o pc Hi; rewrite Ht in Hi;
      destruct (Hsome i o pc Hi) as [H1 H2];
      (split; [exact H1 | intros Hs; apply emitted_more, H2, Hs]).
    1, 2, 3: intros i Hi; rewrite Ht in Hi;
      (apply Hsnoc; [apply Hnone, Hi | apply Hev]).
    + intros i o pc Hi. rewrite Ht in Hi.
      apply lookup_snoc_Some in Hi as [Hi|Hi].
      * destruct (Hsome i o pc Hi) as [H1 H2].
        split; [exact H1 | intros Hs; apply emitted_more, H2, Hs].
      * injection Hi as -> ->. split; [discriminate | discriminate].
    + intros i Hi. apply Hsnoc; [|apply Hev]. apply Hnone.
      rewrite Ht in Hi.
      destruct (s_tasks st !! i) as [t|] eqn:Ei; [|exact I].
      rewrite (lookup_app_l_Some _ _ _ _ Ei) in Hi. exact Hi.
  - unfold fire, fire_task in Hfire.
    destruct (s_tasks st !! j) as [[o pc]|] eqn:Hj; [|discriminate].
    destruct (Hsome j o pc Hj) as [Hsel Hsucc].
    pose proof (Hnone j) as Hnj. rewrite Hj in Hnj. cbn [t_pc] in Hnj.
    assert (Hother : forall pc',
               (forall i o' pci,
                   <[j := mkTask o pc']> (s_tasks st) !! i = Some (mkTask o' pci) ->
                   i <> j ->
                   (forall chunk, pci = TSelect chunk ->
                      exists d, chunk = set_Data (chunkSkel s o') (Some d))
                   /\ (succeeded pci = true ->
                       handled_in i o' (tr ++ [ev])
                       \/ exists d, raw_sent_in s i o' d (tr ++ [ev])))
               /\ (forall i, i <> j ->
                     match <[j := mkTask o pc']> (s_tasks st) !! i with
                     | Some t => succeeded (t_pc t) = false
                     | None => True
                     end ->
                     sends_of i ev = false ->
                     Forall (fun e => sends_of i e = false) (tr ++ [ev]))).
    { intros pc'. split.
      - intros i o' pci Hi Hne.
        rewrite list_lookup_insert_ne in Hi by congruence.
        destruct (Hsome i o' pci Hi) as [H1 H2].
        split; [exact H1 | intros Hs; apply emitted_more, H2, Hs].
      - intros i Hne Hi Hev. apply Hsnoc; [|exact Hev]. apply Hnone.
        rewrite list_lookup_insert_ne in Hi by congruence. exact Hi. }
    assert (Hfin : forall pc',
               s_tasks st' = <[j := mkTask o pc']> (s_tasks st) ->
               (forall i, i <> j -> sends_of i ev = false) ->
               (forall chunk, pc' = TSelect chunk ->
                  exists d, chunk = set_Data (chunkSkel s o) (Some d)) ->
               (succeeded pc' = true ->
                handled_in j o (tr ++ [ev])
                \/ exists d, raw_sent_in s j o d (tr ++ [ev])) ->
               (succeeded pc' = false ->
                Forall (fun e => sends_of j e = false) (tr ++ [ev])) ->
               emission_inv s (tr ++ [ev]) st').
    { intros pc' Ht Hev H1 H2 H3. destruct (Hother pc') as [Ho1 Ho2].
      split.
      - intros i o' pci Hi. rewrite Ht in Hi.
        destruct (decide (i = j)) as [->|Hne]; [|apply Ho1; assumption].
        rewrite (lookup_set_pc _ _ _ _ _ Hj), decide_True in Hi by reflexivity.
        injection Hi as <- <-. split; assumption.
      - intros i Hi. rewrite Ht in Hi.
        destruct (decide (i = j)) as [->|Hne];
          [|apply Ho2; [assumption | assumption | apply Hev, Hne]].
        rewrite (lookup_set_pc _ _ _ _ _ Hj), decide_True in Hi by reflexivity.
        apply H3, Hi. }
    assert (Hidx : forall i o' c sel, i <> j ->
                     sends_of i (EvSelect j o' c sel) = false).
    { intros i o' c sel Hne. destruct sel; [reflexivity|]. simpl.
      apply Nat.eqb_neq. congruence. }
    destruct pc; repeat case_match; simplify_eq.
    + (* processObject up to the select *)
      match goal with
      | H : processObject_begin _ _ _ = (?em, ?p) |- _ =>
          apply (Hfin (pc_after p)); [reflexivity | reflexivity | | |];
          destruct p as [[e|]|c]; cbn [pc_after succeeded]; try discriminate
      end.
      * intros chunk Hc. injection Hc as <-.
        eapply processObject_begin_chunk. eassumption.
      * intros _. left. eexists. apply elem_of_app. right.
        apply list_elem_of_singleton. reflexivity.
      * intros _. apply Hsnoc; [apply Hnj; reflexivity | reflexivity].
      * intros _. apply Hsnoc; [apply Hnj; reflexivity | reflexivity].
    + (* the select *)
      match goal with
      | H : processObject_select _ ?sel = _ |- _ =>
          destruct sel as [cerr|]; cbn in H; simplify_eq
      end.
      * apply (Hfin (TDeferred (Some cerr)));
          [reflexivity | intros i Hne; apply Hidx, Hne | discriminate
          | discriminate |].
        intros _. apply Hsnoc; [apply Hnj; reflexivity | reflexivity].
      * apply (Hfin TLock);
          [reflexivity | intros i Hne; apply Hidx, Hne | discriminate |
          | discriminate].
        intros _. right. destruct (Hsel chunk eq_refl) as [d ->].
        exists d. apply elem_of_app. right.
        apply list_elem_of_singleton. reflexivity.
    + apply (Hfin TIncrement); [reflexivity | reflexivity | discriminate | |
                                discriminate].
      intros _. apply emitted_more, Hsucc. reflexivity.
    + apply (Hfin TCacheSet); [reflexivity | reflexivity | discriminate | |
                               discriminate].
      intros _. apply emitted_more, Hsucc. reflexivity.
    + apply (Hfin TRemaining); [reflexivity | reflexivity | discriminate | |
                                discriminate].
      intros _. apply emitted_more, Hsucc. reflexivity.
    + apply (Hfin TPercent); [reflexivity | reflexivity | discriminate | |
                              discriminate].
      intros _. apply emitted_more, Hsucc. reflexivity.
    + apply (Hfin TUnlock); [reflexivity | reflexivity | discriminate | |
                             discriminate].
      intros _. apply emitted_more, Hsucc. reflexivity.
    + apply (Hfin (TDeferred None)); [reflexivity | reflexivity | discriminate | |
                                      discriminate].
      intros _. apply emitted_more, Hsucc. reflexivity.
    + apply (Hfin (TExited err)); [reflexivity | reflexivity | discriminate | |].
      * destruct err; [discriminate|]. intros _.
        apply emitted_more, Hsucc. reflexivity.
      * destruct err; [|discriminate]. intros _.
        apply Hsnoc; [apply Hnj; reflexivity | reflexivity].
  - destruct (env_shape _ (Cancel err) _ _ eq_refl Hfire) as (_ & Ht & _).
    assert (Hev : forall i, sends_of i ev = false)
      by (intros i; fire_cases Hfire; reflexivity).
    split.
    + intros i o pc Hi. rewrite Ht in Hi. destruct (Hsome i o pc Hi) as [H1 H2].
      split; [exact H1 | intros Hs; apply emitted_more, H2, Hs].
    + intros i Hi. rewrite Ht in Hi. apply Hsnoc; [apply Hnone, Hi | apply Hev].
  - destruct (env_shape _ (Ready b) _ _ eq_refl Hfire) as (_ & Ht & _).
    assert (Hev : forall i, sends_of i ev = false)
      by (intros i; fire_cases Hfire; reflexivity).
    split.
    + intros i o pc Hi. rewrite Ht in Hi. destruct (Hsome i o pc Hi) as [H1 H2].
      split; [exact H1 | intros Hs; apply emitted_more, H2, Hs].
    + intros i Hi. rewrite Ht in Hi. apply Hsnoc; [apply Hnone, Hi | apply Hev].
Qed.

Lemma emission_inv_exec s p ctx ready objs tr st :
  exec (Chunks_begin s p ctx ready objs) tr st -> emission_inv s tr st.
Proof.
  intros Hexec.
  apply (exec_ind_end (fun tr st => emission_inv s tr st)
           (Chunks_begin s p ctx ready objs)); [| |exact Hexec].
  - split; [intros i o pc Hi; discriminate | intros i _; constructor].
  - intros tr0 st0 ev st' Hex Hinv Hstep.
    eapply emission_inv_step; [|exact Hinv | exact Hstep].
    exact (src_exec _ _ _ Hex).
Qed.

(** The send of a goroutine is a step out of its [select]. *)
Lemma send_step st ev st' i :
  step st ev st' -> sends_of i ev = true ->
  exists o chunk, s_tasks st !! i = Some (mkTask o (TSelect chunk)).
Proof.
  intros (ch & _ & Hfire) Hs.
  destruct ch as [|j env| |]; fire_cases Hfire; try discriminate.
  match goal with
  | H : sends_of _ (EvSelect _ _ _ ?sel) = true |- _ =>
      destruct sel; [discriminate|]; simpl in H; apply Nat.eqb_eq in H as ->
  end.
  eauto.
Qed.

Lemma single_send s p ctx ready objs tr st i :
  exec (Chunks_begin s p ctx ready objs) tr st ->
  (count_events (sends_of i) tr <= 1)%nat.
Proof.
  intros Hexec.
  refine (exec_ind_end
            (fun tr _ => (count_events (sends_of i) tr <= 1)%nat)
            (Chunks_begin s p ctx ready objs) _ _ tr st Hexec);
    [unfold count_events; simpl; lia|].
  clear tr st Hexec. intros tr st ev st' Hex IH Hstep.
  rewrite count_events_snoc.
  destruct (sends_of i ev) eqn:Es; [|lia].
  destruct (send_step _ _ _ _ Hstep Es) as (o & chunk & Hi).
  destruct (emission_inv_exec _ _ _ _ _ _ _ Hex) as [_ Hnone].
  specialize (Hnone i). rewrite Hi in Hnone. specialize (Hnone eq_refl).
  assert (Hz : count_events (sends_of i) tr = 0%nat).
  { clear -Hnone. unfold count_events.
    induction Hnone as [|e tr He _ IHn]; simpl; [reflexivity|].
    rewrite He. exact IHn. }
  lia.
Qed.

(** X6.  Marking follows emission.  A goroutine to which
    [processObject] returned nil, so every goroutine that enters
    [setProgress] and marks its object, has seen the handler take the
    object, or has put on the output channel the chunk that carries the
    object's metadata and the content read back.  A goroutine that has
    not got that far, one that failed included, has sent no chunk of its
    own; and no goroutine sends its chunk twice. *)
Theorem marked_only_after_emission
    (s : Source) (p : Progress) (ctx : option string) (ready : bool)
    (objs : list item) (tr : list Event) (st : State)
    (i : nat) (o : object) (pc : TaskPC) :
  exec (Chunks_begin s p ctx ready objs) tr st ->
  s_tasks st !! i = Some (mkTask o pc) ->
  (succeeded pc = true ->
   handled_in i o tr
   \/ exists d,
        raw_sent_in s i o d tr
        /\ set_Data (chunkSkel s o) (Some d) ∈ s_chunksCh st)
  /\ (marked pc = true -> succeeded pc = true)
  /\ (succeeded pc = false ->
      Forall (fun ev => sends_of i ev = false) tr)
  /\ (count_events (sends_of i) tr <= 1)%nat.
Proof.
  intros Hexec Hi.
  destruct (emission_inv_exec _ _ _ _ _ _ _ Hexec) as [Hsome Hnone].
  destruct (Hsome i o pc Hi) as [_ Hs].
  split; [|split; [|split; [|eapply single_send; exact Hexec]]].
  - intros Hsucc. destruct (Hs Hsucc) as [Hh|(d & Hd)]; [left; exact Hh|].
    right. exists d. split; [exact Hd|].
    rewrite (chunks_exec _ _ _ Hexec). cbn [Chunks_begin s_chunksCh app].
    apply list_elem_of_In, in_concat.
    exists (chunks_of (EvSelect i o (set_Data (chunkSkel s o) (Some d)) ChunkSent)).
    split; [|left; reflexivity].
    apply in_map, list_elem_of_In, Hd.
  - destruct pc as [| | | | | | | |[e|]|[e|]]; simpl; congruence.
  - intros Hf. apply Hnone. rewrite Hi. exact Hf.
Qed.

Lemma marked_only_after_emission_witness :
  handled_in 1 (sample_object "e")
             (fst (outcome (fst run_one_fails) (snd run_one_fails)))
  \/ exists d,
       raw_sent_in (sample_source 2) 1 (sample_object "e") d
                   (fst (outcome (fst run_one_fails) (snd run_one_fails)))
       /\ set_Data (chunkSkel (sample_source 2) (sample_object "e")) (Some d)
          ∈ s_chunksCh (snd (outcome (fst run_one_fails) (snd run_one_fails))).
Proof.
  assert (Hi : s_tasks (snd (outcome (fst run_one_fails) (snd run_one_fails))) !! 1%nat
               = Some (mkTask (sample_object "e") (TExited None)))
    by (vm_compute; reflexivity).
  exact (proj1 (marked_only_after_emission (sample_source 2) progress0 None true
                  [ItemObject (sample_object "d"); ItemObject (sample_object "e")]
                  _ _ 1%nat (sample_object "e") (TExited None)
                  run_one_fails_exec Hi) eq_refl).
Defined.

(** * The snapshot lags behind the cache by less than the increment *)

Lemma Count_sub (a b : memory.Cache) :
  (forall k, memory.Exists a k = true -> memory.Exists b k = true) ->
  memory.Count a <= memory.Count b.
Proof.
  intros H. unfold memory.Count, memory.Cache in *.
  rewrite <- !size_dom. apply inj_le, subseteq_size.
  intros k Hk. apply elem_of_dom. apply elem_of_dom in Hk.
  apply Exists_true, H, Exists_true, Hk.
Qed.

Lemma Count_ext (a b : memory.Cache) :
  (forall k, memory.Exists a k = memory.Exists b k) ->
  memory.Count a = memory.Count b.
Proof.
  intros H. apply Z.le_antisymm; apply Count_sub; intros k; rewrite H; auto.
Qed.

Lemma Count_Set (c : memory.Cache) (key val : string) :
  memory.Count (memory.Set_ c key val)
  = memory.Count c + (if memory.Exists c key then 0 else 1).
Proof.
  unfold memory.Count, memory.Set_, memory.Exists, memory.Cache in *.
  destruct (c !! key) as [v|] eqn:E.
  - rewrite map_size_insert_Some by eauto. lia.
  - rewrite map_size_insert_None by exact E. lia.
Qed.

Lemma Count_pos (c : memory.Cache) (k : string) :
  memory.Exists c k = true -> 1 <= memory.Count c.
Proof.
  intros H. apply Exists_true in H. unfold memory.Count, memory.Cache in *.
  pose proof (map_size_ne_0_lookup_2 c k H). lia.
Qed.

Lemma Count_Keys (c : memory.Cache) :
  memory.Count c = Z.of_nat (length (memory.Keys c)).
Proof.
  unfold memory.Count, memory.Keys, memory.Cache in *.
  rewrite length_fmap, length_map_to_list. reflexivity.
Qed.

(** The cache rebuilt from the rendering of a cache with delimiter-free
    keys, two of them at least, has the keys of that cache. *)
Lemma rebuilt_keys (ord : range_order) (c : memory.Cache) (p : Progress) :
  is_range_order ord ->
  (forall k, memory.Exists c k = true -> strings.free_of comma k = true) ->
  2 <= memory.Count c ->
  EncodedResumeInfo p = memory.Contents ord c ->
  forall k, memory.Exists (Cache (setupCache p)) k = memory.Exists c k.
Proof.
  intros Hord Hfree Hcount Hp k. unfold setupCache. rewrite Hp. simpl.
  unfold memory.Contents.
  pose proof (Hord (memory.Keys c)) as Hperm.
  rewrite Count_Keys in Hcount.
  destruct (String.eqb_spec (strings.Join (ord (memory.Keys c)) comma) EmptyString)
    as [E|E]; simpl.
  - exfalso. apply Permutation_length in Hperm.
    apply Join_empty in E as [E|E]; rewrite E in Hperm; simpl in Hperm; lia.
  - rewrite Split_Join.
    + apply eq_bool_iff.
      rewrite Exists_NewWithData, Exists_Keys. apply range_order_elem, Hord.
    + intros E0. rewrite E0 in E. apply E. reflexivity.
    + apply Forall_forall. intros e He. apply Hfree, Exists_Keys.
      apply (range_order_elem ord); assumption.
Qed.

Lemma div_next (n P : Z) :
  0 <= n -> 0 < P -> Z.rem (n + 1) P <> 0 -> (n + 1) / P = n / P.
Proof.
  intros Hn HP Hr. rewrite Z.rem_mod_nonneg in Hr by lia.
  pose proof (Z.div_mod (n + 1) P ltac:(lia)) as Hd.
  pose proof (Z.mod_pos_bound (n + 1) P HP) as Hb.
  apply (Z.div_unique n P ((n + 1) / P) ((n + 1) mod P - 1)); lia.
Qed.

(** One insertion keeps the bound. *)
Lemma lag_Set ord c p key c' p' :
  is_range_order ord ->
  2 <= persistIncrement c ->
  (forall k, memory.Exists (Cache c') k = true -> strings.free_of comma k = true) ->
  persistableCache_Set ord c p key key = Some (c', p') ->
  persistIncrement c * (memory.Count (Cache c) / persistIncrement c)
  <= memory.Count (Cache (setupCache p)) ->
  persistIncrement c * (memory.Count (Cache c') / persistIncrement c)
  <= memory.Count (Cache (setupCache p')).
Proof.
  intros Hord HP Hfree Hset Hlag.
  pose proof (persistableCache_Set_cache _ _ _ _ _ _ _ Hset) as Hc.
  unfold persistableCache_Set, shouldPersist in Hset. cbn in Hset.
  destruct (Z.eqb_spec (persistIncrement c) 0) as [|_]; [lia|].
  assert (Hn : 0 <= memory.Count (Cache c)) by (unfold memory.Count; lia).
  pose proof (Count_Set (Cache c) key key) as Hcs.
  destruct (Z.eqb_spec (Z.rem (memory.Count (memory.Set_ (Cache c) key key))
                              (persistIncrement c)) 0) as [Hz|Hnz];
    simpl in Hset; injection Hset as <- <-; cbn [Cache] in *.
  - (* the snapshot is refreshed *)
    set (c1 := memory.Set_ (Cache c) key key) in *.
    assert (H1 : 1 <= memory.Count c1).
    { apply (Count_pos c1 key). subst c1.
      rewrite Exists_Set, String.eqb_refl. reflexivity. }
    assert (H2 : 2 <= memory.Count c1).
    { rewrite Z.rem_mod_nonneg in Hz by lia.
      apply Z.mod_divide in Hz as [q Hq]; [|lia].
      destruct (Z_le_gt_dec q 0) as [Hq0|Hq0].
      - pose proof (Z.mul_nonpos_nonneg q (persistIncrement c) Hq0 ltac:(lia)).
        lia.
      - pose proof (Z.mul_le_mono_nonneg 1 q 2 (persistIncrement c)
                      ltac:(lia) ltac:(lia) ltac:(lia) HP). lia. }
    match goal with
    | |- _ <= memory.Count ?r =>
        assert (Heq : memory.Count r = memory.Count c1)
    end.
    { apply Count_ext.
      apply (rebuilt_keys ord); [exact Hord | exact Hfree | exact H2 | reflexivity]. }
    rewrite Heq. apply Z.mul_div_le. lia.
  - (* the snapshot stays *)
    destruct (memory.Exists (Cache c) key).
    + replace (memory.Count (memory.Set_ (Cache c) key key))
        with (memory.Count (Cache c)) by lia. exact Hlag.
    + rewrite Hcs in Hnz |- *. rewrite div_next by (assumption || lia).
      exact Hlag.
Qed.

(** A step leaves the cache and the resume information, or is a
    [cache.Set] of a goroutine. *)
Lemma snapshot_step st ev st' :
  step st ev st' ->
  (s_cache st' = s_cache st
   /\ EncodedResumeInfo (s_progress st') = EncodedResumeInfo (s_progress st))
  \/ exists ord o,
       is_range_order ord
       /\ persistableCache_Set ord (s_cache st) (s_progress st) (name o) (name o)
          = Some (s_cache st', s_progress st').
Proof.
  intros (ch & Hv & Hfire).
  destruct ch as [|i env| |]; fire_cases Hfire; cbn;
    try (left; split; reflexivity).
  right. destruct Hv as [Hord _]. eauto.
Qed.

Lemma lag_inv_step st ev st' :
  resume_inv st -> lag_inv st -> step st ev st' -> lag_inv st'.
Proof.
  intros Hres [Hinc Hlag] Hstep.
  pose proof (resume_inv_step _ _ _ Hres Hstep) as (_ & _ & Hfree & _).
  destruct (snapshot_step _ _ _ Hstep) as [[Hc Hr]|(ord & o & Hord & Hset)].
  - unfold lag_inv. rewrite Hc, (setupCache_resume _ _ Hr). split; assumption.
  - split.
    + rewrite (persistableCache_Set_increment _ _ _ _ _ _ _ Hset). exact Hinc.
    + rewrite <- Hinc in Hlag |- *.
      apply (lag_Set ord (s_cache st) (s_progress st) (name o)
                     (s_cache st') (s_progress st') Hord); try assumption.
      rewrite Hinc. unfold defaultCachePersistIncrement. lia.
Qed.

Lemma lag_inv_exec st tr st' :
  exec st tr st' -> resume_inv st -> lag_inv st -> lag_inv st'.
Proof.
  induction 1 as [|st ev st1 tr st2 Hstep _ IH]; [tauto|].
  intros Hres Hlag. apply IH.
  - eapply resume_inv_step; eassumption.
  - eapply lag_inv_step; eassumption.
Qed.

Lemma lag_inv_begin s p ctx ready objs :
  lag_inv (Chunks_begin s p ctx ready objs).
Proof.
  split; [reflexivity|].
  change (defaultCachePersistIncrement
          * (memory.Count (Cache (setupCache p)) / defaultCachePersistIncrement)
          <= memory.Count (Cache (setupCache p))).
  apply Z.mul_div_le. reflexivity.
Qed.

(** X7.  The snapshot lags by less than the persist increment.  In a
    run over objects with delimiter-free names, the cache [setupCache]
    would rebuild from the resume information published so far holds
    only keys of the current cache, and fewer than 2500 keys of the
    current cache are missing from it: a run resumed from that
    information processes again fewer than 2500 of the objects already
    marked. *)
Theorem checkpoint_lag_bounded
    (s : Source) (p : Progress) (ctx : option string) (ready : bool)
    (objs : list item) (tr : list Event) (st : State) :
  Forall delimiter_free objs ->
  exec (Chunks_begin s p ctx ready objs) tr st ->
  (forall k,
      memory.Exists (Cache (setupCache (s_progress st))) k = true ->
      memory.Exists (Cache (s_cache st)) k = true)
  /\ memory.Count (Cache (setupCache (s_progress st)))
     <= memory.Count (Cache (s_cache st))
  /\ memory.Count (Cache (s_cache st))
     - memory.Count (Cache (setupCache (s_progress st)))
     < defaultCachePersistIncrement.
Proof.
  intros Hfree Hexec.
  pose proof (resume_inv_begin s p ctx ready objs Hfree) as Hres0.
  pose proof (resume_inv_exec _ _ _ Hexec Hres0) as (_ & _ & _ & Hsub).
  destruct (lag_inv_exec _ _ _ Hexec Hres0 (lag_inv_begin s p ctx ready objs))
    as [_ Hlag].
  split; [exact Hsub|]. split; [apply Count_sub, Hsub|].
  unfold defaultCachePersistIncrement in *.
  pose proof (Z.div_mod (memory.Count (Cache (s_cache st))) 2500 ltac:(lia)).
  pose proof (Z.mod_pos_bound (memory.Count (Cache (s_cache st))) 2500 ltac:(lia)).
  lia.
Qed.

Lemma checkpoint_lag_bounded_witness :
  memory.Count (Cache (s_cache (snd (outcome (fst run_one_fails) (snd run_one_fails)))))
  - memory.Count
      (Cache (setupCache
                (s_progress (snd (outcome (fst run_one_fails) (snd run_one_fails))))))
  < defaultCachePersistIncrement.
Proof.
  assert (Hfree : Forall delimiter_free
                    [ItemObject (sample_object "d"); ItemObject (sample_object "e")])
    by (repeat constructor).
  exact (proj2 (proj2 (checkpoint_lag_bounded (sample_source 2) progress0 None true
                         [ItemObject (sample_object "d");
                          ItemObject (sample_object "e")]
                         _ _ Hfree run_one_fails_exec))).
Defined.

(** * Snapshots are taken at multiples of the increment only *)

Lemma increment_exec st tr st' :
  exec st tr st' ->
  persistIncrement (s_cache st) = defaultCachePersistIncrement ->
  persistIncrement (s_cache st') = defaultCachePersistIncrement.
Proof.
  induction 1 as [|st ev st1 tr st2 Hstep _ IH]; [tauto|].
  intros Hinc. apply IH.
  destruct (snapshot_step _ _ _ Hstep) as [[Hc _]|(ord & o & _ & Hset)].
  - rewrite Hc. exact Hinc.
  - rewrite (persistableCache_Set_increment _ _ _ _ _ _ _ Hset). exact Hinc.
Qed.

Lemma published_step p0 st ev st' :
  persistIncrement (s_cache st) = defaultCachePersistIncrement ->
  published p0 st -> step st ev st' -> published p0 st'.
Proof.
  intros Hinc Hpub Hstep.
  pose proof (fun k => cache_grows_step _ _ _ k Hstep) as Hgrow.
  destruct (snapshot_step _ _ _ Hstep) as [[Hc Hr]|(ord & o & Hord & Hset)].
  - unfold published. rewrite Hr.
    destruct Hpub as [H|(ord & c & H1 & H2 & H3 & H4 & H5)]; [left; exact H|].
    right. exists ord, c. repeat split; auto.
  - pose proof (persistableCache_Set_cache _ _ _ _ _ _ _ Hset) as Hc.
    unfold persistableCache_Set, shouldPersist in Hset. cbn in Hset.
    rewrite Hinc in Hset. cbn in Hset.
    destruct (Z.eqb_spec
                (Z.rem (memory.Count (memory.Set_ (Cache (s_cache st)) (name o)
                                                  (name o)))
                       defaultCachePersistIncrement) 0) as [Hz|Hnz];
      simpl in Hset; injection Hset as Hc' Hp'.
    + right. exists ord, (Cache (s_cache st')).
      split; [exact Hord|]. rewrite <- Hp', Hc. cbn.
      split; [reflexivity|]. split.
      { apply Z.rem_divide; [discriminate | exact Hz]. }
      split; [|rewrite <- Hc; auto].
      apply (Count_pos _ (name o)).
      rewrite Exists_Set, String.eqb_refl. reflexivity.
    + unfold published. rewrite <- Hp'.
      destruct Hpub as [H|(ord' & c & H1 & H2 & H3 & H4 & H5)]; [left; exact H|].
      right. exists ord', c. repeat split; auto.
Qed.

Lemma published_exec p0 st tr st' :
  exec st tr st' ->
  persistIncrement (s_cache st) = defaultCachePersistIncrement ->
  published p0 st -> published p0 st'.
Proof.
  induction 1 as [|st ev st1 tr st2 Hstep Hex IH]; [tauto|].
  intros Hinc Hpub. apply IH.
  - apply (increment_exec st [ev] st1); [|exact Hinc].
    econstructor; [exact Hstep | constructor].
  - eapply published_step; eassumption.
Qed.

(** X8.  Snapshots are taken at multiples of the increment only.  At
    any moment of a run the resume information is the one the run
    started with, or the rendering of a cache of 2500, 5000, ... keys,
    all of them keys of the current cache.  So while fewer than 2500
    names are in the cache the resume information is never written, and
    [Chunks] returns without a final snapshot. *)
Theorem snapshot_only_at_multiples
    (s : Source) (p : Progress) (ctx : option string) (ready : bool)
    (objs : list item) (tr : list Event) (st : State) :
  exec (Chunks_begin s p ctx ready objs) tr st ->
  (EncodedResumeInfo (s_progress st) = EncodedResumeInfo p
   \/ exists ord c n,
        is_range_order ord
        /\ EncodedResumeInfo (s_progress st) = memory.Contents ord c
        /\ memory.Count c = 2500 * n /\ 1 <= n
        /\ memory.Count c <= memory.Count (Cache (s_cache st))
        /\ forall k, memory.Exists c k = true ->
                     memory.Exists (Cache (s_cache st)) k = true)
  /\ (memory.Count (Cache (s_cache st)) < 2500 ->
      EncodedResumeInfo (s_progress st) = EncodedResumeInfo p).
Proof.
  intros Hexec.
  assert (Hpub : published p st).
  { apply (published_exec p _ _ _ Hexec); [reflexivity|]. left. reflexivity. }
  assert (Hmain : EncodedResumeInfo (s_progress st) = EncodedResumeInfo p
                  \/ exists ord c n,
                       is_range_order ord
                       /\ EncodedResumeInfo (s_progress st) = memory.Contents ord c
                       /\ memory.Count c = 2500 * n /\ 1 <= n
                       /\ memory.Count c <= memory.Count (Cache (s_cache st))
                       /\ forall k, memory.Exists c k = true ->
                                    memory.Exists (Cache (s_cache st)) k = true).
  { destruct Hpub as [H|(ord & c & H1 & H2 & [n Hn] & H4 & H5)]; [left; exact H|].
    right. exists ord, c, n. unfold defaultCachePersistIncrement in Hn.
    split; [exact H1|]. split; [exact H2|]. split; [lia|]. split; [lia|].
    split; [apply Count_sub, H5 | exact H5]. }
  split; [exact Hmain|].
  intros Hsmall. destruct Hmain as [H|(ord & c & n & _ & _ & Hn & Hn1 & Hle & _)];
    [exact H | lia].
Qed.

Lemma snapshot_only_at_multiples_witness :
  EncodedResumeInfo
    (s_progress (snd (outcome (fst run_resumed_to_end) (snd run_resumed_to_end))))
  = "a".
Proof.
  assert (Hsmall : memory.Count
                     (Cache (s_cache (snd (outcome (fst run_resumed_to_end)
                                                   (snd run_resumed_to_end)))))
                   < 2500) by (vm_compute; reflexivity).
  exact (proj2 (snapshot_only_at_multiples
                  (sample_source 2) (set_EncodedResumeInfo progress0 "a") None true
                  [ItemObject (sample_object "a"); ItemObject (sample_object "b")]
                  _ _ run_resumed_to_end_exec) Hsmall).
Defined.

(** * The status message *)

Lemma starting_step st ev st' :
  step st ev st' ->
  s_control st' <> CReturned ->
  s_control st <> CReturned
  /\ Message (s_progress st') = Message (s_progress st).
Proof.
  intros (ch & _ & Hfire) Hnot.
  destruct ch; fire_cases Hfire; cbn in *; try (split; [congruence | reflexivity]).
  split; [congruence|].
  match goal with
  | H : persistableCache_Set _ _ _ _ _ = Some _ |- _ =>
      apply persistableCache_Set_counters in H
  end. tauto.
Qed.

(** X9.  The status message of a run: from the start of the loop until
    [Chunks] returns the message is the starting one, whatever the
    goroutines do; once [Chunks] has returned it is the completion
    message with the enumerated total. *)
Theorem status_message_of_run
    (s : Source) (p : Progress) (ctx : option string) (ready : bool)
    (objs : list item) (tr : list Event) (st : State) :
  exec (Chunks_begin s p ctx ready objs) tr st ->
  Message (s_progress st)
  = match s_control st with
    | CReturned => completion_message s
    | _ => "starting to process objects..."
    end.
Proof.
  intros Hexec.
  pose proof (src_exec _ _ _ Hexec) as Hsrc. cbn in Hsrc.
  pose proof (wf_begin s p ctx ready objs) as Hwf0.
  revert Hsrc.
  refine (exec_ind_end
            (fun _ st => s_src st = s ->
                         Message (s_progress st)
                         = match s_control st with
                           | CReturned => completion_message s
                           | _ => "starting to process objects..."
                           end)
            (Chunks_begin s p ctx ready objs) _ _ tr st Hexec); [reflexivity|].
  clear tr st Hexec.
  intros tr0 st0 ev st' Hex IH Hstep Hsrc.
  pose proof (src_exec _ _ _ Hex) as Hsrc0. cbn in Hsrc0.
  specialize (IH Hsrc0).
  pose proof (wf_exec _ _ _ Hex Hwf0) as Hwf.
  destruct (s_control st') eqn:Ec.
  - destruct (starting_step _ _ _ Hstep ltac:(congruence)) as [Hn ->].
    rewrite IH. destruct (s_control st0); [reflexivity | reflexivity | congruence].
  - destruct (starting_step _ _ _ Hstep ltac:(congruence)) as [Hn ->].
    rewrite IH. destruct (s_control st0); [reflexivity | reflexivity | congruence].
  - rewrite <- Hsrc.
    apply (message_step st0 ev st' Hwf); [|exact Hstep | exact Ec].
    intros Hr. rewrite IH, Hr, Hsrc0. reflexivity.
Qed.

Lemma status_message_of_run_witness :
  Message (s_progress (snd (outcome (fst run_inside) (snd run_inside))))
  = "starting to process objects...".
Proof.
  rewrite (status_message_of_run (sample_source 2) progress0 None true
             [ItemObject (sample_object "a"); ItemObject (sample_object "b")]
             _ _ run_inside_exec).
  vm_compute. reflexivity.
Defined.

(** * The mutex and the wait group *)

(** X10.  The mutex and the wait group are never misused.  In every
    state of a run the counter of the wait group is the number of
    goroutines that have not called [Done], so it is not negative; an
    [Unlock] is only taken with the mutex held and a [Lock] with the
    mutex free; [Done] is only called at a counter of one or more;
    [Add] is only called by the loop, before [Wait]; and [Wait] is only
    passed at counter zero, with the mutex free. *)
Theorem sync_never_misused
    (s : Source) (p : Progress) (ctx : option string) (ready : bool)
    (objs : list item) (tr : list Event) (st : State) :
  exec (Chunks_begin s p ctx ready objs) tr st ->
  s_wg st = Z.of_nat (count_pc live (s_tasks st))
  /\ 0 <= s_wg st
  /\ forall ev st',
       step st ev st' ->
       match ev with
       | EvLock _ _ => s_mu st = false /\ s_mu st' = true
       | EvUnlock _ _ => s_mu st = true /\ s_mu st' = false
       | EvWgDone _ _ _ => 1 <= s_wg st /\ s_wg st' = s_wg st - 1
       | EvSpawn _ => s_control st = CRange /\ s_wg st' = s_wg st + 1
       | EvComplete => s_wg st = 0 /\ s_mu st = false
       | _ => s_mu st' = s_mu st /\ s_wg st' = s_wg st
       end.
Proof.
  intros Hexec.
  pose proof (wf_exec _ _ _ Hexec (wf_begin s p ctx ready objs)) as Hwf.
  assert (Hwg : s_wg st = Z.of_nat (count_pc live (s_tasks st)))
    by (destruct Hwf as (_ & Hwg & _); exact Hwg).
  split; [exact Hwg|]. split; [lia|].
  intros ev st' (ch & _ & Hfire).
  destruct ch as [|i env| |].
  - unfold fire, fire_control in Hfire.
    repeat case_match; simplify_eq; cbn; try (split; congruence).
    match goal with
    | H : (s_wg st =? 0) = true |- _ => apply Z.eqb_eq in H; rename H into Hz
    end.
    split; [exact Hz|].
    assert (Hl : count_pc live (s_tasks st) = 0%nat) by lia.
    assert (Hh : count_pc holds_mu (s_tasks st) = 0%nat).
    { apply (count_pc_none holds_mu live); [|exact Hl].
      intros pc. destruct pc; simpl; congruence. }
    destruct Hwf as (Hmu & _). rewrite Hh in Hmu.
    destruct (s_mu st); [discriminate | reflexivity].
  - unfold fire, fire_task in Hfire.
    destruct (s_tasks st !! i) as [[o pc]|] eqn:Hi; [|discriminate].
    destruct pc; repeat case_match; simplify_eq; cbn;
      try (split; reflexivity).
    + split; [|reflexivity].
      match goal with
      | H : s_tasks st !! ?j = Some (mkTask ?o' TUnlock) |- _ =>
          exact (proj1 (holder_facts st j o' TUnlock Hwf H eq_refl))
      end.
    + split; [|reflexivity].
      match goal with
      | H : s_tasks st !! ?j = Some ?t |- _ =>
          pose proof (count_pc_lookup live (s_tasks st) j t H eq_refl)
      end. lia.
  - fire_cases Hfire. cbn. split; reflexivity.
  - fire_cases Hfire. cbn. split; reflexivity.
Qed.

Lemma sync_never_misused_witness :
  0 <= s_wg (snd (outcome (fst run_inside) (snd run_inside))).
Proof.
  exact (proj1 (proj2 (sync_never_misused (sample_source 2) progress0 None true
                  [ItemObject (sample_object "a"); ItemObject (sample_object "b")]
                  _ _ run_inside_exec))).
Defined.

(** * What [setupCache] restores *)

Lemma Count_NewWithData (data : list string) :
  memory.Count (memory.NewWithData data) <= Z.of_nat (length data).
Proof.
  unfold memory.NewWithData.
  assert (H : forall c, memory.Count (foldl (fun c d => memory.Set_ c d d) c data)
                        <= memory.Count c + Z.of_nat (length data)).
  { induction data as [|d data IH]; intros c; simpl; [lia|].
    specialize (IH (memory.Set_ c d d)). rewrite Count_Set in IH.
    destruct (memory.Exists c d); lia. }
  specialize (H memory.New). assert (memory.Count memory.New = 0) by reflexivity.
  lia.
Qed.

(** X11.  What [setupCache] restores.  The cache built from the resume
    information has the default persist increment; its keys are the
    pieces between the commas of a non-empty resume information, and
    none for the empty one; so it has no more keys than pieces, and a
    name that contains a comma is never restored. *)
Theorem setupCache_restores (p : Progress) :
  persistIncrement (setupCache p) = 2500
  /\ (forall k,
        memory.Exists (Cache (setupCache p)) k = true
        <-> EncodedResumeInfo p <> ""
            /\ k ∈ strings.Split (EncodedResumeInfo p) comma)
  /\ memory.Count (Cache (setupCache p))
     <= Z.of_nat (length (strings.Split (EncodedResumeInfo p) comma))
  /\ (forall k, strings.free_of comma k = false ->
                memory.Exists (Cache (setupCache p)) k = false)
  /\ (EncodedResumeInfo p = "" -> Cache (setupCache p) = memory.New).
Proof.
  assert (Hkeys : forall k,
             memory.Exists (Cache (setupCache p)) k = true
             <-> EncodedResumeInfo p <> ""
                 /\ k ∈ strings.Split (EncodedResumeInfo p) comma).
  { intros k. unfold setupCache. cbn [Cache newPersistableCache].
    destruct (String.eqb_spec (EncodedResumeInfo p) "") as [E|E]; simpl.
    - rewrite Exists_New. split; [discriminate | intros [H _]; contradiction].
    - rewrite Exists_NewWithData. tauto. }
  split; [reflexivity|]. split; [exact Hkeys|]. split; [|split].
  - unfold setupCache. cbn [Cache newPersistableCache].
    destruct (negb _); [apply Count_NewWithData|].
    assert (memory.Count memory.New = 0) by reflexivity. lia.
  - intros k Hk. apply not_true_is_false. intros Hex.
    apply Hkeys in Hex as [_ Hin].
    pose proof (Split_pieces_free (EncodedResumeInfo p) comma) as Hall.
    rewrite Forall_forall in Hall. rewrite (Hall k Hin) in Hk. discriminate.
  - intros E. unfold setupCache. rewrite E. reflexivity.
Qed.

(** * Percent-complete of an empty enumeration *)

Lemma shr_nonneg mrs e n mrs' e' :
  shr mrs e n = (mrs', e') -> 0 <= shr_m mrs -> 0 <= shr_m mrs'.
Proof.
  unfold shr. intros H Hm.
  destruct n; simplify_eq; try assumption. apply shr_m_nonneg_iter, Hm.
Qed.

(** Rounding a non-negative mantissa gives no NaN. *)
Lemma binary_round_aux_not_nan sx m e l :
  0 <= m -> binary_round_aux 53 1024 sx m e l <> S754_nan.
Proof.
  intros Hm. unfold binary_round_aux, shr_fexp.
  destruct (shr (shr_record_of_loc m l) e _) as [mrs1 e1] eqn:H1.
  pose proof (shr_nonneg _ _ _ _ _ H1 ltac:(rewrite shr_m_of_loc; exact Hm)) as Hm1.
  pose proof (round_between mrs1) as [Hlo _].
  set (mr := round_nearest_even (shr_m mrs1) (loc_of_shr_record mrs1)) in *.
  destruct (shr (shr_record_of_loc mr loc_Exact) e1 _) as [mrs2 e2] eqn:H2.
  pose proof (shr_nonneg _ _ _ _ _ H2 ltac:(simpl; lia)) as Hm2.
  destruct (shr_m mrs2); [discriminate | | lia].
  destruct (_ <=? _); discriminate.
Qed.

Lemma float64_of_Z_not_nan (n : Z) : float64_of_Z n <> S754_nan.
Proof.
  unfold float64_of_Z, binary_normalize.
  destruct n as [|q|q]; [discriminate | |];
    unfold binary_round; destruct (shl_align _ _ _) as [mz ez];
    apply binary_round_aux_not_nan; lia.
Qed.

(** X12.  Percent-complete of an empty enumeration.  With an enumerated
    total of zero the quotient is an infinity or a NaN, for every count
    of completed sections; its conversion to [int64] is not a percentage
    but whatever the platform gives, and that is what [setProgress]
    stores. *)
Theorem percent_of_zero_total (completed : Z) (undef : Z) (s : Source)
    (p : Progress) :
  percent_of completed 0 = None
  /\ (numObjects (stats s) = 0%N ->
      PercentComplete (sp_percent undef s p) = undef).
Proof.
  assert (H : forall c, percent_of c 0 = None).
  { intros c. unfold percent_of.
    change (float64_of_Z 0) with (S754_zero false).
    pose proof (float64_of_Z_not_nan c) as Hn.
    destruct (float64_of_Z c) as [sz|si| |sf m e]; try contradiction;
      reflexivity. }
  split; [apply H|].
  intros Hz. unfold sp_percent. rewrite Hz. cbn [Z.of_N PercentComplete set_PercentComplete].
  rewrite H. reflexivity.
Qed.

(** * The int32 counters of [setProgress] *)

Lemma wrap32_range (x : Z) : int32_min <= wrap32 x <= int32_max.
Proof.
  unfold wrap32, int32_min, int32_max.
  pose proof (Z.mod_pos_bound (x + 2 ^ 31) (2 ^ 32) ltac:(lia)). lia.
Qed.

Lemma wrap32_exact (x : Z) : wrap32 x = x <-> int32_min <= x <= int32_max.
Proof.
  split; [intros <-; apply wrap32_range | apply wrap32_small].
Qed.

Lemma setProgress_counters ord undef s objName p c p' c' :
  setProgress ord undef s objName p c = Some (p', c') ->
  SectionsCompleted p' = wrap32 (SectionsCompleted p + 1)
  /\ SectionsRemaining p' = wrap32 (Z.of_N (numObjects (stats s)))
  /\ Message p' = Message p
  /\ Cache c' = memory.Set_ (Cache c) objName objName.
Proof.
  unfold setProgress. intros H.
  destruct (persistableCache_Set ord c (sp_increment p) objName objName)
    as [[c2 p2]|] eqn:Hs; [|discriminate].
  injection H as <- <-.
  destruct (persistableCache_Set_counters _ _ _ _ _ _ _ Hs) as (H1 & _ & _ & H4).
  pose proof (persistableCache_Set_cache _ _ _ _ _ _ _ Hs) as Hc.
  cbn. rewrite H1, H4. repeat split. exact Hc.
Qed.

(** X13.  The int32 counters of [setProgress].  After a call both
    counters are int32 values.  Sections-remaining is the enumerated
    total, whatever the number of completed sections, exactly when the
    total fits an int32; a total from 2^31 to 2^32-1 is stored as the
    negative number 2^32 below it.  Sections-completed is one more than
    before, except at the largest int32, where it becomes the smallest.
    The message is left alone and the object name is in the cache. *)
Theorem setProgress_int32
    (ord : range_order) (undef : Z) (s : Source) (objName : string)
    (p p' : Progress) (c c' : persistableCache) :
  setProgress ord undef s objName p c = Some (p', c') ->
  (int32_min <= SectionsCompleted p' <= int32_max
   /\ int32_min <= SectionsRemaining p' <= int32_max)
  /\ (SectionsRemaining p' = Z.of_N (numObjects (stats s))
      <-> Z.of_N (numObjects (stats s)) <= int32_max)
  /\ (2 ^ 31 <= Z.of_N (numObjects (stats s)) < 2 ^ 32 ->
      SectionsRemaining p' = Z.of_N (numObjects (stats s)) - 2 ^ 32)
  /\ (int32_min <= SectionsCompleted p < int32_max ->
      SectionsCompleted p' = SectionsCompleted p + 1)
  /\ (SectionsCompleted p = int32_max -> SectionsCompleted p' = int32_min)
  /\ Message p' = Message p
  /\ memory.Exists (Cache c') objName = true.
Proof.
  intros H. destruct (setProgress_counters _ _ _ _ _ _ _ _ H) as (Hc & Hr & Hm & Hk).
  rewrite Hc, Hr.
  split; [split; apply wrap32_range|]. split; [|split; [|split; [|split; [|split]]]].
  - rewrite wrap32_exact. unfold int32_min. lia.
  - intros Hb. unfold wrap32.
    rewrite <- (Z.mod_unique (Z.of_N (numObjects (stats s)) + 2 ^ 31) (2 ^ 32) 1
                  (Z.of_N (numObjects (stats s)) - 2 ^ 31)); lia.
  - intros Hb. apply wrap32_small. unfold int32_min, int32_max in *. lia.
  - intros ->. reflexivity.
  - exact Hm.
  - rewrite Hk, Exists_Set, String.eqb_refl. reflexivity.
Qed.

Lemma setProgress_int32_witness :
  option_map (fun r => SectionsRemaining (fst r))
             (setProgress id 0 (sample_source 100) "z" progress28
                          (setupCache progress0))
  = Some 100.
Proof.
  destruct (setProgress id 0 (sample_source 100) "z" progress28
                        (setupCache progress0)) as [[p' c']|] eqn:E.
  - simpl. f_equal.
    apply (proj1 (proj2 (setProgress_int32 _ _ _ _ _ _ _ _ E))).
    vm_compute. discriminate.
  - apply (f_equal (option_map (fun r => SectionsCompleted (fst r)))) in E.
    vm_compute in E. discriminate.
Defined.

(** * Configuration *)

(** X14.  [oauth2Client] validates its credentials: it returns a client
    exactly when the credentials are there and client id, refresh token
    and access token are all non-empty; the client then carries these
    three, asks for the read-only scope alone and uses the two URLs of
    Google's endpoint. *)
Theorem oauth2Client_validates (creds : option Oauth2) :
  ((exists client, oauth2Client creds = inr client)
   <-> exists c, creds = Some c /\ GetClientId c <> ""
                 /\ GetRefreshToken c <> "" /\ GetAccessToken c <> "")
  /\ (forall client,
        oauth2Client creds = inr client ->
        exists c,
          creds = Some c
          /\ ClientID (client_conf client) = GetClientId c
          /\ AccessToken (client_tok client) = GetAccessToken c
          /\ RefreshToken (client_tok client) = GetRefreshToken c
          /\ Scopes (client_conf client) = [ScopeReadOnly]
          /\ Endpoint (client_conf client)
             = mkEndpoint Google_AuthURL Google_TokenURL)
  /\ (creds = None -> oauth2Client creds = inl "oauth2 credentials are required").
Proof.
  unfold oauth2Client. destruct creds as [c|].
  - destruct (String.eqb_spec (GetClientId c) "") as [E1|E1];
      destruct (String.eqb_spec (GetRefreshToken c) "") as [E2|E2];
      destruct (String.eqb_spec (GetAccessToken c) "") as [E3|E3]; simpl;
      (split; [split|split]);
      try (intros [client H]; discriminate);
      try (intros (c0 & H & H1 & H2 & H3); injection H as <-; contradiction);
      try (intros client H; discriminate);
      try discriminate.
    + intros _. exists c. auto.
    + intros _. eexists. reflexivity.
    + intros client H. injection H as <-. exists c. repeat split.
  - split; [split|split].
    + intros [client H]. discriminate.
    + intros (c & H & _). discriminate.
    + intros client H. discriminate.
    + reflexivity.
Qed.

(** X15.  Authentication in [configureGCSManager].  The credential is
    refused, before any manager is built, exactly when it is missing or
    of an unknown type, when the service account file cannot be read,
    or when the OAuth credentials do not pass [oauth2Client]; an API key,
    inline JSON, default credentials and no authentication are taken as
    they are.  A refusal does not depend on [newGCSManager]; no file is
    read unless the credential is a service account file; and a service
    account file configures what its content given inline does. *)
Theorem configureGCSManager_authentication
    {gcsManager : Type} (co : Collaborators gcsManager)
    (conn : sourcespb_GCS) (concurrency : Z) :
  ((exists err, gcsManagerAuthOption co conn = inl err)
   <-> Credential conn = None
       \/ (exists ty, Credential conn = Some (GCS_OtherCredential ty))
       \/ (exists file err,
             Credential conn = Some (GCS_ServiceAccountFile file)
             /\ os_ReadFile co file = inl err)
       \/ (exists creds err,
             Credential conn = Some (GCS_Oauth creds)
             /\ oauth2Client creds = inl err))
  /\ (forall err (co' : Collaborators gcsManager),
        gcsManagerAuthOption co conn = inl err ->
        (forall file, os_ReadFile co' file = os_ReadFile co file) ->
        configureGCSManager co' (Some conn) concurrency = inl err)
  /\ (forall co' : Collaborators gcsManager,
        (forall file, Credential conn <> Some (GCS_ServiceAccountFile file)) ->
        (forall pid opts, newGCSManager co' pid opts = newGCSManager co pid opts) ->
        configureGCSManager co' (Some conn) concurrency
        = configureGCSManager co (Some conn) concurrency)
  /\ (forall file json,
        Credential conn = Some (GCS_ServiceAccountFile file) ->
        os_ReadFile co file = inr (list_byte_of_string json) ->
        configureGCSManager co (Some conn) concurrency
        = configureGCSManager co
            (Some (mkConn (Some (GCS_JsonServiceAccount json)) (ProjectId conn)
                          (MaxObjectSize conn)
                          (GetIncludeBuckets conn) (GetExcludeBuckets conn)
                          (GetIncludeObjects conn) (GetExcludeObjects conn)))
            concurrency).
Proof.
  split; [|split; [|split]].
  - unfold gcsManagerAuthOption.
    destruct (Credential conn) as [[k|file|json| | |creds|ty]|] eqn:Ec.
    + split; [intros [e H]; discriminate|].
      intros [H|[[ty H]|[(f & e & H & _)|(c & e & H & _)]]]; discriminate.
    + destruct (os_ReadFile co file) as [e|b] eqn:Er.
      * split; [|eauto]. intros _. right; right; left. eauto.
      * split; [intros [e H]; discriminate|].
        intros [H|[[ty H]|[(f & e & H & Hf)|(c & e & H & _)]]];
          try discriminate.
        injection H as <-. rewrite Er in Hf. discriminate.
    + split; [intros [e H]; discriminate|].
      intros [H|[[ty H]|[(f & e & H & _)|(c & e & H & _)]]]; discriminate.
    + split; [intros [e H]; discriminate|].
      intros [H|[[ty H]|[(f & e & H & _)|(c & e & H & _)]]]; discriminate.
    + split; [intros [e H]; discriminate|].
      intros [H|[[ty H]|[(f & e & H & _)|(c & e & H & _)]]]; discriminate.
    + destruct (oauth2Client creds) as [e|client] eqn:Eo.
      * split; [|eauto]. intros _. right; right; right. eauto.
      * split; [intros [e H]; discriminate|].
        intros [H|[[ty H]|[(f & e & H & _)|(c & e & H & Hc)]]];
          try discriminate.
        injection H as <-. rewrite Eo in Hc. discriminate.
    + split; [|eauto]. intros _. right; left. eauto.
    + split; [|eauto]. intros _. left. reflexivity.
  - intros err co' Ha Hrf.
    assert (Ha' : gcsManagerAuthOption co' conn = inl err).
    { unfold gcsManagerAuthOption in *.
      destruct (Credential conn) as [[k|file|json| | |creds|ty]|];
        try exact Ha. rewrite Hrf. exact Ha. }
    unfold configureGCSManager. rewrite Ha'. reflexivity.
  - intros co' Hnf Hnew. unfold configureGCSManager.
    assert (Ha : gcsManagerAuthOption co' conn = gcsManagerAuthOption co conn).
    { unfold gcsManagerAuthOption.
      destruct (Credential conn) as [[k|file|json| | |creds|ty]|];
        try reflexivity. exfalso. apply (Hnf file). reflexivity. }
    rewrite Ha. destruct (gcsManagerAuthOption co conn); [reflexivity|].
    rewrite Hnew. reflexivity.
  - intros file json Hc Hr. unfold configureGCSManager, gcsManagerAuthOption.
    cbn [Credential ProjectId]. rewrite Hc, Hr. reflexivity.
Qed.

Lemma filter_cases (include exclude : list string)
    (includeFn excludeFn : list string -> gcsManagerOption) :
  setGCSManagerOptions include exclude includeFn excludeFn
  = match include, exclude with
    | _ :: _, _ => Some (includeFn include)
    | [], _ :: _ => Some (excludeFn exclude)
    | [], [] => None
    end.
Proof. destruct include, exclude; reflexivity. Qed.

(** X16.  The options handed to [newGCSManager].  The slice starts with
    the concurrency, the maximal object size and the authentication
    option, followed by at most one filter on buckets and then at most
    one on objects.  A filter of a kind is there exactly when one of its
    two lists is not empty; it is the include filter whenever the include
    list is not empty, whatever the exclude list, which is then
    dropped. *)
Theorem gcsManagerOpts_filters
    (conn : sourcespb_GCS) (concurrency : Z) (auth : gcsManagerOption) :
  let filter_of include exclude includeFn excludeFn :=
    match include, exclude with
    | _ :: _, _ => [includeFn include]
    | [], _ :: _ => [excludeFn exclude]
    | [], [] => []
    end in
  gcsManagerOpts conn concurrency auth
  = [withConcurrency concurrency; withMaxObjectSize (MaxObjectSize conn); auth]
    ++ filter_of (GetIncludeBuckets conn) (GetExcludeBuckets conn)
                 withIncludeBuckets withExcludeBuckets
    ++ filter_of (GetIncludeObjects conn) (GetExcludeObjects conn)
                 withIncludeObjects withExcludeObjects
  /\ (3 <= length (gcsManagerOpts conn concurrency auth) <= 5)%nat
  /\ (forall l, withExcludeBuckets l ∈ drop 3 (gcsManagerOpts conn concurrency auth)
                <-> l = GetExcludeBuckets conn /\ l <> []
                    /\ GetIncludeBuckets conn = [])
  /\ (forall l, withIncludeBuckets l ∈ drop 3 (gcsManagerOpts conn concurrency auth)
                <-> l = GetIncludeBuckets conn /\ l <> [])
  /\ (forall l, withExcludeObjects l ∈ drop 3 (gcsManagerOpts conn concurrency auth)
                <-> l = GetExcludeObjects conn /\ l <> []
                    /\ GetIncludeObjects conn = [])
  /\ (forall l, withIncludeObjects l ∈ drop 3 (gcsManagerOpts conn concurrency auth)
                <-> l = GetIncludeObjects conn /\ l <> []).
Proof.
  cbv zeta. unfold gcsManagerOpts, setGCSManagerBucketOptions,
    setGCSManagerObjectOptions. rewrite !filter_cases.
  destruct (GetIncludeBuckets conn) as [|ib ibs];
    destruct (GetExcludeBuckets conn) as [|eb ebs];
    destruct (GetIncludeObjects conn) as [|io ios];
    destruct (GetExcludeObjects conn) as [|eo eos];
    cbn [app length drop];
    (split; [reflexivity|]); (split; [lia|]);
    repeat match goal with |- _ /\ _ => split end; intros l;
    rewrite ?elem_of_cons, ?elem_of_nil; intuition congruence.
Qed.

(** X17.  The stages of [Init].  [Init] never calls a nil manager.
    Name, job id, source id, verification flag and concurrency are
    stored as given whether or not [Init] succeeds, and [JobID] and
    [SourceID] then return the ids.  [Init] succeeds exactly when the
    connection decodes, the manager is configured and its attributes are
    obtained; the source then holds that manager and these statistics,
    which are the ones [Chunks] will read.  When it fails, the
    statistics are as they were before the call, and a failure of the
    enumeration is reported under both prefixes. *)
Theorem Init_stages
    {gcsManager : Type} (co : Collaborators gcsManager) (s : Fields gcsManager)
    (name : string) (id sourceID : Z) (verify : bool)
    (connection : string + sourcespb_GCS) (concurrency : Z) :
  exists s' err,
    Init co s name id sourceID verify connection concurrency = Some (s', err)
    /\ (f_name s' = name /\ JobID s' = id /\ SourceID_ s' = sourceID
        /\ f_verify s' = verify /\ f_concurrency s' = concurrency)
    /\ (err = None
        <-> exists conn m a,
              connection = inr conn
              /\ configureGCSManager co (Some conn) concurrency = inr m
              /\ m_attributes co m = inr a)
    /\ (err = None ->
        exists conn m a,
          connection = inr conn
          /\ configureGCSManager co (Some conn) concurrency = inr m
          /\ m_attributes co m = inr a
          /\ f_gcsManager s' = Some m /\ f_stats s' = Some a
          /\ Source_of s'
             = Some (mkSource name id sourceID concurrency verify a))
    /\ (err <> None -> f_stats s' = f_stats s)
    /\ (forall conn m e,
          connection = inr conn ->
          configureGCSManager co (Some conn) concurrency = inr m ->
          m_attributes co m = inl e ->
          err = Some ("error enumerating buckets and objects: "
                      +:+ "error getting attributes during enumeration: " +:+ e)).
Proof.
  unfold Init. destruct connection as [e|conn].
  { eexists _, _. split; [reflexivity|]. split; [repeat split|].
    split; [split; [discriminate | intros (c & m & a & H & _); discriminate]|].
    split; [discriminate|]. split; [reflexivity|].
    intros c m e0 H. discriminate. }
  destruct (configureGCSManager co (Some conn) concurrency) as [e|m] eqn:Ec.
  { eexists _, _. split; [reflexivity|]. split; [repeat split|].
    split; [split; [discriminate|]|].
    { intros (c & m & a & H & Hc & _). injection H as <-.
      rewrite Ec in Hc. discriminate. }
    split; [discriminate|]. split; [reflexivity|].
    intros c m e0 H Hc. injection H as <-. rewrite Ec in Hc. discriminate. }
  unfold enumerate. cbn [f_gcsManager f_name f_jobId f_sourceId f_concurrency
                         f_verify f_stats].
  destruct (m_attributes co m) as [e|a] eqn:Ea.
  - eexists _, _. split; [reflexivity|]. split; [repeat split|].
    split; [split; [discriminate|]|].
    { intros (c & m0 & a & H & Hc & Ha). injection H as <-.
      rewrite Ec in Hc. injection Hc as <-. rewrite Ea in Ha. discriminate. }
    split; [discriminate|]. split; [reflexivity|].
    intros c m0 e0 H Hc Ha. injection H as <-.
    rewrite Ec in Hc. injection Hc as <-. rewrite Ea in Ha. injection Ha as <-.
    reflexivity.
  - eexists _, _. split; [reflexivity|]. split; [repeat split|].
    split; [split; [intros _; exists conn, m, a; auto | reflexivity]|].
    split; [intros _; exists conn, m, a; repeat split; assumption|].
    split; [congruence|].
    intros c m0 e0 H Hc Ha. injection H as <-.
    rewrite Ec in Hc. injection Hc as <-. rewrite Ea in Ha. discriminate.
Qed.
